(** * DA_Framework: breaker, rate limiter, bounded executor, accumulator
      and the two-stage work queue supervisor

    A shallow embedding of the Python package [afiniti_da]:

    - [multiprocessing_breaker.py]               -> [Module Breaker],
                                                    [Module BreakerThreads]
    - [threading_smooth_rate_limiter.py]         -> [Module RateLimiter]
    - [threading_bounded_executor.py]            -> [Module BoundedExecutor]
    - [threading_accumulator.py]                 -> [Module Accumulator]
    - [multiprocessing_threading_work_queue.py]  -> [Module WorkQueue]

    Conventions.  Clock readings ([time.monotonic()]) and durations are
    rationals [Q] (the source uses binary floating point; rounding is not
    modelled).  Every call of [time.monotonic()] in the source is an explicit
    argument of the embedded function, in program order.  A Python call that
    may raise returns an [outcome]; objects shared between processes
    ([multiprocessing.Event], [multiprocessing.Queue]) live in a record of
    their own, separate from the attributes that every forked process holds
    as a private copy.  What the surroundings decide is an explicit
    argument too: whether the feeder thread of a [multiprocessing.Queue]
    has delivered an item by the time of a [get], in which order the
    threads of a process execute their statements, whether a [join]
    returns. *)

From Stdlib Require Import String.
From Stdlib Require Import List ZArith QArith Qminmax Lqa Lia Bool Permutation.
Import ListNotations.
Local Open Scope list_scope.

Set Implicit Arguments.

(** ** Exceptions and outcomes *)

(** The exceptions that occur in the package.  [UserError] stands for any
    other exception class raised by user hooks or by the runtime;
    [KeyboardInterrupt] is a [BaseException] that is not an [Exception]. *)
Inductive exn : Type :=
| QueueFull
| QueueEmpty
| BreakerTrippingException
| BreakerTrippedException (reason : string)
| UnconfiguredException
| ZeroDivisionError
| ValueError
| RuntimeError
| KeyboardInterrupt
| UserError (code : nat)
| OverflowError.

Inductive outcome (A : Type) : Type :=
| Return (a : A)
| Raise (e : exn).
Arguments Return {A} a.
Arguments Raise {A} e.

(** ** A bounded FIFO with the non-blocking operations of
       [multiprocessing.Queue] *)

Module BoundedQueue.
Section Ops.
Variable A : Type.

(** [q.put(x, block=False)] on a queue built with [maxsize = m], [m > 0]:
    [None] is [queue.Full]. *)
Definition put_nowait (m : nat) (q : list A) (x : A) : option (list A) :=
  if Nat.ltb (List.length q) m then Some (q ++ [x]) else None.

(** [q.get(block=False)]: [None] is [queue.Empty].  The list holds the
    items put and not yet got, which is what [maxsize] bounds: [put] takes
    a permit of the queue's semaphore and [get] gives it back.  The item
    itself travels through a feeder thread of the putting process, and a
    [get] finds it only once that thread has written it to the pipe;
    [delivered] says whether it has done so for the oldest item when the
    [get] looks.  A [get] that finds nothing leaves the queue as it is, so
    an item that is under way keeps its place. *)
Definition get_nowait (q : list A) (delivered : bool)
  : option (A * list A) :=
  match q with
  | [] => None
  | x :: q' => if delivered then Some (x, q') else None
  end.
End Ops.
End BoundedQueue.

(** ** multiprocessing_breaker.py *)

Module Breaker.
Section WithReason.
(** The reason "can be any type that can go in a queue". *)
Variable R : Type.

(** The objects every process reaches through IPC:
    [self._event = Event()] and [self._reason = Queue(maxsize=1)]. *)
Record shared : Type := mkShared {
  _event : bool;
  _reason : list R
}.

(** The plain attributes; after a fork every process has its own copy. *)
Record local : Type := mkLocal {
  _cached : bool;
  _checked : Q;
  _granularity : Q
}.

Definition state : Type := (shared * local)%type.

(** [__init__(granularity)]; [now] is the reading of [time.monotonic()]. *)
Definition __init__ (g now : Q) : state :=
  (mkShared false [], mkLocal false now g).

(** The first statement of the [try] block of [trip]:
    [self._reason.put(obj=reason, block=False)]. *)
Definition trip_put (sh : shared) (r : R) : option shared :=
  match BoundedQueue.put_nowait 1 (_reason sh) r with
  | Some q => Some (mkShared (_event sh) q)
  | None => None
  end.

(** The two statements after it: [self._event.set()] and
    [self._cached = True]. *)
Definition trip_set (st : state) : state :=
  (mkShared true (_reason (fst st)),
   mkLocal true (_checked (snd st)) (_granularity (snd st))).

(** [trip(reason)]: [queue.Full] skips the rest of the [try] block and is
    swallowed by [except queue.Full: pass]. *)
Definition trip (st : state) (r : R) : state :=
  match trip_put (fst st) r with
  | Some sh' => trip_set (sh', snd st)
  | None => st
  end.

Definition use_granularity (lo : local) (g : option Q) : Q :=
  match g with
  | Some g' => g'
  | None => _granularity lo
  end.

(** The condition of the [if] in [is_tripped]; [t1] is the clock reading
    taken inside the condition (not taken at all when the first disjunct
    holds). *)
Definition refresh_due (lo : local) (g : option Q) (t1 : Q) : bool :=
  Qle_bool (use_granularity lo g) 0
  || Qle_bool (use_granularity lo g) (t1 - _checked lo).

(** [is_tripped(granularity=None)]; [t2] is the clock reading stored in
    [self._checked]. *)
Definition is_tripped (st : state) (g : option Q) (t1 t2 : Q)
  : bool * state :=
  let (sh, lo) := st in
  if refresh_due lo g t1
  then (_event sh, (sh, mkLocal (_event sh) t2 (_granularity lo)))
  else (_cached lo, st).

(** [consume_reason()]: [self._reason.get(block=False)]; [delivered] as in
    [BoundedQueue.get_nowait]. *)
Definition consume_reason (st : state) (delivered : bool)
  : outcome R * state :=
  match BoundedQueue.get_nowait (_reason (fst st)) delivered with
  | Some (r, q) => (Return r, (mkShared (_event (fst st)) q, snd st))
  | None => (Raise QueueEmpty, st)
  end.

(** *** Traces of one process and of its environment *)

(** What one holder of the breaker does ([Trip], [IsTripped], [Consume]),
    one call after the other, and what the other processes do to the
    shared objects meanwhile: their [trip] calls, split into the queue
    [put] and the statements after it, and those of their [consume_reason]
    calls that found a reason ([EnvGet]; one that raised changes
    nothing). *)
Inductive op : Type :=
| Trip (r : R)
| IsTripped (g : option Q) (t1 t2 : Q)
| Consume (delivered : bool)
| EnvPut (r : R)
| EnvSet
| EnvGet.

Definition env_put (st : state) (r : R) : state :=
  match trip_put (fst st) r with
  | Some sh' => (sh', snd st)
  | None => st
  end.

Definition env_set (st : state) : state :=
  (mkShared true (_reason (fst st)), snd st).

Definition env_get (st : state) : state :=
  match BoundedQueue.get_nowait (_reason (fst st)) true with
  | Some (_, q) => (mkShared (_event (fst st)) q, snd st)
  | None => st
  end.

(** One step; the second component is what an [is_tripped] call
    returned.  Every call runs in one piece, as the calls of a process do
    that uses its breaker from one thread (the acquisition process, the
    parent); the statements of calls made by several threads of one
    process interleave, which [BreakerThreads] describes. *)
Definition step (st : state) (o : op) : state * option bool :=
  match o with
  | Trip r => (trip st r, None)
  | IsTripped g t1 t2 =>
      let (b, st') := is_tripped st g t1 t2 in (st', Some b)
  | Consume d => (snd (consume_reason st d), None)
  | EnvPut r => (env_put st r, None)
  | EnvSet => (env_set st, None)
  | EnvGet => (env_get st, None)
  end.

(** The results of the [is_tripped] calls of a trace, in order. *)
Fixpoint polls (st : state) (ops : list op) : list bool :=
  match ops with
  | [] => []
  | o :: ops' =>
      let (st', ob) := step st o in
      match ob with
      | Some b => b :: polls st' ops'
      | None => polls st' ops'
      end
  end.

(** A sequence of [trip] calls. *)
Definition trips (st : state) (rs : list R) : state :=
  fold_left trip rs st.

(** A cached [True] is backed by the shared event. *)
Definition cache_sound (st : state) : Prop :=
  _cached (snd st) = true -> _event (fst st) = true.

(** A filled reason slot is backed by the shared event: every [trip] that
    published a reason has also executed [self._event.set()]. *)
Definition published_set (sh : shared) : Prop :=
  _reason sh <> [] -> _event sh = true.

(** The shared event is set and this process has seen it. *)
Definition latched (st : state) : Prop :=
  _cached (snd st) = true /\ _event (fst st) = true.

End WithReason.

Arguments IsTripped {R} g t1 t2.
Arguments Consume {R} delivered.
Arguments EnvSet {R}.
Arguments EnvGet {R}.
End Breaker.

(** ** The breaker among the threads of one process *)

(** [MultiprocessingBreaker] has no lock.  The threads of a process (in a
    work process the main thread and the pool threads) share its
    attributes, and a thread can be suspended between any two statements of
    [is_tripped] and of [trip], also between the evaluation of
    [self._event.is_set()] and the store of its result to
    [self._cached]. *)
Module BreakerThreads.
Section WithReason.
Variable R : Type.

(** Where a thread stands inside a call of [is_tripped] or of [trip]. *)
Inductive pc : Type :=
| Idle                      (* in no call *)
| Testing (g : option Q)    (* [is_tripped] called; the condition of the
                               [if] is next *)
| Reading                   (* the condition held;
                               [self._event.is_set()] is next *)
| Storing (v : bool)        (* [is_set()] returned [v];
                               the store to [self._cached] is next *)
| Stamping                  (* the store to [self._checked] is next *)
| Returning                 (* [return self._cached] is next *)
| Putting (r : R)           (* [trip(r)] called;
                               [self._reason.put(obj=r, block=False)] is
                               next *)
| Setting                   (* the [put] went through;
                               [self._event.set()] is next *)
| Caching.                  (* [self._cached = True] is next *)

(** A process: the shared objects, its copy of the attributes, and its
    threads by number. *)
Record process : Type := mkProcess {
  objects : Breaker.shared R;
  attrs : Breaker.local;
  threads : nat -> pc
}.

Definition move (i : nat) (x : pc) (ts : nat -> pc) : nat -> pc :=
  fun j => if Nat.eqb j i then x else ts j.

(** What the scheduler picks next: thread [i] calls [is_tripped(g)];
    thread [i] executes its next statement, [t] being the clock reading
    when that statement reads the clock; another process executes the
    [put] or the [self._event.set()] of its [trip]; thread [i] calls
    [trip(r)]; another process executes a [consume_reason] that finds a
    reason. *)
Inductive action : Type :=
| Call (i : nat) (g : option Q)
| Step (i : nat) (t : Q)
| OtherPut (r : R)
| OtherSet
| CallTrip (i : nat) (r : R)
| OtherGet.

(** One action; the second component is the thread and the value of an
    [is_tripped] call that returns. *)
Definition step (p : process) (a : action)
  : process * option (nat * bool) :=
  match a with
  | Call i g =>
      match threads p i with
      | Idle =>
          (mkProcess (objects p) (attrs p) (move i (Testing g) (threads p)),
           None)
      | _ => (p, None)
      end
  | Step i t =>
      match threads p i with
      | Idle => (p, None)
      | Testing g =>
          (mkProcess (objects p) (attrs p)
             (move i (if Breaker.refresh_due (attrs p) g t
                      then Reading else Returning) (threads p)),
           None)
      | Reading =>
          (mkProcess (objects p) (attrs p)
             (move i (Storing (Breaker._event (objects p))) (threads p)),
           None)
      | Storing v =>
          (mkProcess (objects p)
             (Breaker.mkLocal v (Breaker._checked (attrs p))
                              (Breaker._granularity (attrs p)))
             (move i Stamping (threads p)),
           None)
      | Stamping =>
          (mkProcess (objects p)
             (Breaker.mkLocal (Breaker._cached (attrs p)) t
                              (Breaker._granularity (attrs p)))
             (move i Returning (threads p)),
           None)
      | Returning =>
          (mkProcess (objects p) (attrs p) (move i Idle (threads p)),
           Some (i, Breaker._cached (attrs p)))
      | Putting r =>
          match Breaker.trip_put (objects p) r with
          | Some sh' =>
              (mkProcess sh' (attrs p) (move i Setting (threads p)), None)
          | None =>
              (* [queue.Full]: [except queue.Full: pass] *)
              (mkProcess (objects p) (attrs p) (move i Idle (threads p)),
               None)
          end
      | Setting =>
          (mkProcess (Breaker.mkShared true (Breaker._reason (objects p)))
                     (attrs p) (move i Caching (threads p)),
           None)
      | Caching =>
          (mkProcess (objects p)
             (Breaker.mkLocal true (Breaker._checked (attrs p))
                              (Breaker._granularity (attrs p)))
             (move i Idle (threads p)),
           None)
      end
  | OtherPut r =>
      (mkProcess (fst (Breaker.env_put (objects p, attrs p) r)) (attrs p)
                 (threads p),
       None)
  | OtherSet =>
      (mkProcess (fst (Breaker.env_set (objects p, attrs p))) (attrs p)
                 (threads p),
       None)
  | CallTrip i r =>
      match threads p i with
      | Idle =>
          (mkProcess (objects p) (attrs p) (move i (Putting r) (threads p)),
           None)
      | _ => (p, None)
      end
  | OtherGet =>
      (mkProcess (fst (Breaker.env_get (objects p, attrs p))) (attrs p)
                 (threads p),
       None)
  end.

(** A schedule: the final state, and the calls that returned, in the order
    of their return. *)
Fixpoint run (p : process) (acts : list action)
  : process * list (nat * bool) :=
  match acts with
  | [] => (p, [])
  | a :: acts' =>
      let (p1, r) := step p a in
      let (p2, rs) := run p1 acts' in
      (p2, match r with Some x => x :: rs | None => rs end)
  end.

(** A process right after [__init__]: no thread is in a call. *)
Definition fresh (g now : Q) : process :=
  mkProcess (fst (Breaker.__init__ R g now)) (snd (Breaker.__init__ R g now))
            (fun _ => Idle).

(** A call of thread [i] that no other action interrupts: the call and
    the five statements of the longest path; [t1] is the clock reading of
    the condition and [t2] the one stored in [self._checked]. *)
Definition call (i : nat) (g : option Q) (t1 t2 : Q) : list action :=
  [Call i g; Step i t1; Step i t1; Step i t1; Step i t2; Step i t2].

(** A call of [trip(r)] by thread [i] that no other action interrupts: the
    call and the three statements of the [try] block, none of which reads
    the clock. *)
Definition call_trip (i : nat) (r : R) : list action :=
  [CallTrip i r; Step i 0; Step i 0; Step i 0].

(** A [True] that a thread holds, in [self._cached] or on its way there,
    is backed by the shared event: the thread has read it from the event,
    or has set the event itself. *)
Definition backed (p : process) : Prop :=
  (Breaker._cached (attrs p) = true -> Breaker._event (objects p) = true) /\
  (forall i, threads p i = Storing true \/ threads p i = Caching ->
             Breaker._event (objects p) = true).

(** The shared event is set and no thread holds a [False] on its way to
    [self._cached]: every value of the event read before the [set] has
    been stored. *)
Definition settled (p : process) : Prop :=
  Breaker._event (objects p) = true /\
  forall i, threads p i <> Storing false.

End WithReason.

Arguments Idle {R}.
Arguments Testing {R} g.
Arguments Reading {R}.
Arguments Storing {R} v.
Arguments Stamping {R}.
Arguments Returning {R}.
Arguments Setting {R}.
Arguments Caching {R}.
Arguments OtherSet {R}.
Arguments OtherGet {R}.
Arguments Call {R} i g.
Arguments Step {R} i t.
Arguments call {R} i g t1 t2.
End BreakerThreads.

(** ** threading_smooth_rate_limiter.py *)

Module RateLimiter.
Local Open Scope Q_scope.

Record state : Type := mkState {
  _last_time : Q;
  _last_report : Q;
  _delay : Q;
  _report_interval_seconds : Q;
  _report_count : Z
}.

(** [a < b] on floats. *)
Definition Qlt_bool (a b : Q) : bool := negb (Qle_bool b a).

(** [__init__(calls_per_second=5, report_interval_seconds=5)];
    [1/calls_per_second] raises [ZeroDivisionError] at rate zero. *)
Definition __init__ (calls_per_second report_interval : Q) : outcome state :=
  if Qeq_bool calls_per_second 0 then Raise ZeroDivisionError
  else Return (mkState 0 0 (1 / calls_per_second) report_interval 0).

(** What a call of [wait] does besides updating the attributes: the
    argument of [time.sleep] when it is called, and the rate passed to
    [logging.info] when a report is due. *)
Record effects : Type := mkEffects {
  slept : option Q;
  logged : option Q
}.

(** The reporting block at the head of [wait]: the new
    [(_last_report, _report_count)] and the logged rate; the division
    [self._report_count / (entry_time - self._last_report)] raises
    [ZeroDivisionError] on a zero divisor. *)
Definition report (s : state) (entry_time : Q)
  : outcome (Q * Z * option Q) :=
  if Qeq_bool (_last_report s) 0 then
    Return (entry_time, _report_count s, None)
  else if Qlt_bool (_last_report s) (entry_time - _report_interval_seconds s)
  then
    if Qeq_bool (entry_time - _last_report s) 0 then Raise ZeroDivisionError
    else Return (entry_time, 0%Z,
                 Some (inject_Z (_report_count s)
                       / (entry_time - _last_report s)))
  else Return (_last_report s, _report_count s, None).

(** [remaining = self._delay - (entry_time - self._last_time)]. *)
Definition remaining (s : state) (entry_time : Q) : Q :=
  _delay s - (entry_time - _last_time s).

(** [wait()]; [entry_time] is the reading of [time.monotonic()] taken
    under the lock. *)
Definition wait (s : state) (entry_time : Q) : outcome (state * effects) :=
  match report s entry_time with
  | Raise e => Raise e
  | Return (lr, rc, lg) =>
      let rem := remaining s entry_time in
      let (sl, after_sleep) :=
        if Qlt_bool 0 rem then (Some rem, entry_time + rem)
        else (None, entry_time) in
      Return (mkState after_sleep lr (_delay s) (_report_interval_seconds s)
                      (rc + 1)%Z,
              mkEffects sl lg)
  end.

(** *** Timed traces *)

(** One call of [wait] as the clock sees it: the entry reading, and by how
    much the return of the call is later than entry plus the requested
    sleep ([time.sleep] suspends for at least the requested time, and the
    statements around it take time too). *)
Record call : Type := mkCall {
  entry : Q;
  late : Q
}.

Record release : Type := mkRelease {
  entered : Q;
  requested : Q;      (* the argument of time.sleep, 0 when not called *)
  released : Q;       (* self._last_time after the call *)
  returned : Q        (* the instant the call returns *)
}.

Definition requested_sleep (e : effects) : Q :=
  match slept e with
  | Some d => d
  | None => 0
  end.

(** A sequence of calls, each on the state the previous one left. *)
Fixpoint waits (s : state) (cs : list call) : outcome (list release) :=
  match cs with
  | [] => Return []
  | c :: cs' =>
      match wait s (entry c) with
      | Raise e => Raise e
      | Return (s', eff) =>
          match waits s' cs' with
          | Raise e => Raise e
          | Return rs =>
              Return (mkRelease (entry c) (requested_sleep eff)
                        (_last_time s')
                        (entry c + requested_sleep eff + late c) :: rs)
          end
      end
  end.

Fixpoint final (s : state) (cs : list call) : outcome state :=
  match cs with
  | [] => Return s
  | c :: cs' =>
      match wait s (entry c) with
      | Raise e => Raise e
      | Return (s', _) => final s' cs'
      end
  end.

(** The calls are serialised by [self._lock] and the clock is monotonic:
    a call enters no earlier than [t], the instant the previous call
    returned, and returns no earlier than its sleep allows. *)
Fixpoint well_timed (s : state) (t : Q) (cs : list call) : Prop :=
  match cs with
  | [] => True
  | c :: cs' =>
      t <= entry c /\ 0 <= late c /\
      match wait s (entry c) with
      | Raise _ => True
      | Return (s', eff) =>
          well_timed s' (entry c + requested_sleep eff + late c) cs'
      end
  end.

(** Consecutive elements of a list are related by [P]. *)
Fixpoint chain (A : Type) (P : A -> A -> Prop) (l : list A) : Prop :=
  match l with
  | [] => True
  | x :: l' =>
      match l' with
      | [] => True
      | y :: _ => P x y /\ chain P l'
      end
  end.

(** One release of a limiter with delay [d]: the sleep asked for is
    between zero and [d] (zero when [d] is negative), the release time is
    the entry reading plus that sleep, and the call returns no earlier
    than its release time. *)
Definition paced (d : Q) (r : release) : Prop :=
  0 <= requested r /\ requested r <= Qmax 0 d /\
  released r == entered r + requested r /\
  released r <= returned r.

(** Two consecutive releases: the release times are [d] apart at least,
    the later call returns no earlier than [d] after the earlier release,
    and no earlier than [d] after the earlier return when that return was
    on time. *)
Definition spaced (d : Q) (a b : release) : Prop :=
  released a + d <= released b /\
  released a + d <= returned b /\
  (returned a == released a -> returned a + d <= returned b).

End RateLimiter.

(** ** threading_bounded_executor.py *)

Module BoundedExecutor.
Section WithTask.
(** A submitted task: the callable with its arguments. *)
Variable T : Type.

(** [semaphore]: a [threading.BoundedSemaphore] ([sem_value] permits left,
    created with [sem_initial]).  [executor]: the
    [concurrent.futures.ThreadPoolExecutor], as far as [submit] and the
    done-callbacks see it: the work queue, the tasks being run by one of the
    [max_workers] threads, the shutdown flag.  [holders]: the threads that
    are inside [submit] between [acquire] and the hand-off.  [acquires] and
    [releases] count the calls of [semaphore.acquire] that returned and of
    [semaphore.release], and [departed] the tasks that left the pool
    (finished or cancelled) or never entered it (failed hand-off); the three
    are bookkeeping for the statements, the code does not read them. *)
Record state : Type := mkState {
  sem_value : Z;
  sem_initial : Z;
  max_workers : Z;
  queued : list T;
  running : list T;
  is_shutdown : bool;
  holders : nat;
  acquires : nat;
  releases : nat;
  departed : nat
}.

(** [__init__(bound, max_workers)]: [ThreadPoolExecutor] rejects
    [max_workers <= 0] and [BoundedSemaphore] a negative value, both with
    [ValueError]. *)
Definition __init__ (bound max_w : Z) : outcome state :=
  if (max_w <=? 0)%Z then Raise ValueError
  else if (bound + max_w <? 0)%Z then Raise ValueError
  else Return (mkState (bound + max_w) (bound + max_w) max_w [] [] false
                       0 0 0 0).

(** [self.semaphore.acquire()]: [None] when the caller has to block. *)
Definition sem_acquire (s : state) : option state :=
  if (0 <? sem_value s)%Z then
    Some (mkState (sem_value s - 1) (sem_initial s) (max_workers s)
                  (queued s) (running s) (is_shutdown s)
                  (S (holders s)) (S (acquires s)) (releases s) (departed s))
  else None.

(** [self.semaphore.release()]: a bounded semaphore raises [ValueError]
    when released above its initial value. *)
Definition sem_release (s : state) : outcome state :=
  if (sem_initial s <=? sem_value s)%Z then Raise ValueError
  else Return (mkState (sem_value s + 1) (sem_initial s) (max_workers s)
                       (queued s) (running s) (is_shutdown s)
                       (holders s) (acquires s) (S (releases s))
                       (departed s)).

(** [self.executor.submit(fn, ...)]: [RuntimeError] after shutdown,
    otherwise the task joins the pool's work queue. *)
Definition pool_submit (s : state) (t : T) : outcome state :=
  if is_shutdown s then Raise RuntimeError
  else Return (mkState (sem_value s) (sem_initial s) (max_workers s)
                       (queued s ++ [t]) (running s) (is_shutdown s)
                       (holders s) (acquires s) (releases s) (departed s)).

Definition leave (s : state) : state :=
  mkState (sem_value s) (sem_initial s) (max_workers s)
          (queued s) (running s) (is_shutdown s)
          (pred (holders s)) (acquires s) (releases s) (S (departed s)).

Definition handed (s : state) : state :=
  mkState (sem_value s) (sem_initial s) (max_workers s)
          (queued s) (running s) (is_shutdown s)
          (pred (holders s)) (acquires s) (releases s) (departed s).

(** The part of [submit] after [acquire]: the [try] / [except] / [else].
    The first component is what [submit] gives its caller: the future
    ([Return]) or the exception of the hand-off, re-raised after the
    release. *)
Definition submit_handoff (s : state) (t : T) : outcome unit * state :=
  match pool_submit s t with
  | Raise e =>
      match sem_release s with
      | Return s' => (Raise e, leave s')
      | Raise e' => (Raise e', leave s)
      end
  | Return s' => (Return tt, handed s')
  end.

(** [submit(fn, ...)] run without interruption: [None] when it blocks. *)
Definition submit (s : state) (t : T) : option (outcome unit * state) :=
  match sem_acquire s with
  | None => None
  | Some s' => Some (submit_handoff s' t)
  end.

(** [shutdown(wait)]. *)
Definition shutdown (s : state) : state :=
  mkState (sem_value s) (sem_initial s) (max_workers s)
          (queued s) (running s) true
          (holders s) (acquires s) (releases s) (departed s).

(** Remove the element at position [i]. *)
Fixpoint remove_nth (A : Type) (i : nat) (l : list A) : option (A * list A) :=
  match l, i with
  | [], _ => None
  | x :: l', O => Some (x, l')
  | x :: l', S i' =>
      match remove_nth i' l' with
      | Some (y, l'') => Some (y, x :: l'')
      | None => None
      end
  end.

(** A pool thread takes the oldest queued task. *)
Definition pool_start (s : state) : option state :=
  match queued s with
  | [] => None
  | t :: q =>
      if (Z.of_nat (List.length (running s)) <? max_workers s)%Z then
        Some (mkState (sem_value s) (sem_initial s) (max_workers s)
                      q (running s ++ [t]) (is_shutdown s)
                      (holders s) (acquires s) (releases s) (departed s))
      else None
  end.

(** The done-callback [lambda x: self.semaphore.release()]; the futures
    machinery logs and drops an exception of a callback. *)
Definition done_callback (s : state) : state :=
  match sem_release s with
  | Return s' => s'
  | Raise _ => s
  end.

Definition depart (s : state) (q r : list T) : state :=
  mkState (sem_value s) (sem_initial s) (max_workers s)
          q r (is_shutdown s)
          (holders s) (acquires s) (releases s) (S (departed s)).

(** The running task at position [i] completes, with a result or with an
    exception: the future becomes done and its callbacks run once. *)
Definition pool_finish (s : state) (i : nat) : option state :=
  match remove_nth i (running s) with
  | Some (_, r) => Some (done_callback (depart s (queued s) r))
  | None => None
  end.

(** The caller cancels the future of the queued task at position [i]
    ([submit] returns the future): a cancelled future runs its callbacks
    once as well. *)
Definition pool_cancel (s : state) (i : nat) : option state :=
  match remove_nth i (queued s) with
  | Some (_, q) => Some (done_callback (depart s q (running s)))
  | None => None
  end.

(** The atomic actions of the threads that use one executor. *)
Inductive action : Type :=
| Acquire
| Handoff (t : T)
| Start
| Finish (i : nat)
| Cancel (i : nat)
| Shutdown.

(** [None]: the action is not possible in this state (a blocked acquire,
    a hand-off by nobody, no task to start or finish). *)
Definition step (s : state) (a : action) : option state :=
  match a with
  | Acquire => sem_acquire s
  | Handoff t =>
      match holders s with
      | O => None
      | S _ => Some (snd (submit_handoff s t))
      end
  | Start => pool_start s
  | Finish i => pool_finish s i
  | Cancel i => pool_cancel s i
  | Shutdown => Some (shutdown s)
  end.

Fixpoint run (s : state) (acts : list action) : option state :=
  match acts with
  | [] => Some s
  | a :: acts' =>
      match step s a with
      | Some s' => run s' acts'
      | None => None
      end
  end.

(** The tasks accepted by the pool and not yet complete. *)
Definition in_flight (s : state) : Z := Z.of_nat (List.length (running s)).
Definition pending (s : state) : Z := Z.of_nat (List.length (queued s)).

(** The permits are all accounted for: each one is in the semaphore, or
    with a thread between [acquire] and the hand-off, or with a task that
    the pool holds; and as many permits were released as tasks are gone. *)
Definition balanced (s : state) : Prop :=
  (0 <= sem_value s)%Z /\
  (sem_value s + Z.of_nat (holders s) + pending s + in_flight s
   = sem_initial s)%Z /\
  (in_flight s <= max_workers s)%Z /\
  acquires s
  = (releases s + holders s + List.length (queued s)
     + List.length (running s))%nat /\
  releases s = departed s.

End WithTask.

Arguments Acquire {T}.
Arguments Start {T}.
Arguments Finish {T} i.
Arguments Cancel {T} i.
Arguments Shutdown {T}.
End BoundedExecutor.

(** ** threading_accumulator.py *)

Module Accumulator.
Section WithItem.
Variable A : Type.

Record state : Type := mkState {
  _size : Z;
  _serial : bool;
  _list : list A
}.

(** [__init__(size=512, serial=True)]. *)
Definition __init__ (sz : Z) (ser : bool) : state := mkState sz ser [].

(** What a call does that another thread or the subclass can observe. *)
Inductive event : Type :=
| AcquireListLock
| ReleaseListLock
| AcquireProcessLock
| ReleaseProcessLock
| OnProcess (the_list : list A).

(** [if process_list:] is false for [None] and for the empty list. *)
Definition truthy (process_list : option (list A)) : bool :=
  match process_list with
  | Some (_ :: _) => true
  | _ => false
  end.

(** The second half of [add] and of [flush]. *)
Definition dispatch (ser : bool) (process_list : option (list A))
  : list event :=
  match process_list with
  | Some l =>
      if truthy process_list then
        if ser then [AcquireProcessLock; OnProcess l; ReleaseProcessLock]
        else [OnProcess l]
      else []
  | None => []
  end.

(** The block of [add] under [self._list_lock]. *)
Definition add_locked (s : state) (thing : A) : state * option (list A) :=
  let l := _list s ++ [thing] in
  if (_size s <=? Z.of_nat (List.length l))%Z
  then (mkState (_size s) (_serial s) [], Some l)
  else (mkState (_size s) (_serial s) l, None).

Definition add (s : state) (thing : A) : state * list event :=
  let (s', process_list) := add_locked s thing in
  (s', [AcquireListLock; ReleaseListLock] ++ dispatch (_serial s) process_list).

(** The block of [flush] under [self._list_lock]. *)
Definition flush_locked (s : state) : state * option (list A) :=
  if (0 <? Z.of_nat (List.length (_list s)))%Z
  then (mkState (_size s) (_serial s) [], Some (_list s))
  else (s, None).

Definition flush (s : state) : state * list event :=
  let (s', process_list) := flush_locked s in
  (s', [AcquireListLock; ReleaseListLock] ++ dispatch (_serial s) process_list).

(** A sequence of [add] calls. *)
Fixpoint adds (s : state) (things : list A) : state * list event :=
  match things with
  | [] => (s, [])
  | x :: things' =>
      let (s1, e1) := add s x in
      let (s2, e2) := adds s1 things' in
      (s2, e1 ++ e2)
  end.

(** [adds] followed by one [flush]. *)
Definition adds_then_flush (s : state) (things : list A)
  : state * list event :=
  let (s1, e1) := adds s things in
  let (s2, e2) := flush s1 in
  (s2, e1 ++ e2).

(** The batches passed to [_on_process], in call order. *)
Fixpoint batches (evs : list event) : list (list A) :=
  match evs with
  | [] => []
  | OnProcess l :: evs' => l :: batches evs'
  | _ :: evs' => batches evs'
  end.

(** *** Threads *)

(** Several threads use one accumulator.  The blocks under
    [self._list_lock] exclude each other; between its block and its
    dispatch a thread holds the batch it swapped out in the local variable
    [process_list]. *)
Inductive tstep : Type :=
| TAdd (thread : nat) (thing : A)
| TFlush (thread : nat)
| TDispatch (thread : nat).

Record world : Type := mkWorld {
  acc : state;
  held : list (nat * list A);     (* thread, its process_list *)
  delivered : list (list A)       (* arguments of _on_process so far *)
}.

Fixpoint take_held (th : nat) (h : list (nat * list A))
  : option (list A * list (nat * list A)) :=
  match h with
  | [] => None
  | (th', l) :: h' =>
      if Nat.eqb th th' then Some (l, h')
      else match take_held th h' with
           | Some (l', h'') => Some (l', (th', l) :: h'')
           | None => None
           end
  end.

Definition hold (th : nat) (process_list : option (list A))
  (h : list (nat * list A)) : list (nat * list A) :=
  match process_list with
  | Some l => if truthy process_list then h ++ [(th, l)] else h
  | None => h
  end.

Definition tstep_run (w : world) (t : tstep) : world :=
  match t with
  | TAdd th x =>
      let (s', pl) := add_locked (acc w) x in
      mkWorld s' (hold th pl (held w)) (delivered w)
  | TFlush th =>
      let (s', pl) := flush_locked (acc w) in
      mkWorld s' (hold th pl (held w)) (delivered w)
  | TDispatch th =>
      match take_held th (held w) with
      | Some (l, h') => mkWorld (acc w) h' (delivered w ++ [l])
      | None => w
      end
  end.

Definition truns (w : world) (ts : list tstep) : world :=
  fold_left tstep_run ts w.

(** The things added by a schedule, in the order of the locked blocks. *)
Fixpoint added (ts : list tstep) : list A :=
  match ts with
  | [] => []
  | TAdd _ x :: ts' => x :: added ts'
  | _ :: ts' => added ts'
  end.

(** Everything the accumulator and its threads hold or have delivered. *)
Definition content (w : world) : list A :=
  concat (delivered w) ++ concat (map snd (held w)) ++ _list (acc w).

End WithItem.

Arguments AcquireListLock {A}.
Arguments ReleaseListLock {A}.
Arguments AcquireProcessLock {A}.
Arguments ReleaseProcessLock {A}.
Arguments TFlush {A} thread.
Arguments TDispatch {A} thread.
End Accumulator.

(** ** multiprocessing_threading_work_queue.py *)

Module WorkQueue.
Section WithItem.
(** A work item: any value that can cross the process boundary. *)
Variable Item : Type.

Local Open Scope Q_scope.

(** The breaker of the pipeline; the reasons it is tripped with are
    strings. *)
Definition breaker : Type := Breaker.state string.

(** [MultiprocessingBreaker()]: the default granularity. *)
Definition default_granularity : Q := 1 # 10.

(** A complete [trip(reason)] executed by another process: the shared
    objects change, this process's copy of the attributes does not. *)
Definition other_trip (b : breaker) (r : string) : breaker :=
  match Breaker.trip_put (fst b) r with
  | Some sh' => Breaker.env_set (sh', snd b)
  | None => b
  end.

Definition others_trip (b : breaker) (rs : list string) : breaker :=
  fold_left other_trip rs b.

(** *** _distribute_work *)

(** What the acquisition process shares with the work processes. *)
Record pipeline : Type := mkPipeline {
  _queue : list Item;
  queue_max : Z;
  _done : bool;
  _breaker : breaker
}.

(** What the rest of the system does around one pass of the loop: the
    [trip] calls of other processes completed before the poll, the two
    clock readings of [is_tripped], and how many of the oldest items the
    consumers take off the queue while [put] waits. *)
Record tick : Type := mkTick {
  others : list string;
  t1 : Q;
  t2 : Q;
  taken : nat
}.

(** [Queue(maxsize)]: a [maxsize <= 0] means no bound. *)
Definition has_room (maxsize : Z) (q : list Item) : bool :=
  (maxsize <=? 0)%Z || (Z.of_nat (List.length q) <? maxsize)%Z.

(** [self._queue.put(item, timeout=1)]: the queue after the consumers took
    their items, and whether the item went in ([false]: [queue.Full]). *)
Definition put_timeout (maxsize : Z) (q : list Item) (n : nat) (item : Item)
  : bool * list Item :=
  let q' := skipn n q in
  if has_room maxsize q' then (true, q' ++ [item]) else (false, q').

Inductive dev : Type :=
| Polled (event_set answer : bool)   (* is_tripped(): the shared event
                                        at that moment, and the answer *)
| Enqueued
| TimedOut.

(** [_distribute_work(item)]: [None] when the call is still looping after
    the last tick. *)
Fixpoint _distribute_work (p : pipeline) (item : Item) (ticks : list tick)
  : option (outcome unit * pipeline * list dev) :=
  match ticks with
  | [] => None
  | k :: ticks' =>
      let b0 := others_trip (_breaker p) (others k) in
      let (tripped, b1) := Breaker.is_tripped b0 None (t1 k) (t2 k) in
      let ev := Polled (Breaker._event (fst b0)) tripped in
      if tripped then
        Some (Raise BreakerTrippingException,
              mkPipeline (_queue p) (queue_max p) (_done p) b1, [ev])
      else
        let (ok, q') := put_timeout (queue_max p) (_queue p) (taken k) item in
        let p' := mkPipeline q' (queue_max p) (_done p) b1 in
        if ok then Some (Return tt, p', [ev; Enqueued])
        else
          match _distribute_work p' item ticks' with
          | Some (r, p'', tr) => Some (r, p'', ev :: TimedOut :: tr)
          | None => None
          end
  end.

(** The shape of a complete call: polls that answer "not tripped", each
    followed by a timed-out [put], and then either a poll that answers
    "tripped" or a poll that answers "not tripped" followed by the
    successful [put]. *)
Fixpoint protocol (tr : list dev) : bool :=
  match tr with
  | [Polled _ true] => true
  | [Polled _ false; Enqueued] => true
  | Polled _ false :: TimedOut :: tr' => protocol tr'
  | _ => false
  end.

Definition is_enqueued (d : dev) : bool :=
  match d with Enqueued => true | _ => false end.

Definition enqueues (tr : list dev) : nat :=
  List.length (filter is_enqueued tr).

(** Every [put] that succeeded directly follows a poll made while the
    shared event was not set. *)
Fixpoint enqueued_untripped (tr : list dev) : bool :=
  match tr with
  | [] => true
  | Polled set _ :: Enqueued :: tr' => negb set && enqueued_untripped tr'
  | Enqueued :: _ => false
  | _ :: tr' => enqueued_untripped tr'
  end.

(** *** The process entry points *)

(** What a process does that its surroundings can observe. *)
Inductive pev : Type :=
| OnAcquisitionProcessSetup
| AcquireWork
| DoneSet
| OnAcquisitionProcessComplete
| OnWorkProcessSetup
| NewRateLimiter
| NewExecutor
| BreakerPolled (answer : bool)
| QueueGet
| ExecutorSubmit (item : Item)
| DoneIsSet (answer : bool)
| ExecutorShutdown
| OnWorkProcessComplete
| BreakerTrip (reason : string)
| LogError
| LogException.

Definition reason_acquisition : string :=
  "_acquisition_process_entry(): Tripping breaker due to exception and re-raising".

Definition reason_work : string :=
  "_work_process_entry(): Caught exception.  Tripping breaker and re-raising.".

(** A cleanup call inside its own [try] / [except BaseException]: the
    exception is logged and goes no further. *)
Definition guarded (call : pev) (result : outcome unit) : list pev :=
  match result with
  | Return _ => [call]
  | Raise _ => [call; LogException]
  end.

(** The hooks of the acquisition process, as results of their calls.
    [acquire_work] covers the calls of [_distribute_work] made inside it,
    so it may raise [BreakerTrippingException]. *)
Record acquisition_hooks : Type := mkAcquisitionHooks {
  _on_acquisition_process_setup : outcome unit;
  _acquire_work : outcome unit;
  _on_acquisition_process_complete : outcome unit
}.

(** The [try] block of [_acquisition_process_entry]: the result, whether
    [self._done.set()] was reached, and the calls made. *)
Definition acquisition_body (h : acquisition_hooks)
  : outcome unit * bool * list pev :=
  match _on_acquisition_process_setup h with
  | Raise e => (Raise e, false, [OnAcquisitionProcessSetup])
  | Return _ =>
      match _acquire_work h with
      | Raise e => (Raise e, false, [OnAcquisitionProcessSetup; AcquireWork])
      | Return _ =>
          (Return tt, true, [OnAcquisitionProcessSetup; AcquireWork; DoneSet])
      end
  end.

(** [_acquisition_process_entry()]: how the process ends (the re-raised
    exception, if any), the breaker, the done flag, the calls made. *)
Definition _acquisition_process_entry (h : acquisition_hooks) (b : breaker)
  : outcome unit * breaker * bool * list pev :=
  let '(r, d, tr) := acquisition_body h in
  let cleanup :=
    guarded OnAcquisitionProcessComplete (_on_acquisition_process_complete h)
  in
  match r with
  | Return _ => (Return tt, b, d, tr ++ cleanup)
  | Raise BreakerTrippingException =>
      (Return tt, b, d, tr ++ [LogError] ++ cleanup)
  | Raise e =>
      (Raise e, Breaker.trip b reason_acquisition, d,
       tr ++ [LogException; BreakerTrip reason_acquisition] ++ cleanup)
  end.

(** The hooks of a work process, and the result of
    [executor.shutdown()]. *)
Record work_hooks : Type := mkWorkHooks {
  _on_work_process_setup : outcome unit;
  executor_shutdown : outcome unit;
  _on_work_process_complete : outcome unit
}.

(** What the rest of the system does around one pass of the loop of a work
    process: the [trip] calls of other processes completed before the
    poll, the clock readings of [is_tripped], the result of
    [self._queue.get(timeout=1)] ([Raise QueueEmpty] for a timeout), of
    [executor.submit], and of [self._done.is_set()]. *)
Record wtick : Type := mkWtick {
  w_others : list string;
  w_t1 : Q;
  w_t2 : Q;
  w_get : outcome Item;
  w_submit : outcome unit;
  w_done : bool
}.

(** The [while True] loop: [Return] for a [break], [Raise] for an exception
    that leaves the loop, [None] when the loop is still running after the
    last tick. *)
Fixpoint work_loop (b : breaker) (ticks : list wtick)
  : option (outcome unit * breaker * list pev) :=
  match ticks with
  | [] => None
  | k :: ticks' =>
      let b0 := others_trip b (w_others k) in
      let (tripped, b1) := Breaker.is_tripped b0 None (w_t1 k) (w_t2 k) in
      if tripped then Some (Return tt, b1, [BreakerPolled true; LogError])
      else
        let continue (evs : list pev) :=
          match work_loop b1 ticks' with
          | Some (r, b2, tr) => Some (r, b2, BreakerPolled false :: evs ++ tr)
          | None => None
          end in
        match w_get k with
        | Return item =>
            match w_submit k with
            | Return _ => continue [QueueGet; ExecutorSubmit item]
            | Raise QueueEmpty =>
                if w_done k then
                  Some (Return tt, b1,
                        [BreakerPolled false; QueueGet; ExecutorSubmit item;
                         DoneIsSet true])
                else continue [QueueGet; ExecutorSubmit item; DoneIsSet false]
            | Raise e =>
                Some (Raise e, b1,
                      [BreakerPolled false; QueueGet; ExecutorSubmit item])
            end
        | Raise QueueEmpty =>
            if w_done k then
              Some (Return tt, b1,
                    [BreakerPolled false; QueueGet; DoneIsSet true])
            else continue [QueueGet; DoneIsSet false]
        | Raise e => Some (Raise e, b1, [BreakerPolled false; QueueGet])
        end
  end.

(** The outer [try] block of [_work_process_entry]: the result, whether
    [executor] was bound, the breaker, the calls made. *)
Definition work_body (h : work_hooks) (process_rate : Q) (max_threads : Z)
  (b : breaker) (ticks : list wtick)
  : option (outcome unit * bool * breaker * list pev) :=
  match _on_work_process_setup h with
  | Raise e => Some (Raise e, false, b, [OnWorkProcessSetup])
  | Return _ =>
      match RateLimiter.__init__ process_rate 5 with
      | Raise e => Some (Raise e, false, b, [OnWorkProcessSetup; NewRateLimiter])
      | Return _ =>
          match BoundedExecutor.__init__ Item max_threads max_threads with
          | Raise e =>
              Some (Raise e, false, b,
                    [OnWorkProcessSetup; NewRateLimiter; NewExecutor])
          | Return _ =>
              match work_loop b ticks with
              | Some (r, b', tr) =>
                  Some (r, true, b',
                        [OnWorkProcessSetup; NewRateLimiter; NewExecutor]
                        ++ tr)
              | None => None
              end
          end
      end
  end.

(** The [finally] block of [_work_process_entry]. *)
Definition work_cleanup (h : work_hooks) (have_executor : bool) : list pev :=
  (if have_executor then guarded ExecutorShutdown (executor_shutdown h)
   else [])
  ++ guarded OnWorkProcessComplete (_on_work_process_complete h).

(** [_work_process_entry()]. *)
Definition _work_process_entry (h : work_hooks) (process_rate : Q)
  (max_threads : Z) (b : breaker) (ticks : list wtick)
  : option (outcome unit * breaker * list pev) :=
  match work_body h process_rate max_threads b ticks with
  | None => None
  | Some (Return _, ex, b', tr) =>
      Some (Return tt, b', tr ++ work_cleanup h ex)
  | Some (Raise e, ex, b', tr) =>
      Some (Raise e, Breaker.trip b' reason_work,
            tr ++ [LogException; BreakerTrip reason_work]
               ++ work_cleanup h ex)
  end.

Definition pev_is_shutdown (e : pev) : bool :=
  match e with ExecutorShutdown => true | _ => false end.

Definition pev_is_work_complete (e : pev) : bool :=
  match e with OnWorkProcessComplete => true | _ => false end.

Definition pev_is_acquisition_complete (e : pev) : bool :=
  match e with OnAcquisitionProcessComplete => true | _ => false end.

Definition occurrences (f : pev -> bool) (tr : list pev) : nat :=
  List.length (filter f tr).

(** Every event satisfying [f] comes before every event satisfying [g]. *)
Fixpoint all_before (f g : pev -> bool) (tr : list pev) : bool :=
  match tr with
  | [] => true
  | e :: tr' =>
      (if g e then forallb (fun x => negb (f x)) tr' else true)
      && all_before f g tr'
  end.

(** No event of the trace is a cleanup call of a work process. *)
Definition quiet (tr : list pev) : Prop :=
  Forall (fun e => pev_is_shutdown e = false /\
                   pev_is_work_complete e = false) tr.

(** Whether the outer [try] block gets as far as binding [executor]. *)
Definition executor_bound (h : work_hooks) (process_rate : Q)
  (max_threads : Z) : bool :=
  match _on_work_process_setup h with
  | Raise _ => false
  | Return _ =>
      match RateLimiter.__init__ process_rate 5 with
      | Raise _ => false
      | Return _ =>
          match BoundedExecutor.__init__ Item max_threads max_threads with
          | Raise _ => false
          | Return _ => true
          end
      end
  end.

(** A tick on which the loop of a work process ends, whatever the breaker
    it starts from: a [get] or [submit] that raises something other than
    [queue.Empty], or [queue.Empty] with the done flag set. *)
Definition wtick_leaves (k : wtick) : bool :=
  match w_get k with
  | Return _ =>
      match w_submit k with
      | Return _ => false
      | Raise QueueEmpty => w_done k
      | Raise _ => true
      end
  | Raise QueueEmpty => w_done k
  | Raise _ => true
  end.

(** *** run *)

Record config : Type := mkConfig {
  _configured : bool;                    (* hasattr(self, '_configured') *)
  _work_processes : Z;
  _max_threads_per_work_process : Z;
  _queue_maxsize : Z;
  _rate : Z
}.

(** [__init__(work_processes=1, max_threads_per_work_process=1024,
    queue_maxsize=1024, rate=10)]. *)
Definition __init__ (p m q r : Z) : config := mkConfig true p m q r.

(** What happens between the start of [run] and its last statement: the
    clock reading when the breaker is built, the complete [trip] calls of
    the child processes in the order their [put] reached the reason queue
    (all children have exited when the last [join] returns), the clock
    readings of the parent's [is_tripped], and whether every [join]
    returns.  A child that has put items on a [multiprocessing.Queue] does
    not exit before its feeder thread has written them to the pipe; when
    the consumers are gone and the pipe is full that is never, and the
    [join] of that child blocks for ever. *)
Record world : Type := mkWorld {
  built : Q;
  child_trips : list string;
  poll1 : Q;
  poll2 : Q;
  joined : bool
}.

Inductive rev : Type :=
| ProcessStart (i : nat)
| ProcessJoin (i : nat)
| ParentPolled (answer : bool).

(** The number of [Process] objects: one for acquisition and
    [range(self._work_processes)] for work. *)
Definition process_count (c : config) : nat :=
  S (Z.to_nat (_work_processes c)).

(** [float(n)] for an [int] [n]: [OverflowError] from [2**1024 - 2**970]
    on, the first integer that rounds beyond the largest double.  Below it
    the result is the integer; its rounding to 53 bits is not modelled. *)
Definition float (n : Z) : outcome Q :=
  if (Z.abs n <? 2 ^ 1024 - 2 ^ 970)%Z then Return (inject_Z n)
  else Raise OverflowError.

(** [float(self._rate) / float(self._work_processes)], the operands from
    left to right, then the division. *)
Definition _process_rate (c : config) : outcome Q :=
  match float (_rate c) with
  | Raise e => Raise e
  | Return r =>
      match float (_work_processes c) with
      | Raise e => Raise e
      | Return p =>
          if Qeq_bool p 0 then Raise ZeroDivisionError else Return (r / p)
      end
  end.

(** [Queue(maxsize=n)]: a [maxsize <= 0] stands for the largest value of a
    semaphore; the semaphore behind the queue takes a C [int], and
    [OverflowError] is raised from [2**31] on. *)
Definition Queue (maxsize : Z) : outcome unit :=
  if (maxsize <? 2 ^ 31)%Z then Return tt else Raise OverflowError.

(** [run()]; [None] when a [join] never returns.  The [consume_reason] of
    the last statement finds the reason delivered: the process that
    published it has exited, which it does only after its feeder thread
    has written the reason to the pipe. *)
Definition run (c : config) (w : world) : option (outcome unit * list rev) :=
  if negb (_configured c) then Some (Raise UnconfiguredException, [])
  else
    match _process_rate c with
    | Raise e => Some (Raise e, [])
    | Return _ =>
        match Queue (_queue_maxsize c) with
        | Raise e => Some (Raise e, [])
        | Return _ =>
            let b := Breaker.__init__ string default_granularity (built w) in
            let n := process_count c in
            let started :=
              map ProcessStart (seq 0 n) ++ map ProcessJoin (seq 0 n) in
            if negb (joined w) then None
            else
              let b' := others_trip b (child_trips w) in
              let (tripped, b'') :=
                Breaker.is_tripped b' None (poll1 w) (poll2 w) in
              let tr := started ++ [ParentPolled tripped] in
              if tripped then
                match fst (Breaker.consume_reason b'' true) with
                | Return r => Some (Raise (BreakerTrippedException r), tr)
                | Raise e => Some (Raise e, tr)
                end
              else Some (Return tt, tr)
        end
    end.

(** The state of the shared breaker when the last [join] has returned. *)
Definition breaker_after_join (w : world) : breaker :=
  others_trip (Breaker.__init__ string default_granularity (built w))
              (child_trips w).

End WithItem.

Arguments OnAcquisitionProcessSetup {Item}.
Arguments AcquireWork {Item}.
Arguments DoneSet {Item}.
Arguments OnAcquisitionProcessComplete {Item}.
Arguments OnWorkProcessSetup {Item}.
Arguments NewRateLimiter {Item}.
Arguments NewExecutor {Item}.
Arguments BreakerPolled {Item} answer.
Arguments QueueGet {Item}.
Arguments DoneIsSet {Item} answer.
Arguments ExecutorShutdown {Item}.
Arguments OnWorkProcessComplete {Item}.
Arguments BreakerTrip {Item} reason.
Arguments LogError {Item}.
Arguments LogException {Item}.
End WorkQueue.

(** ** Further code of the package *)

(** *** multiprocessing_breaker.py: the state after a trace *)

Module BreakerTrace.
Section WithReason.
Variable R : Type.

(** The breaker after the calls of a trace, as [Breaker.polls] runs them. *)
Definition exec (st : Breaker.state R) (ops : list (Breaker.op R))
  : Breaker.state R :=
  fold_left (fun s o => fst (Breaker.step s o)) ops st.

(** The reason queue respects [maxsize=1]. *)
Definition within_capacity (st : Breaker.state R) : Prop :=
  (List.length (Breaker._reason (fst st)) <= 1)%nat.

(** The shared event is set, the granularity is the one of [st0], and the
    process either has seen the event or has not refreshed since [st0]. *)
Definition pending_refresh (st0 st : Breaker.state R) : Prop :=
  Breaker._event (fst st) = true /\
  Breaker._granularity (snd st) = Breaker._granularity (snd st0) /\
  (Breaker.latched st \/ Breaker._checked (snd st) = Breaker._checked (snd st0)).

End WithReason.
End BreakerTrace.

(** *** threading_bounded_executor.py: shutdown(wait=True) *)

Module ExecutorShutdown.
Section WithTask.
Variable T : Type.

(** The pool threads after [executor.shutdown(wait=True)]: they finish the
    task they run and keep taking queued tasks until none is left; every
    task that completes runs its done-callback. *)
Fixpoint drain (fuel : nat) (s : BoundedExecutor.state T)
  : BoundedExecutor.state T :=
  match fuel with
  | O => s
  | S n =>
      match BoundedExecutor.pool_finish s 0 with
      | Some s' => drain n s'
      | None =>
          match BoundedExecutor.pool_start s with
          | Some s' => drain n s'
          | None => s
          end
      end
  end.

(** [shutdown(wait=True)]: the flag is set, and the call returns when the
    pool has run every task it had accepted. *)
Definition shutdown_wait (s : BoundedExecutor.state T)
  : BoundedExecutor.state T :=
  drain (2 * List.length (BoundedExecutor.queued s)
         + List.length (BoundedExecutor.running s))
        (BoundedExecutor.shutdown s).

(** A sequence of [submit] calls by one thread, each run to its end;
    [None] when one of them blocks.  The results are in call order. *)
Fixpoint submits (s : BoundedExecutor.state T) (ts : list T)
  : option (list (outcome unit) * BoundedExecutor.state T) :=
  match ts with
  | [] => Some ([], s)
  | t :: ts' =>
      match BoundedExecutor.submit s t with
      | None => None
      | Some (r, s') =>
          match submits s' ts' with
          | Some (rs, s'') => Some (r :: rs, s'')
          | None => None
          end
      end
  end.

End WithTask.
End ExecutorShutdown.

(** *** threading_accumulator.py: mixed calls and the two locks *)

Module AccumulatorCalls.
Section WithItem.
Variable A : Type.

Inductive call : Type :=
| Add (thing : A)
| Flush.

(** A sequence of [add] and [flush] calls by one thread. *)
Fixpoint calls (s : Accumulator.state A) (cs : list call)
  : Accumulator.state A * list (Accumulator.event A) :=
  match cs with
  | [] => (s, [])
  | c :: cs' =>
      let (s1, e1) :=
        match c with
        | Add x => Accumulator.add s x
        | Flush => Accumulator.flush s
        end in
      let (s2, e2) := calls s1 cs' in
      (s2, e1 ++ e2)
  end.

(** The things added by a sequence of calls. *)
Fixpoint things (cs : list call) : list A :=
  match cs with
  | [] => []
  | Add x :: cs' => x :: things cs'
  | Flush :: cs' => things cs'
  end.

(** How the two [threading.Lock] objects are used along a trace of one
    thread; [list_held] and [process_held] say which ones the thread holds.
    A lock is taken only when the thread holds neither (a [Lock] is not
    re-entrant, and no lock is taken inside the other), released only when
    held, the process lock is used in serial mode only, [_on_process] runs
    without the list lock and with the process lock exactly in serial mode,
    and nothing is held at the end. *)
Fixpoint lock_discipline (ser list_held process_held : bool)
  (evs : list (Accumulator.event A)) : bool :=
  match evs with
  | [] => negb list_held && negb process_held
  | Accumulator.AcquireListLock :: evs' =>
      negb list_held && negb process_held
      && lock_discipline ser true process_held evs'
  | Accumulator.ReleaseListLock :: evs' =>
      list_held && lock_discipline ser false process_held evs'
  | Accumulator.AcquireProcessLock :: evs' =>
      ser && negb list_held && negb process_held
      && lock_discipline ser list_held true evs'
  | Accumulator.ReleaseProcessLock :: evs' =>
      process_held && lock_discipline ser list_held false evs'
  | Accumulator.OnProcess _ :: evs' =>
      negb list_held && Bool.eqb process_held ser
      && lock_discipline ser list_held process_held evs'
  end.

End WithItem.

Arguments Flush {A}.
End AccumulatorCalls.

(** *** multiprocessing_threading_work_queue.py: the thread entry point,
    a producer loop *)

Module WorkThread.
Section WithItem.
Variable Item : Type.

Local Open Scope Q_scope.

Inductive tev : Type :=
| ThreadPolled (answer : bool)
| RateLimiterWait
| OnWork (item : Item)
| ThreadLogError
| ThreadLogException
| ThreadTrip (reason : string).

Definition reason_thread : string :=
  "_work_thread_entry(): Tripping breaker due to _on_work() exception.".

(** [_work_thread_entry] runs in the threads of the pool, which share the
    breaker of their process with one another and with the main thread:
    its calls of the breaker are calls of one thread among the others, as
    [BreakerThreads] describes them. *)

(** A call of the breaker by thread [me]. *)
Definition calls (me : nat) (a : BreakerThreads.action string) : bool :=
  match a with
  | BreakerThreads.Call i _ => Nat.eqb i me
  | BreakerThreads.CallTrip i _ => Nat.eqb i me
  | _ => false
  end.

(** [self._breaker.is_tripped()] called by thread [me], and the schedule
    of the process from this call to the next call of the breaker by
    [me]: the statements of the call, those of the other threads, what the
    other processes do.  [None] when this is not the schedule of such a
    call: [me] is inside a call already, calls again, or has not returned
    when the schedule ends. *)
Definition is_tripped_by (me : nat) (p : BreakerThreads.process string)
  (sched : list (BreakerThreads.action string))
  : option (bool * BreakerThreads.process string) :=
  match BreakerThreads.threads p me with
  | BreakerThreads.Idle =>
      if existsb (calls me) sched then None
      else
        let (p', rs) :=
          BreakerThreads.run p (BreakerThreads.Call me None :: sched) in
        match filter (fun x => Nat.eqb (fst x) me) rs with
        | [(_, v)] => Some (v, p')
        | _ => None
        end
  | _ => None
  end.

(** [self._breaker.trip(r)] called by thread [me], and the schedule from
    this call on; [None] as for [is_tripped_by]. *)
Definition trip_by (me : nat) (p : BreakerThreads.process string)
  (r : string) (sched : list (BreakerThreads.action string))
  : option (BreakerThreads.process string) :=
  match BreakerThreads.threads p me with
  | BreakerThreads.Idle =>
      if existsb (calls me) sched then None
      else
        let p' :=
          fst (BreakerThreads.run p
                 (BreakerThreads.CallTrip me r :: sched)) in
        match BreakerThreads.threads p' me with
        | BreakerThreads.Idle => Some p'
        | _ => None
        end
  | _ => None
  end.

(** What surrounds one call of [_work_thread_entry]: the schedule of the
    first [is_tripped], the clock reading taken inside
    [self._rate_limiter.wait()], the schedule of the second
    [is_tripped], how [self._on_work(item)] ends, and the schedule of the
    [trip]. *)
Record thread_world : Type := mkThreadWorld {
  th_poll1 : list (BreakerThreads.action string);
  th_entry : Q;
  th_poll2 : list (BreakerThreads.action string);
  th_on_work : outcome unit;
  th_trip : list (BreakerThreads.action string)
}.

(** The [try] block of [_work_thread_entry], run by thread [me]: [Return]
    for its two [return] statements and for its normal end. *)
Definition work_thread_body (me : nat) (p : BreakerThreads.process string)
  (rl : RateLimiter.state) (item : Item) (w : thread_world)
  : option (outcome unit * BreakerThreads.process string
            * RateLimiter.state * list tev) :=
  match is_tripped_by me p (th_poll1 w) with
  | None => None
  | Some (true, p1) =>
      Some (Return tt, p1, rl, [ThreadPolled true; ThreadLogError])
  | Some (false, p1) =>
      match RateLimiter.wait rl (th_entry w) with
      | Raise e => Some (Raise e, p1, rl, [ThreadPolled false; RateLimiterWait])
      | Return (rl', _) =>
          match is_tripped_by me p1 (th_poll2 w) with
          | None => None
          | Some (true, p2) =>
              Some (Return tt, p2, rl',
                    [ThreadPolled false; RateLimiterWait; ThreadPolled true;
                     ThreadLogError])
          | Some (false, p2) =>
              Some (th_on_work w, p2, rl',
                    [ThreadPolled false; RateLimiterWait; ThreadPolled false;
                     OnWork item])
          end
      end
  end.

(** [_work_thread_entry(item)]: [except BaseException] logs, trips the
    breaker and does not re-raise. *)
Definition _work_thread_entry (me : nat) (p : BreakerThreads.process string)
  (rl : RateLimiter.state) (item : Item) (w : thread_world)
  : option (BreakerThreads.process string * RateLimiter.state * list tev) :=
  match work_thread_body me p rl item w with
  | None => None
  | Some (Return _, p', rl', tr) => Some (p', rl', tr)
  | Some (Raise _, p', rl', tr) =>
      match trip_by me p' reason_thread (th_trip w) with
      | Some p'' =>
          Some (p'', rl', tr ++ [ThreadLogException; ThreadTrip reason_thread])
      | None => None
      end
  end.

(** An action that puts a reason into the slot or takes one out of it. *)
Definition touches_reason (a : BreakerThreads.action string) : bool :=
  match a with
  | BreakerThreads.OtherPut _ => true
  | BreakerThreads.CallTrip _ _ => true
  | BreakerThreads.OtherGet => true
  | _ => false
  end.

(** Nobody has published a reason, and no thread of the process is about
    to. *)
Definition unpublished (p : BreakerThreads.process string) : Prop :=
  Breaker._reason (BreakerThreads.objects p) = [] /\
  forall j r, BreakerThreads.threads p j <> BreakerThreads.Putting r.

(** Thread [me] is in a [trip(r)] that found, or will find, the slot
    empty, or has returned from it; no other thread is about to publish. *)
Definition tripping (me : nat) (r : string)
  (p : BreakerThreads.process string) : Prop :=
  (forall j r', j <> me ->
                BreakerThreads.threads p j <> BreakerThreads.Putting r') /\
  match BreakerThreads.threads p me with
  | BreakerThreads.Putting r' =>
      r' = r /\ Breaker._reason (BreakerThreads.objects p) = []
  | BreakerThreads.Setting =>
      Breaker._reason (BreakerThreads.objects p) = [r]
  | BreakerThreads.Caching | BreakerThreads.Idle =>
      Breaker._reason (BreakerThreads.objects p) = [r] /\
      Breaker._event (BreakerThreads.objects p) = true
  | _ => False
  end.

Definition tev_is_on_work (e : tev) : bool :=
  match e with OnWork _ => true | _ => false end.

Definition tev_is_wait (e : tev) : bool :=
  match e with RateLimiterWait => true | _ => false end.

(** The producer loop of a subclass,
    [for item in ...: self._distribute_work(item)]: each item with the
    ticks its call lives through; the loop ends with the first call that
    raises. *)
Fixpoint _acquire_work (p : WorkQueue.pipeline Item)
  (jobs : list (Item * list WorkQueue.tick))
  : option (outcome unit * WorkQueue.pipeline Item * list WorkQueue.dev) :=
  match jobs with
  | [] => Some (Return tt, p, [])
  | (item, ticks) :: jobs' =>
      match WorkQueue._distribute_work p item ticks with
      | None => None
      | Some (Raise e, p', tr) => Some (Raise e, p', tr)
      | Some (Return _, p', tr) =>
          match _acquire_work p' jobs' with
          | Some (r, p'', tr') => Some (r, p'', tr ++ tr')
          | None => None
          end
      end
  end.

(** The items handed to [executor.submit] along a trace of a work
    process, in call order. *)
Fixpoint submitted (tr : list (WorkQueue.pev Item)) : list Item :=
  match tr with
  | [] => []
  | WorkQueue.ExecutorSubmit item :: tr' => item :: submitted tr'
  | _ :: tr' => submitted tr'
  end.

(** The items that [self._queue.get] returns on a list of ticks. *)
Fixpoint got (ticks : list (WorkQueue.wtick Item)) : list Item :=
  match ticks with
  | [] => []
  | k :: ticks' =>
      match WorkQueue.w_get k with
      | Return item => item :: got ticks'
      | Raise _ => got ticks'
      end
  end.

Definition pev_is_get (e : WorkQueue.pev Item) : bool :=
  match e with WorkQueue.QueueGet => true | _ => false end.

(** The number of calls of [self._queue.get] along a trace. *)
Definition gets (tr : list (WorkQueue.pev Item)) : nat :=
  List.length (filter pev_is_get tr).

(** The events that the [while True] loop of a work process produces. *)
Definition loop_event (e : WorkQueue.pev Item) : bool :=
  match e with
  | WorkQueue.BreakerPolled _ | WorkQueue.QueueGet
  | WorkQueue.ExecutorSubmit _ | WorkQueue.DoneIsSet _
  | WorkQueue.LogError => true
  | _ => false
  end.

End WithItem.

Arguments RateLimiterWait {Item}.
Arguments ThreadPolled {Item} answer.
Arguments ThreadLogError {Item}.
Arguments ThreadLogException {Item}.
Arguments ThreadTrip {Item} reason.
End WorkThread.

(** *** threading_success_tracker.py *)

Module SuccessTracker.
Local Open Scope Q_scope.

Record state : Type := mkState {
  track_success : Z;
  track_total : Z;
  track_begin : Q;
  success_rate : Q;
  check_seconds : Q
}.

(** [__init__(success_rate=0.95, check_seconds=30)]. *)
Definition __init__ (rate seconds : Q) : state := mkState 0 0 0 rate seconds.

(** [track(success)]; [now] is the reading of [time.monotonic()].  The
    counters are incremented first; the division
    [self.track_success / self.track_total] raises [ZeroDivisionError] on a
    zero total, after [track_begin] was reset.  The quotient is the exact
    rational, not its rounding to a float. *)
Definition track (s : state) (success : bool) (now : Q)
  : outcome bool * state :=
  let ts := (if success then track_success s + 1 else track_success s)%Z in
  let tt := (track_total s + 1)%Z in
  if Qeq_bool (track_begin s) 0 then
    (Return true, mkState ts tt now (success_rate s) (check_seconds s))
  else if RateLimiter.Qlt_bool (now - track_begin s) (check_seconds s) then
    (Return true,
     mkState ts tt (track_begin s) (success_rate s) (check_seconds s))
  else if (tt =? 0)%Z then
    (Raise ZeroDivisionError,
     mkState ts tt now (success_rate s) (check_seconds s))
  else
    (Return (negb (RateLimiter.Qlt_bool (inject_Z ts / inject_Z tt)
                                        (success_rate s))),
     mkState 0 0 now (success_rate s) (check_seconds s)).

(** A sequence of [track] calls: the results, and the final state. *)
Fixpoint tracks (s : state) (evs : list (bool * Q))
  : list (outcome bool) * state :=
  match evs with
  | [] => ([], s)
  | (success, now) :: evs' =>
      let (r, s1) := track s success now in
      let (rs, s2) := tracks s1 evs' in
      (r :: rs, s2)
  end.

(** The counters count: successes are among the events tracked. *)
Definition counted (s : state) : Prop :=
  (0 <= track_success s <= track_total s)%Z.

(** The number of successes among a list of events. *)
Definition successes (evs : list (bool * Q)) : nat :=
  List.length (filter fst evs).

End SuccessTracker.

(** *** multiprocessing_file_collector.py *)

Module FileCollector.

(** The queue and the event; the file path, mode and encoding only reach
    [open]. *)
Record state : Type := mkState {
  _queue : list string;
  _queue_maxsize : Z;
  _event : bool
}.

(** [__init__(filePath, queue_maxsize=512, ...)]. *)
Definition __init__ (queue_maxsize : Z) : state := mkState [] queue_maxsize false.

(** [collect(item)]: [self._queue.put(item)] without a timeout; [None] when
    the queue is full and the caller blocks. *)
Definition collect (s : state) (item : string) : option state :=
  if WorkQueue.has_room (_queue_maxsize s) (_queue s)
  then Some (mkState (_queue s ++ [item]) (_queue_maxsize s) (_event s))
  else None.

(** A sequence of [collect] calls of one process; [None] when one of them
    blocks. *)
Fixpoint collects (s : state) (items : list string) : option state :=
  match items with
  | [] => Some s
  | item :: items' =>
      match collect s item with
      | Some s' => collects s' items'
      | None => None
      end
  end.

(** [stop()]. *)
Definition stop (s : state) : state :=
  mkState (_queue s) (_queue_maxsize s) true.

(** The file object [f]: what was written through it, and whether
    [f.close()] was called. *)
Record file : Type := mkFile {
  written : list string;
  closed : bool
}.

(** What happens around one pass of the loop of the writer thread: the
    items whose [collect] completed before [get] returned, whether [stop()]
    had been called by the time the event is read, and how [f.write(item)]
    ends. *)
Record tick : Type := mkTick {
  arrivals : list string;
  stopped : bool;
  write_result : outcome unit
}.

(** The [while True] loop of [_work_thread_entry]: [Return] for the
    [break], [Raise] for an exception of [f.write], [None] when the loop is
    still running after the last tick.  The [except queue.Empty] clause
    covers [f.write(item)] as well as [get]. *)
Fixpoint writer_loop (s : state) (f : file) (ticks : list tick)
  : option (outcome unit * state * file) :=
  match ticks with
  | [] => None
  | k :: ticks' =>
      let ev := _event s || stopped k in
      match _queue s ++ arrivals k with
      | item :: q' =>
          let s' := mkState q' (_queue_maxsize s) ev in
          match write_result k with
          | Return _ =>
              writer_loop s' (mkFile (written f ++ [item]) (closed f)) ticks'
          | Raise QueueEmpty =>
              if ev then Some (Return tt, s', f) else writer_loop s' f ticks'
          | Raise e => Some (Raise e, s', f)
          end
      | [] =>
          let s' := mkState [] (_queue_maxsize s) ev in
          if ev then Some (Return tt, s', f) else writer_loop s' f ticks'
      end
  end.

(** [_work_thread_entry()]: [open], the loop, [f.close()].  The close is
    reached only when the loop ends by its [break]. *)
Definition _work_thread_entry (s : state) (open_result : outcome unit)
  (ticks : list tick) : option (outcome unit * state * file) :=
  match open_result with
  | Raise e => Some (Raise e, s, mkFile [] false)
  | Return _ =>
      match writer_loop s (mkFile [] false) ticks with
      | Some (Return _, s', f) => Some (Return tt, s', mkFile (written f) true)
      | Some (Raise e, s', f) => Some (Raise e, s', f)
      | None => None
      end
  end.

(** The items that arrived during the first [n] ticks. *)
Definition arrived (n : nat) (ticks : list tick) : list string :=
  concat (map arrivals (firstn n ticks)).

End FileCollector.

(** * Properties *)

(** ** The breaker *)

Module BreakerFacts.
Import Breaker.

Section Facts.
Variable R : Type.
Implicit Types (st : state R) (r : R) (o : op R).

Local Open Scope Q_scope.

Lemma refresh_due_true (lo : local) (g : option Q) (t : Q) :
  refresh_due lo g t = true <->
  use_granularity lo g <= 0 \/ use_granularity lo g <= t - _checked lo.
Proof.
  unfold refresh_due. rewrite orb_true_iff, !Qle_bool_iff. tauto.
Qed.

Lemma refresh_due_false (lo : local) (g : option Q) (t : Q) :
  refresh_due lo g t = false <->
  0 < use_granularity lo g /\ t - _checked lo < use_granularity lo g.
Proof.
  rewrite <- not_true_iff_false, refresh_due_true.
  split.
  - intros H. split; apply Qnot_le_lt; intro; apply H; auto.
  - intros [H1 H2] [H | H].
    + apply (Qlt_not_le _ _ H1 H).
    + apply (Qlt_not_le _ _ H2 H).
Qed.

(** Both components of the state after a [trip], by the state of the
    reason slot. *)
Lemma trip_empty st r :
  _reason (fst st) = [] ->
  trip st r = (mkShared true [r],
               mkLocal true (_checked (snd st)) (_granularity (snd st))).
Proof.
  intros H. unfold trip, trip_put, BoundedQueue.put_nowait. rewrite H.
  reflexivity.
Qed.

Lemma trip_filled st r : _reason (fst st) <> [] -> trip st r = st.
Proof.
  intros H. unfold trip, trip_put, BoundedQueue.put_nowait.
  destruct (_reason (fst st)) as [|x q]; [congruence|]. reflexivity.
Qed.

(** The head of the reason queue survives every further [trip]. *)
Lemma trips_filled (rs : list R) st :
  _reason (fst st) <> [] -> trips st rs = st.
Proof.
  revert st. induction rs as [|r rs IH]; intros st H; [reflexivity|].
  unfold trips in *. simpl. rewrite (trip_filled st r H). now apply IH.
Qed.

Lemma consume_empty st (d : bool) :
  fst (consume_reason st d) = Raise QueueEmpty
  <-> _reason (fst st) = [] \/ d = false.
Proof.
  unfold consume_reason, BoundedQueue.get_nowait.
  destruct (_reason (fst st)), d; simpl; split; intros H;
    try discriminate; auto; destruct H; congruence.
Qed.

(** A [consume_reason] that raises leaves the breaker as it is. *)
Lemma consume_raises_keeps st (d : bool) (e : exn) :
  fst (consume_reason st d) = Raise e -> snd (consume_reason st d) = st.
Proof.
  unfold consume_reason, BoundedQueue.get_nowait.
  destruct (_reason (fst st)), d; simpl; intros H;
    try discriminate; reflexivity.
Qed.

(** *** Invariants of traces *)

Lemma step_cache_sound st o :
  cache_sound st -> cache_sound (fst (step st o)).
Proof.
  unfold cache_sound. destruct st as [sh lo].
  destruct o as [r|g t1 t2|d|r| |]; simpl.
  - unfold trip, trip_put. simpl.
    destruct (BoundedQueue.put_nowait 1 (_reason sh) r); simpl; auto.
  - destruct (refresh_due lo g t1); simpl; auto.
  - unfold consume_reason. simpl.
    destruct (BoundedQueue.get_nowait (_reason sh) d) as [[? ?]|];
      simpl; auto.
  - unfold env_put, trip_put. simpl.
    destruct (BoundedQueue.put_nowait 1 (_reason sh) r); simpl; auto.
  - auto.
  - unfold env_get. simpl.
    destruct (BoundedQueue.get_nowait (_reason sh) true) as [[? ?]|];
      simpl; auto.
Qed.

Lemma step_latched st o :
  latched st ->
  latched (fst (step st o)) /\
  forall b, snd (step st o) = Some b -> b = true.
Proof.
  unfold latched. destruct st as [sh lo]. simpl. intros [Hc He].
  destruct o as [r|g t1 t2|d|r| |]; simpl.
  - split; [|discriminate]. unfold trip, trip_put. simpl.
    destruct (BoundedQueue.put_nowait 1 (_reason sh) r); simpl; auto.
  - destruct (refresh_due lo g t1); simpl; split; auto;
      intros b Hb; injection Hb as <-; auto.
  - split; [|discriminate]. unfold consume_reason. simpl.
    destruct (BoundedQueue.get_nowait (_reason sh) d) as [[? ?]|];
      simpl; auto.
  - split; [|discriminate]. unfold env_put, trip_put. simpl.
    destruct (BoundedQueue.put_nowait 1 (_reason sh) r); simpl; auto.
  - split; [|discriminate]. auto.
  - split; [|discriminate]. unfold env_get. simpl.
    destruct (BoundedQueue.get_nowait (_reason sh) true) as [[? ?]|];
      simpl; auto.
Qed.

(** A poll that answers [True] leaves the breaker latched. *)
Lemma poll_true_latches st o :
  cache_sound st -> snd (step st o) = Some true -> latched (fst (step st o)).
Proof.
  unfold cache_sound, latched. destruct st as [sh lo]. simpl.
  destruct o as [r|g t1 t2|d|r| |]; simpl; try discriminate.
  destruct (refresh_due lo g t1); simpl; intros Hs Hb;
    injection Hb as Hb; auto.
Qed.

Lemma polls_latched (ops : list (op R)) st :
  latched st -> Forall (eq true) (polls st ops).
Proof.
  revert st. induction ops as [|o ops IH]; intros st H; simpl.
  - constructor.
  - destruct (step_latched o H) as [H1 H2].
    destruct (step st o) as [st' [b|]]; simpl in *.
    + constructor; [symmetry; now apply H2 | now apply IH].
    + now apply IH.
Qed.

Lemma polls_monotonic (ops : list (op R)) st (l1 l2 : list bool) :
  cache_sound st ->
  polls st ops = l1 ++ true :: l2 -> Forall (eq true) l2.
Proof.
  revert st l1. induction ops as [|o ops IH]; intros st l1 Hs; simpl.
  - destruct l1; discriminate.
  - pose proof (step_cache_sound o Hs) as Hs'.
    pose proof (poll_true_latches o Hs) as Hl.
    destruct (step st o) as [st' [b|]]; simpl in *.
    + destruct l1 as [|b1 l1]; simpl; intros E; injection E as E1 E2.
      * subst b. rewrite <- E2. apply polls_latched. now apply Hl.
      * now apply (IH st' l1).
    + now apply IH.
Qed.

Lemma init_cache_sound (g now : Q) : cache_sound (__init__ R g now).
Proof. unfold cache_sound. simpl. discriminate. Qed.

(** C3 (as the code has it).  [trip(reason)] always returns: the only
    exception its [put] can raise is [queue.Full], which it swallows.
    With the reason slot already filled the call changes nothing: the
    reason is dropped and neither the shared event nor the caller's cached
    flag is touched.  With the slot empty the reason is published, the
    shared event is set and the caller's cached flag becomes true.  So the
    shared event is set after the call whenever the process that filled
    the slot has already executed its [self._event.set()]. *)
Theorem C3_trip_sets_flag_only_after_publishing st r :
  (_reason (fst st) <> [] -> trip st r = st) /\
  (_reason (fst st) = [] ->
     _reason (fst (trip st r)) = [r] /\
     _event (fst (trip st r)) = true /\
     _cached (snd (trip st r)) = true) /\
  (published_set (fst st) -> _event (fst (trip st r)) = true).
Proof.
  split; [apply trip_filled|]. split.
  - intros H. rewrite (trip_empty st r H). simpl. auto.
  - unfold published_set. intros H.
    destruct (_reason (fst st)) as [|x q] eqn:E.
    + rewrite (trip_empty st r E). reflexivity.
    + rewrite trip_filled by (rewrite E; discriminate).
      apply H. discriminate.
Qed.

(** C4 (as the code has it).  After any sequence of [trip] calls on a
    fresh breaker, a [consume_reason] that finds the reason delivered
    returns the reason of the first call, the only one whose [put]
    succeeded, and every [consume_reason] after it raises.  A
    [consume_reason] that comes before the feeder thread has delivered the
    reason, as one right after the [trip] does, raises [queue.Empty]
    although a reason is published, and leaves it queued.  In any state,
    [consume_reason] raises [queue.Empty], the "not tripped" failure,
    exactly when the reason slot is empty or the reason is not yet
    delivered. *)
Theorem C4_consume_reason_first_trip_wins (g now : Q) (rs : list R) :
  let st := trips (__init__ R g now) rs in
  fst (consume_reason st true)
    = match rs with
      | [] => Raise QueueEmpty
      | r :: _ => Return r
      end /\
  (fst (consume_reason st true) = Raise QueueEmpty <-> rs = []) /\
  (forall d, fst (consume_reason (snd (consume_reason st true)) d)
             = Raise QueueEmpty) /\
  consume_reason st false = (Raise QueueEmpty, st) /\
  (forall st' d, fst (consume_reason st' d) = Raise QueueEmpty
                 <-> _reason (fst st') = [] \/ d = false).
Proof.
  assert (E : _reason (fst (trips (__init__ R g now) rs))
              = match rs with [] => [] | r :: _ => [r] end).
  { destruct rs as [|r rs]; [reflexivity|].
    unfold trips. simpl. fold (trips (trip (__init__ R g now) r) rs).
    rewrite trips_filled; simpl; [reflexivity | discriminate]. }
  cbv zeta. split; [|split; [|split; [|split]]].
  - unfold consume_reason, BoundedQueue.get_nowait. rewrite E.
    destruct rs; reflexivity.
  - rewrite consume_empty, E. destruct rs; split; intros H;
      try discriminate; auto. destruct H; discriminate.
  - intros d. apply consume_empty. left.
    unfold consume_reason, BoundedQueue.get_nowait. rewrite E.
    destruct rs; [exact E | reflexivity].
  - unfold consume_reason, BoundedQueue.get_nowait.
    destruct (_reason (fst (trips (__init__ R g now) rs))); reflexivity.
  - intros st' d. apply consume_empty.
Qed.

(** *** The threads of one process *)

Lemma move_same (i : nat) (x : BreakerThreads.pc R)
  (ts : nat -> BreakerThreads.pc R) :
  BreakerThreads.move i x ts i = x.
Proof. unfold BreakerThreads.move. rewrite Nat.eqb_refl. reflexivity. Qed.

(** A call that nothing interrupts is a call of [is_tripped]. *)
Lemma call_is_is_tripped (p : BreakerThreads.process R) (i : nat)
  (g : option Q) (t1 t2 : Q) :
  BreakerThreads.threads p i = BreakerThreads.Idle ->
  let r := BreakerThreads.run p (BreakerThreads.call i g t1 t2) in
  let a := is_tripped (BreakerThreads.objects p, BreakerThreads.attrs p)
                      g t1 t2 in
  snd r = [(i, fst a)] /\
  (BreakerThreads.objects (fst r), BreakerThreads.attrs (fst r)) = snd a /\
  BreakerThreads.threads (fst r) i = BreakerThreads.Idle.
Proof.
  intros H. destruct p as [sh lo ts]. cbn [BreakerThreads.threads] in H.
  cbv zeta. unfold is_tripped, BreakerThreads.call.
  cbn [BreakerThreads.run BreakerThreads.step BreakerThreads.threads
       BreakerThreads.objects BreakerThreads.attrs].
  rewrite H.
  cbn [BreakerThreads.run BreakerThreads.step BreakerThreads.threads
       BreakerThreads.objects BreakerThreads.attrs].
  rewrite move_same.
  destruct (refresh_due lo g t1);
    repeat (cbn [BreakerThreads.run BreakerThreads.step
                 BreakerThreads.threads BreakerThreads.objects
                 BreakerThreads.attrs fst snd];
            rewrite move_same);
    cbn [BreakerThreads.run BreakerThreads.step
                 BreakerThreads.threads BreakerThreads.objects
                 BreakerThreads.attrs fst snd _cached _checked
                 _granularity];
    rewrite ?move_same; auto.
Qed.

(** A [trip] that nothing interrupts is a call of [trip]. *)
Lemma call_trip_is_trip (p : BreakerThreads.process R) (i : nat) r :
  BreakerThreads.threads p i = BreakerThreads.Idle ->
  let q := BreakerThreads.run p (BreakerThreads.call_trip i r) in
  snd q = [] /\
  (BreakerThreads.objects (fst q), BreakerThreads.attrs (fst q))
  = trip (BreakerThreads.objects p, BreakerThreads.attrs p) r /\
  BreakerThreads.threads (fst q) i = BreakerThreads.Idle.
Proof.
  intros H. destruct p as [sh lo ts]. cbn [BreakerThreads.threads] in H.
  cbv zeta. unfold trip, BreakerThreads.call_trip.
  cbn [BreakerThreads.run BreakerThreads.step BreakerThreads.threads
       BreakerThreads.objects BreakerThreads.attrs fst snd].
  rewrite H.
  cbn [BreakerThreads.run BreakerThreads.step BreakerThreads.threads
       BreakerThreads.objects BreakerThreads.attrs].
  rewrite move_same.
  destruct (trip_put sh r) as [sh'|];
    repeat (cbn [BreakerThreads.run BreakerThreads.step
                 BreakerThreads.threads BreakerThreads.objects
                 BreakerThreads.attrs fst snd];
            rewrite move_same);
    cbn [BreakerThreads.run BreakerThreads.step
                 BreakerThreads.threads BreakerThreads.objects
                 BreakerThreads.attrs fst snd];
    rewrite ?move_same; auto.
Qed.

Lemma step_keeps_event (p : BreakerThreads.process R)
  (a : BreakerThreads.action R) :
  _event (BreakerThreads.objects p) = true ->
  _event (BreakerThreads.objects (fst (BreakerThreads.step p a))) = true.
Proof.
  intros H. destruct a as [i g|i t|r| |i r|]; cbn.
  - destruct (BreakerThreads.threads p i); exact H.
  - destruct (BreakerThreads.threads p i) as [|g| |v| | |r| |];
      try exact H; [|reflexivity].
    unfold trip_put.
    destruct (BoundedQueue.put_nowait 1
                (_reason (BreakerThreads.objects p)) r); exact H.
  - unfold env_put, trip_put. cbn.
    destruct (BoundedQueue.put_nowait 1
                (_reason (BreakerThreads.objects p)) r); exact H.
  - reflexivity.
  - destruct (BreakerThreads.threads p i); exact H.
  - unfold env_get. cbn.
    destruct (BoundedQueue.get_nowait
                (_reason (BreakerThreads.objects p)) true) as [[x q]|];
      exact H.
Qed.

Lemma step_backed (p : BreakerThreads.process R)
  (a : BreakerThreads.action R) :
  BreakerThreads.backed p ->
  BreakerThreads.backed (fst (BreakerThreads.step p a)) /\
  (forall i, snd (BreakerThreads.step p a) = Some (i, true) ->
             _event (BreakerThreads.objects p) = true).
Proof.
  intros [Hc Hs]. pose proof (@step_keeps_event p a) as K.
  unfold BreakerThreads.backed.
  assert (M : forall i x (e : bool),
             (x = BreakerThreads.Storing true \/ x = BreakerThreads.Caching ->
              e = true) ->
             (_event (BreakerThreads.objects p) = true -> e = true) ->
             forall j,
               BreakerThreads.move i x (BreakerThreads.threads p) j
               = BreakerThreads.Storing true \/
               BreakerThreads.move i x (BreakerThreads.threads p) j
               = BreakerThreads.Caching ->
               e = true).
  { intros i x e Hx He j. unfold BreakerThreads.move.
    destruct (Nat.eqb j i); [exact Hx|].
    intros V. apply He, (Hs j V). }
  destruct a as [i g|i t|r| |i r|].
  - cbn in *. destruct (BreakerThreads.threads p i) eqn:E; cbn in *;
      (split; [split|discriminate]); auto.
    apply M; [intros [V|V]; discriminate | auto].
  - cbn in *.
    destruct (BreakerThreads.threads p i) as [|g| |v| | |r| |] eqn:E;
      cbn in *.
    + split; [split|discriminate]; auto.
    + split; [split|discriminate]; auto.
      apply M; [|auto].
      destruct (refresh_due (BreakerThreads.attrs p) g t);
        intros [V|V]; discriminate.
    + split; [split|discriminate]; auto.
      apply M; [|auto]. intros [V|V]; [|discriminate].
      injection V as V. exact V.
    + split; [split|discriminate].
      * intros V. subst v. apply (Hs i). left. exact E.
      * apply M; [intros [V|V]; discriminate | auto].
    + split; [split|discriminate]; auto.
      apply M; [intros [V|V]; discriminate | auto].
    + split; [split|].
      * exact Hc.
      * apply M; [intros [V|V]; discriminate | auto].
      * intros j V. injection V as _ V. auto.
    + destruct (trip_put (BreakerThreads.objects p) r) as [sh'|];
        cbn in *; (split; [split|discriminate]); auto;
        apply M; auto; intros [V|V]; discriminate.
    + split; [split|discriminate]; auto.
    + split; [split|discriminate].
      * intros _. apply (Hs i). right. exact E.
      * apply M; [intros [V|V]; discriminate | auto].
  - cbn in *. split; [split|discriminate].
    + intros V. apply K, Hc, V.
    + intros j V. apply K, (Hs j V).
  - cbn in *. split; [split|discriminate]; auto.
  - cbn in *. destruct (BreakerThreads.threads p i) eqn:E; cbn in *;
      (split; [split|discriminate]); auto.
    apply M; [intros [V|V]; discriminate | auto].
  - cbn in *. split; [split|discriminate].
    + intros V. apply K, Hc, V.
    + intros j V. apply K, (Hs j V).
Qed.

Lemma run_backed (acts : list (BreakerThreads.action R))
  (p : BreakerThreads.process R) :
  BreakerThreads.backed p ->
  forall i, In (i, true) (snd (BreakerThreads.run p acts)) ->
            _event (BreakerThreads.objects (fst (BreakerThreads.run p acts)))
            = true.
Proof.
  assert (K : forall (acts : list (BreakerThreads.action R)) p,
             _event (BreakerThreads.objects p) = true ->
             _event (BreakerThreads.objects
                       (fst (BreakerThreads.run p acts))) = true).
  { intros l. induction l as [|a l IH]; intros q H; [exact H|].
    cbn [BreakerThreads.run].
    pose proof (@step_keeps_event q a H) as H1.
    destruct (BreakerThreads.step q a) as [q1 r].
    specialize (IH q1 H1).
    destruct (BreakerThreads.run q1 l) as [q2 rs]. exact IH. }
  revert p. induction acts as [|a acts IH]; intros p B i; [intros []|].
  cbn [BreakerThreads.run].
  destruct (step_backed a B) as [B1 T].
  specialize (IH (fst (BreakerThreads.step p a)) B1 i).
  specialize (K acts (fst (BreakerThreads.step p a))).
  pose proof (@step_keeps_event p a) as E.
  destruct (BreakerThreads.step p a) as [p1 r]. cbn [fst snd] in *.
  destruct (BreakerThreads.run p1 acts) as [p2 rs]. cbn [fst snd] in *.
  destruct r as [[j b]|]; [|exact IH].
  intros [V|V]; [|exact (IH V)].
  injection V as -> ->. apply K, E, (T i eq_refl).
Qed.

(** C5 (as the code has it).  A call of [is_tripped] that no other thread
    of the process interrupts uses the granularity of the call, or the one
    of the constructor when the call gives none.  When that granularity is
    not positive, or at least that many seconds have passed since
    [_checked], it reads the shared event, stores it with the new clock
    reading and returns it; otherwise it returns the cached value and
    changes nothing.  Along every trace of a process whose calls come one
    after the other, whatever the other processes do to the shared
    objects, once a call has returned true every later call returns true.
    When the calls of several threads interleave, a call still returns
    true only if the shared event is set. *)
Theorem C5_is_tripped_cached_and_monotonic_call_by_call :
  (forall st g t1 t2 (x : Q),
      x = match g with
          | Some g' => g'
          | None => _granularity (snd st)
          end ->
      (x <= 0 \/ x <= t1 - _checked (snd st) ->
       is_tripped st g t1 t2
       = (_event (fst st),
          (fst st, mkLocal (_event (fst st)) t2 (_granularity (snd st))))) /\
      (0 < x -> t1 - _checked (snd st) < x ->
       is_tripped st g t1 t2 = (_cached (snd st), st))) /\
  (forall (p : BreakerThreads.process R) i g t1 t2,
      BreakerThreads.threads p i = BreakerThreads.Idle ->
      let r := BreakerThreads.run p (BreakerThreads.call i g t1 t2) in
      let a := is_tripped (BreakerThreads.objects p, BreakerThreads.attrs p)
                          g t1 t2 in
      snd r = [(i, fst a)] /\
      (BreakerThreads.objects (fst r), BreakerThreads.attrs (fst r))
      = snd a) /\
  (forall (g now : Q) (ops : list (op R)) (l1 l2 : list bool),
      polls (__init__ R g now) ops = l1 ++ true :: l2 ->
      Forall (eq true) l2) /\
  (forall (g now : Q) (acts : list (BreakerThreads.action R)) (i : nat),
      In (i, true)
         (snd (BreakerThreads.run (BreakerThreads.fresh R g now) acts)) ->
      _event (BreakerThreads.objects
                (fst (BreakerThreads.run (BreakerThreads.fresh R g now)
                                         acts))) = true).
Proof.
  split; [|split; [|split]].
  - intros st g t1 t2 x Hx. destruct st as [sh lo]. cbn [fst snd] in *.
    unfold is_tripped. split.
    + intros H.
      assert (E : refresh_due lo g t1 = true).
      { apply refresh_due_true. unfold use_granularity.
        rewrite <- Hx. exact H. }
      rewrite E. reflexivity.
    + intros H1 H2.
      assert (E : refresh_due lo g t1 = false).
      { apply refresh_due_false. unfold use_granularity.
        rewrite <- Hx. auto. }
      rewrite E. reflexivity.
  - intros p i g t1 t2 H.
    destruct (call_is_is_tripped p i g t1 t2 H) as (H1 & H2 & _).
    cbv zeta. auto.
  - intros g now ops l1 l2. apply polls_monotonic, init_cache_sound.
  - intros g now acts i. apply run_backed.
    split; cbn; [discriminate | intros _ [V|V]; discriminate].
Qed.

End Facts.

(** C3 witness: a second [trip] on a breaker whose first [trip] is
    complete. *)
Lemma C3_trip_witness :
  let st := trip (__init__ string (1 # 10) 0) "first"%string in
  trip st "second"%string = st /\
  _event (fst (trip st "second"%string)) = true.
Proof.
  pose (st := trip (__init__ string (1 # 10) 0) "first"%string).
  destruct (@C3_trip_sets_flag_only_after_publishing string st
              "second"%string) as (H1 & _ & H3).
  split.
  - apply H1. vm_compute. discriminate.
  - apply H3. unfold published_set. vm_compute. reflexivity.
Defined.

(** C3, the claim as worded: the flag is set by every call.  Process A has
    executed the [put] of its [trip] and not yet [self._event.set()]; the
    whole [trip] of process B runs now.  It finds the slot filled, and
    returns with the shared event unset and B's cached flag false. *)
Lemma C3_trip_can_leave_flag_unset :
  let st := env_put (__init__ string (1 # 10) 0) "reason of A"%string in
  _event (fst (trip st "reason of B"%string)) = false /\
  _cached (snd (trip st "reason of B"%string)) = false /\
  fst (is_tripped (trip st "reason of B"%string) (Some 0) 0 0) = false.
Proof. vm_compute. auto. Qed.

(** The same with complete calls only: process A has tripped the breaker;
    process B, whose copy of the attributes dates from the fork, calls
    [trip] at time 0.05 and polls with the default granularity right
    after: its own poll still answers [False]. *)
Lemma trip_leaves_own_cache_stale_when_slot_filled :
  let st := env_set (env_put (__init__ string (1 # 10) 0) "reason of A"%string) in
  _event (fst (trip st "reason of B"%string)) = true /\
  _cached (snd (trip st "reason of B"%string)) = false /\
  fst (is_tripped (trip st "reason of B"%string) None (1 # 20) (1 # 20))
  = false.
Proof. vm_compute. auto. Qed.

(** C4, the claim as worded: [consume_reason] fails only when no reason
    was ever published.  A process trips the breaker and calls
    [consume_reason] before the feeder thread of the reason queue has
    written the reason to the pipe: the event is set, the reason is
    published, and the call raises [queue.Empty].  The slot stays taken, so
    that a [trip] after it is dropped. *)
Lemma C4_consume_right_after_trip_raises :
  let st := trip (__init__ string (1 # 10) 0) "first"%string in
  _event (fst st) = true /\
  _reason (fst st) = ["first"%string] /\
  consume_reason st false = (Raise QueueEmpty, st) /\
  trip (snd (consume_reason st false)) "second"%string = st.
Proof. vm_compute. repeat split. Qed.

(** C5 witness: the event is set, the cached value is false, the
    constructor's granularity is 0.1 and [_checked] is 0.  A
    call with granularity 0 reads the event; a call with granularity 1 at
    0.5 returns the cached value although the constructor's granularity has
    passed; a call without granularity at 0.5 reads the event.  Polls of a
    process one after the other: 0.05 (cached), 0.2 (fresh), 0.21
    (cached). *)
Lemma C5_is_tripped_witness :
  let st := (mkShared true ["r"%string], mkLocal false 0 (1 # 10)) in
  let ops := [IsTripped None (1 # 20) (1 # 20); EnvPut "r"%string; EnvSet;
              IsTripped (Some 1) (1 # 2) (1 # 2);
              IsTripped None (1 # 5) (1 # 5);
              IsTripped None (21 # 100) (21 # 100)] in
  is_tripped st (Some 0) (1 # 20) (1 # 20)
  = (true, (fst st, mkLocal true (1 # 20) (1 # 10))) /\
  is_tripped st (Some 1) (1 # 2) (1 # 2) = (false, st) /\
  is_tripped st None (1 # 2) (1 # 2)
  = (true, (fst st, mkLocal true (1 # 2) (1 # 10))) /\
  polls (__init__ string (1 # 10) 0) ops = [false; false] ++ true :: [true] /\
  Forall (eq true) [true].
Proof.
  destruct (C5_is_tripped_cached_and_monotonic_call_by_call string)
    as (H1 & _ & H3 & _).
  cbv zeta. split; [|split; [|split; [|split]]].
  - apply (proj1 (H1 (mkShared true ["r"%string], mkLocal false 0 (1 # 10))
                     (Some 0) (1 # 20) (1 # 20) 0 eq_refl)).
    left. unfold Qle. simpl. lia.
  - apply (proj2 (H1 (mkShared true ["r"%string], mkLocal false 0 (1 # 10))
                     (Some 1) (1 # 2) (1 # 2) 1 eq_refl)).
    + unfold Qlt. simpl. lia.
    + unfold Qlt. simpl. lia.
  - apply (proj1 (H1 (mkShared true ["r"%string], mkLocal false 0 (1 # 10))
                     None (1 # 2) (1 # 2) (1 # 10) eq_refl)).
    right. unfold Qle. simpl. lia.
  - reflexivity.
  - apply (H3 (1 # 10) 0
              [IsTripped None (1 # 20) (1 # 20); EnvPut "r"%string; EnvSet;
               IsTripped (Some 1) (1 # 2) (1 # 2);
               IsTripped None (1 # 5) (1 # 5);
               IsTripped None (21 # 100) (21 # 100)]
              [false; false] [true]).
    reflexivity.
Defined.

(** C5, the claim as worded: once a call returns true, no later call
    returns false.  Two threads of one process, granularity 0.1, breaker
    built at 0.  Thread 0 calls [is_tripped] at 1 and has evaluated
    [self._event.is_set()], which is false, when another process trips the
    breaker.  Thread 1 calls [is_tripped], reads the event and returns
    true.  Thread 0 goes on: it stores its false to [self._cached] and
    returns false.  Thread 1 calls [is_tripped] again at 1.05: less than
    the granularity has passed since [_checked], and it returns the cached
    false, while the shared event is set. *)
Lemma C5_stale_store_reverts_the_answer :
  let acts :=
    [BreakerThreads.Call 0 None; BreakerThreads.Step 0 1;
     BreakerThreads.Step 0 1;
     BreakerThreads.OtherPut "r"%string; BreakerThreads.OtherSet;
     BreakerThreads.Call 1 None; BreakerThreads.Step 1 1;
     BreakerThreads.Step 1 1; BreakerThreads.Step 1 1;
     BreakerThreads.Step 1 1; BreakerThreads.Step 1 1;
     BreakerThreads.Step 0 1; BreakerThreads.Step 0 1;
     BreakerThreads.Step 0 1;
     BreakerThreads.Call 1 None; BreakerThreads.Step 1 (21 # 20);
     BreakerThreads.Step 1 (21 # 20)] in
  let r := BreakerThreads.run (BreakerThreads.fresh string (1 # 10) 0) acts in
  snd r = [(1%nat, true); (0%nat, false); (1%nat, false)] /\
  _event (BreakerThreads.objects (fst r)) = true.
Proof. vm_compute. split; reflexivity. Qed.

End BreakerFacts.

(** ** The rate limiter *)

Module RateLimiterFacts.
Import RateLimiter.
Local Open Scope Q_scope.

Lemma Qlt_bool_true (a b : Q) : Qlt_bool a b = true <-> a < b.
Proof.
  unfold Qlt_bool. rewrite negb_true_iff, <- not_true_iff_false, Qle_bool_iff.
  split; [apply Qnot_le_lt | apply Qlt_not_le].
Qed.

Lemma Qlt_bool_false (a b : Q) : Qlt_bool a b = false <-> b <= a.
Proof.
  unfold Qlt_bool. rewrite negb_false_iff. apply Qle_bool_iff.
Qed.

Lemma Qmax_0_pos (x : Q) : 0 < x -> Qmax 0 x == x.
Proof. intros H. apply Q.max_r. lra. Qed.

Lemma Qmax_0_nonpos (x : Q) : x <= 0 -> Qmax 0 x == 0.
Proof. intros H. apply Q.max_l. lra. Qed.

(** With a report interval that is not negative the reporting block does
    not raise: it divides only by a positive elapsed time. *)
Lemma report_returns (s : state) (e : Q) :
  0 <= _report_interval_seconds s ->
  exists lr rc lg, report s e = Return (lr, rc, lg).
Proof.
  intros Hi. unfold report.
  destruct (Qeq_bool (_last_report s) 0); [eauto|].
  destruct (Qlt_bool (_last_report s) (e - _report_interval_seconds s)) eqn:Hl;
    [|eauto].
  apply Qlt_bool_true in Hl.
  destruct (Qeq_bool (e - _last_report s) 0) eqn:Hz; [|eauto].
  apply Qeq_bool_iff in Hz. lra.
Qed.

(** The pacing part of the state after [wait], whatever the reporting block
    did. *)
Lemma wait_pacing (s s' : state) (e : Q) (eff : effects) :
  wait s e = Return (s', eff) ->
  _delay s' = _delay s /\
  _report_interval_seconds s' = _report_interval_seconds s /\
  _last_time s' = (if Qlt_bool 0 (remaining s e) then e + remaining s e else e)
  /\
  slept eff = (if Qlt_bool 0 (remaining s e) then Some (remaining s e)
               else None).
Proof.
  unfold wait. destruct (report s e) as [[[lr rc] lg]|]; [|discriminate].
  destruct (Qlt_bool 0 (remaining s e)); intros E; injection E as <- <-;
    simpl; auto.
Qed.

Lemma wait_returns (s : state) (e : Q) :
  0 <= _report_interval_seconds s -> exists s' eff, wait s e = Return (s', eff).
Proof.
  intros Hi. destruct (report_returns s e Hi) as (lr & rc & lg & E).
  unfold wait. rewrite E.
  destruct (Qlt_bool 0 (remaining s e)); eauto.
Qed.

(** One call: the sleep asked for, the release time, and their bounds when
    the call enters no earlier than the last release. *)
Lemma wait_release (s s' : state) (e : Q) (eff : effects) :
  wait s e = Return (s', eff) ->
  requested_sleep eff == Qmax 0 (remaining s e) /\
  _last_time s' == e + Qmax 0 (remaining s e) /\
  _last_time s' == e + requested_sleep eff /\
  0 <= requested_sleep eff /\
  (_last_time s <= e ->
     requested_sleep eff <= Qmax 0 (_delay s) /\
     _last_time s + _delay s <= _last_time s').
Proof.
  intros W. destruct (wait_pacing _ _ W) as (_ & _ & Hl & Hs).
  unfold requested_sleep. rewrite Hl, Hs.
  destruct (Qlt_bool 0 (remaining s e)) eqn:Hr.
  - apply Qlt_bool_true in Hr. rewrite (Qmax_0_pos Hr).
    repeat split; try lra;
      unfold remaining in *; pose proof (Q.le_max_r 0 (_delay s)); lra.
  - apply Qlt_bool_false in Hr. rewrite (Qmax_0_nonpos Hr).
    repeat split; try lra;
      unfold remaining in *; pose proof (Q.le_max_l 0 (_delay s)); lra.
Qed.

Lemma waits_paced (cs : list call) (s : state) (t : Q) :
  _last_time s <= t ->
  0 <= _report_interval_seconds s ->
  well_timed s t cs ->
  exists rs,
    waits s cs = Return rs /\
    List.length rs = List.length cs /\
    Forall (paced (_delay s)) rs /\
    chain (spaced (_delay s)) rs /\
    match rs with
    | [] => True
    | r :: _ => _last_time s + _delay s <= released r
    end.
Proof.
  revert s t. induction cs as [|c cs IH]; intros s t Ht Hi Hw.
  - exists []. simpl. auto.
  - simpl in Hw. destruct Hw as (Hte & Hlate & Hw).
    destruct (wait_returns s (entry c) Hi) as (s' & eff & W).
    rewrite W in Hw.
    destruct (wait_pacing _ _ W) as (Hd & Hri & _ & _).
    destruct (wait_release _ _ W) as (_ & _ & Hrel & Hreq & Hb).
    destruct Hb as (Hb1 & Hb2); [lra|].
    destruct (IH s' (entry c + requested_sleep eff + late c))
      as (rs & E & Hlen & Hall & Hch & Hhd); [lra | rewrite Hri; exact Hi
                                              | exact Hw |].
    rewrite Hd in *.
    exists (mkRelease (entry c) (requested_sleep eff) (_last_time s')
              (entry c + requested_sleep eff + late c) :: rs).
    simpl. rewrite W, E. repeat split; auto.
    + constructor; [|exact Hall].
      unfold paced. simpl. repeat split; try lra.
    + destruct rs as [|r rs]; [exact I|]. split; [|exact Hch].
      inversion Hall as [|? ? Hp _]; subst.
      unfold paced in Hp. unfold spaced. simpl. repeat split; lra.
Qed.

(** C6 (as the code has it).  Take any sequence of [wait] calls in which
    every call enters no earlier than the previous one returned (and the
    first no earlier than the initial [_last_time]), returns no earlier than
    its entry plus the sleep it asked for, and whose report interval is not
    negative.  Then every call returns; the sleep it asks for is at most
    [_delay] (and zero for a negative [_delay]); after it [_last_time] is the
    entry reading plus [max(0, remaining)], computed and not read from the
    clock; the release times [_last_time] of successive calls are spaced by
    at least [_delay], and each call returns no earlier than its own release
    time and no earlier than [_delay] after the previous release.  Two
    successive returns are [_delay] apart when the earlier call returned at
    its release time.  The reporting attributes have no influence on the
    sleep or on [_last_time], and [wait] leaves [_delay] alone. *)
Theorem C6_wait_spaces_release_times :
  (forall (s : state) (t : Q) (cs : list call),
      _last_time s <= t ->
      0 <= _report_interval_seconds s ->
      well_timed s t cs ->
      exists rs,
        waits s cs = Return rs /\
        List.length rs = List.length cs /\
        Forall (paced (_delay s)) rs /\
        chain (spaced (_delay s)) rs) /\
  (forall (s s' : state) (e : Q) (eff : effects),
      wait s e = Return (s', eff) ->
      _last_time s' == e + Qmax 0 (remaining s e) /\
      requested_sleep eff == Qmax 0 (remaining s e) /\
      _delay s' = _delay s) /\
  (forall (s1 s2 s1' s2' : state) (e : Q) (eff1 eff2 : effects),
      _last_time s1 = _last_time s2 ->
      _delay s1 = _delay s2 ->
      wait s1 e = Return (s1', eff1) ->
      wait s2 e = Return (s2', eff2) ->
      _last_time s1' = _last_time s2' /\ slept eff1 = slept eff2).
Proof.
  split; [|split].
  - intros s t cs Ht Hi Hw.
    destruct (waits_paced cs s Ht Hi Hw) as (rs & E & Hl & Hp & Hc & _).
    exists rs. auto.
  - intros s s' e eff W.
    destruct (wait_release _ _ W) as (H1 & H2 & _).
    destruct (wait_pacing _ _ W) as (H3 & _). auto.
  - intros s1 s2 s1' s2' e eff1 eff2 Hl Hd W1 W2.
    destruct (wait_pacing _ _ W1) as (_ & _ & L1 & S1).
    destruct (wait_pacing _ _ W2) as (_ & _ & L2 & S2).
    unfold remaining in *. rewrite L1, L2, S1, S2, Hl, Hd. auto.
Qed.

(** C6 witness: rate 1 per second; calls entering at 10, 10.5 and 11.4, the
    second returning 0.4 s late. *)
Lemma C6_wait_witness :
  let s0 := mkState 0 0 1 5 0 in
  let cs := [mkCall 10 0; mkCall (21 # 2) (2 # 5); mkCall (57 # 5) 0] in
  __init__ 1 5 = Return s0 /\
  exists rs,
    waits s0 cs = Return rs /\
    List.length rs = List.length cs /\
    Forall (paced (_delay s0)) rs /\
    chain (spaced (_delay s0)) rs.
Proof.
  split; [reflexivity|].
  destruct C6_wait_spaces_release_times as (H & _).
  apply (H (mkState 0 0 1 5 0) 0).
  - simpl. lra.
  - simpl. lra.
  - vm_compute. repeat split; discriminate.
Defined.

(** C6, the claim as worded: successive returns are [_delay] apart.  In the
    trace of the witness the second call sleeps 0.5 s, is released at 11 and
    returns at 11.4; the third enters at 11.4, sleeps 0.6 s and returns on
    time at 12, which is 0.6 s after the previous return, with a delay of
    1 s.  The release times 10, 11, 12 are 1 s apart. *)
Lemma C6_returns_closer_than_delay :
  let s0 := mkState 0 0 1 5 0 in
  let cs := [mkCall 10 0; mkCall (21 # 2) (2 # 5); mkCall (57 # 5) 0] in
  __init__ 1 5 = Return s0 /\
  well_timed s0 0 cs /\
  match waits s0 cs with
  | Return [r1; r2; r3] =>
      returned r2 == 57 # 5 /\ returned r3 == 12 /\
      returned r3 - returned r2 < _delay s0 /\
      released r1 == 10 /\ released r2 == 11 /\ released r3 == 12
  | _ => False
  end.
Proof.
  split; [reflexivity|]. split.
  - vm_compute. repeat split; discriminate.
  - vm_compute. repeat split; reflexivity.
Qed.

(** With a negative report interval the reporting block can divide by zero:
    two calls that read the same clock value. *)
Lemma wait_raises_with_negative_report_interval :
  match __init__ 1 (-1) with
  | Return s0 => final s0 [mkCall 3 0; mkCall 3 0] = Raise ZeroDivisionError
  | Raise _ => False
  end.
Proof. vm_compute. reflexivity. Qed.

End RateLimiterFacts.

(** ** The bounded executor *)

Module BoundedExecutorFacts.
Import BoundedExecutor.

Section Facts.
Variable T : Type.
Implicit Types (s : state T) (t : T) (a : action T).

Local Open Scope Z_scope.

Lemma remove_nth_length (A : Type) (i : nat) (l l' : list A) (x : A) :
  remove_nth i l = Some (x, l') -> List.length l = S (List.length l').
Proof.
  revert i l'. induction l as [|y l IH]; intros [|i] l'; simpl;
    try discriminate.
  - intros E. injection E as <- <-. reflexivity.
  - destruct (remove_nth i l) as [[z l'']|] eqn:E; [|discriminate].
    intros E'. injection E' as <- <-. simpl. f_equal. now apply (IH i).
Qed.

Lemma init_balanced (bound max_w : Z) s :
  __init__ T bound max_w = Return s ->
  balanced s /\ sem_initial s = bound + max_w /\
  sem_value s = bound + max_w /\ max_workers s = max_w.
Proof.
  unfold __init__.
  destruct (max_w <=? 0) eqn:E1; [discriminate|].
  destruct (bound + max_w <? 0) eqn:E2; [discriminate|].
  intros E. injection E as <-.
  unfold balanced, pending, in_flight. simpl. lia.
Qed.

(** A release issued for a permit that is out never overflows the
    semaphore. *)
Lemma sem_release_returns s :
  sem_value s < sem_initial s ->
  sem_release s
  = Return (mkState (sem_value s + 1) (sem_initial s) (max_workers s)
              (queued s) (running s) (is_shutdown s)
              (holders s) (acquires s) (S (releases s)) (departed s)).
Proof.
  intros H. unfold sem_release.
  destruct (sem_initial s <=? sem_value s) eqn:E; [lia|reflexivity].
Qed.

Lemma acquire_balanced s s' :
  balanced s -> sem_acquire s = Some s' -> balanced s'.
Proof.
  unfold balanced, sem_acquire, pending, in_flight.
  destruct (0 <? sem_value s) eqn:E; [|discriminate].
  intros H E'. injection E' as <-. simpl. lia.
Qed.

Lemma handoff_balanced s t :
  balanced s -> (0 < holders s)%nat -> balanced (snd (submit_handoff s t)).
Proof.
  unfold balanced, submit_handoff, pool_submit, pending, in_flight.
  intros H Hh. destruct (is_shutdown s).
  - rewrite sem_release_returns by lia. simpl. lia.
  - simpl. rewrite length_app. simpl. lia.
Qed.

Lemma start_balanced s s' :
  balanced s -> pool_start s = Some s' -> balanced s'.
Proof.
  unfold balanced, pool_start, pending, in_flight.
  destruct (queued s) as [|t q]; [discriminate|].
  destruct (Z.of_nat (List.length (running s)) <? max_workers s) eqn:E;
    [|discriminate].
  intros H E'. injection E' as <-. simpl in *. rewrite length_app. simpl.
  lia.
Qed.

Lemma finish_balanced s s' (i : nat) :
  balanced s -> pool_finish s i = Some s' ->
  balanced s' /\ sem_value s' = sem_value s + 1 /\
  releases s' = S (releases s).
Proof.
  unfold balanced, pool_finish, done_callback, pending, in_flight.
  destruct (remove_nth i (running s)) as [[x r]|] eqn:E; [|discriminate].
  apply remove_nth_length in E.
  intros H E'. injection E' as <-.
  rewrite sem_release_returns by (simpl; lia). simpl. lia.
Qed.

Lemma cancel_balanced s s' (i : nat) :
  balanced s -> pool_cancel s i = Some s' ->
  balanced s' /\ sem_value s' = sem_value s + 1 /\
  releases s' = S (releases s).
Proof.
  unfold balanced, pool_cancel, done_callback, pending, in_flight.
  destruct (remove_nth i (queued s)) as [[x q]|] eqn:E; [|discriminate].
  apply remove_nth_length in E.
  intros H E'. injection E' as <-.
  rewrite sem_release_returns by (simpl; lia). simpl. lia.
Qed.

Lemma step_balanced s s' a : balanced s -> step s a = Some s' -> balanced s'.
Proof.
  intros H. destruct a as [|t| |i|i|]; simpl.
  - now apply acquire_balanced.
  - destruct (holders s) eqn:E; [discriminate|].
    intros E'. injection E' as <-. apply handoff_balanced; [exact H | lia].
  - now apply start_balanced.
  - intros E. now apply (finish_balanced i H).
  - intros E. now apply (cancel_balanced i H).
  - intros E. injection E as <-. exact H.
Qed.

Lemma step_constants s s' a :
  step s a = Some s' ->
  sem_initial s' = sem_initial s /\ max_workers s' = max_workers s.
Proof.
  destruct a as [|t| |i|i|]; simpl.
  - unfold sem_acquire. destruct (0 <? sem_value s); [|discriminate].
    intros E. injection E as <-. auto.
  - destruct (holders s); [discriminate|].
    intros E. injection E as <-.
    unfold submit_handoff, pool_submit, sem_release.
    destruct (is_shutdown s); simpl; auto.
    destruct (sem_initial s <=? sem_value s); simpl; auto.
  - unfold pool_start. destruct (queued s); [discriminate|].
    destruct (_ <? _); [|discriminate].
    intros E. injection E as <-. auto.
  - unfold pool_finish, done_callback, sem_release.
    destruct (remove_nth i (running s)) as [[? ?]|]; [|discriminate].
    intros E. injection E as <-. simpl.
    destruct (sem_initial s <=? sem_value s); simpl; auto.
  - unfold pool_cancel, done_callback, sem_release.
    destruct (remove_nth i (queued s)) as [[? ?]|]; [|discriminate].
    intros E. injection E as <-. simpl.
    destruct (sem_initial s <=? sem_value s); simpl; auto.
  - intros E. injection E as <-. auto.
Qed.

Lemma run_balanced (acts : list (action T)) s s' :
  balanced s -> run s acts = Some s' ->
  balanced s' /\ sem_initial s' = sem_initial s /\
  max_workers s' = max_workers s.
Proof.
  revert s. induction acts as [|a acts IH]; intros s H; simpl.
  - intros E. injection E as <-. auto.
  - destruct (step s a) as [s1|] eqn:E; [|discriminate].
    intros R. destruct (step_constants _ _ E) as [C1 C2].
    destruct (IH s1 (step_balanced _ H E) R) as (B & I1 & I2).
    rewrite <- C1, <- C2. auto.
Qed.

(** [submit] as a whole, on a balanced state. *)
Lemma submit_balanced s t :
  balanced s ->
  (submit s t = None <-> sem_value s <= 0) /\
  (forall res s', submit s t = Some (res, s') ->
     balanced s' /\
     acquires s' = S (acquires s) /\
     if is_shutdown s
     then res = Raise RuntimeError /\ sem_value s' = sem_value s /\
          queued s' = queued s /\ releases s' = S (releases s)
     else res = Return tt /\ sem_value s' = sem_value s - 1 /\
          queued s' = queued s ++ [t] /\ releases s' = releases s).
Proof.
  intros H. unfold submit. split.
  - unfold sem_acquire. destruct (0 <? sem_value s) eqn:E.
    + split; [discriminate | lia].
    + split; [lia | reflexivity].
  - intros res s' E.
    destruct (sem_acquire s) as [s1|] eqn:A; [|discriminate].
    injection E as E.
    pose proof (acquire_balanced H A) as B1.
    assert (Hh : (0 < holders s1)%nat).
    { unfold sem_acquire in A. destruct (0 <? sem_value s); [|discriminate].
      injection A as <-. simpl. lia. }
    pose proof (handoff_balanced t B1 Hh) as B2. rewrite E in B2. simpl in B2.
    split; [exact B2|].
    unfold sem_acquire in A. destruct (0 <? sem_value s) eqn:Hv;
      [|discriminate].
    injection A as <-.
    unfold submit_handoff, pool_submit in E. simpl in E.
    destruct (is_shutdown s).
    + rewrite sem_release_returns in E
        by (unfold balanced, pending, in_flight in H; simpl; lia).
      injection E as <- <-. simpl. repeat split; lia.
    + injection E as <- <-. simpl. repeat split; lia.
Qed.

(** C7.  An executor built with [max_workers = W] and [bound = B] has a
    semaphore of [W + B] permits.  In every state that the threads using
    it can reach: the permit count is between 0 and [W + B]; the tasks in
    flight and the tasks pending are together at most [W + B], exactly
    [W + B] less the free permits and the permits of threads that are
    between [acquire] and the hand-off; as many permits have been released
    as tasks have finished, been cancelled or failed to be handed off, and
    every other acquired permit is still held.  [submit] blocks exactly
    when no permit is free; otherwise it takes one permit and then hands
    the task to the pool, and when the hand-off raises (the pool is shut
    down) the permit is back and the exception reaches the caller.  A task
    that completes releases exactly one permit, and the release does not
    fail. *)
Theorem C7_permits_bound_in_flight_and_pending
  (bound max_w : Z) (s0 s : state T) (acts : list (action T)) :
  __init__ T bound max_w = Return s0 ->
  run s0 acts = Some s ->
  sem_value s0 = bound + max_w /\
  sem_initial s = bound + max_w /\
  0 <= sem_value s <= bound + max_w /\
  in_flight s + pending s <= bound + max_w /\
  in_flight s <= max_w /\
  in_flight s + pending s
    = bound + max_w - sem_value s - Z.of_nat (holders s) /\
  releases s = departed s /\
  acquires s = (releases s + holders s + List.length (queued s)
                + List.length (running s))%nat /\
  (forall t,
      (submit s t = None <-> sem_value s <= 0) /\
      (forall res s',
          submit s t = Some (res, s') ->
          acquires s' = S (acquires s) /\
          if is_shutdown s
          then res = Raise RuntimeError /\ sem_value s' = sem_value s /\
               queued s' = queued s /\ releases s' = S (releases s)
          else res = Return tt /\ sem_value s' = sem_value s - 1 /\
               queued s' = queued s ++ [t] /\ releases s' = releases s)) /\
  (forall i s',
      pool_finish s i = Some s' ->
      sem_value s' = sem_value s + 1 /\ releases s' = S (releases s) /\
      in_flight s' = in_flight s - 1).
Proof.
  intros I Rn.
  destruct (init_balanced _ _ I) as (B0 & I0 & V0 & W0).
  destruct (run_balanced acts B0 Rn) as (B & I1 & W1).
  rewrite I0 in I1. rewrite W0 in W1.
  pose proof B as (P1 & P2 & P3 & P4 & P5).
  unfold pending, in_flight in *.
  repeat split; try lia.
  - apply (submit_balanced t B).
  - apply (submit_balanced t B).
  - destruct (proj2 (submit_balanced t B) _ _ H) as (_ & A & _). exact A.
  - destruct (proj2 (submit_balanced t B) _ _ H) as (_ & _ & A). exact A.
  - destruct (finish_balanced i B H) as (_ & A & _). exact A.
  - destruct (finish_balanced i B H) as (_ & _ & A). exact A.
  - unfold pool_finish in H.
    destruct (remove_nth i (running s)) as [[x r]|] eqn:E; [|discriminate].
    apply remove_nth_length in E. injection H as <-.
    unfold done_callback, sem_release. simpl.
    destruct (sem_initial s <=? sem_value s); simpl; lia.
Qed.

End Facts.

(** C7 witness: one worker and a backlog of one; two tasks are submitted,
    the first runs and finishes, the second starts, the executor is shut
    down. *)
Lemma C7_permits_witness :
  let acts : list (action nat) :=
    [Acquire; Handoff 7%nat; Start; Acquire; Handoff 8%nat; Finish 0; Start;
     Shutdown] in
  let s0 := mkState 2 2 1 (@nil nat) [] false 0 0 0 0 in
  let s := mkState 1 2 1 [] [8%nat] true 0 2 1 1 in
  __init__ nat 1 1 = Return s0 /\ run s0 acts = Some s /\
  (0 <= sem_value s <= 1 + 1)%Z /\
  (in_flight s + pending s <= 1 + 1)%Z.
Proof.
  cbv zeta. split; [reflexivity|]. split; [reflexivity|].
  pose proof (@C7_permits_bound_in_flight_and_pending nat 1 1
                (mkState 2 2 1 (@nil nat) [] false 0 0 0 0)
                (mkState 1 2 1 [] [8%nat] true 0 2 1 1)
                [Acquire; Handoff 7%nat; Start; Acquire; Handoff 8%nat;
                 Finish 0; Start; Shutdown]
                eq_refl eq_refl) as (_ & _ & H1 & H2 & _).
  split; [exact H1 | exact H2].
Defined.

End BoundedExecutorFacts.

(** ** The accumulator *)

Module AccumulatorFacts.
Import Accumulator.

Section Facts.
Variable A : Type.
Implicit Types (s : state A) (x : A) (w : world A).

Lemma batches_app (e1 e2 : list (event A)) :
  batches (e1 ++ e2) = batches e1 ++ batches e2.
Proof.
  induction e1 as [|e e1 IH]; simpl; [reflexivity|].
  destruct e; simpl; rewrite IH; reflexivity.
Qed.

Lemma batches_dispatch (ser : bool) (pl : option (list A)) :
  batches (dispatch ser pl)
  = match pl with
    | Some (y :: l) => [y :: l]
    | _ => []
    end.
Proof.
  destruct pl as [[|y l]|]; simpl; try reflexivity.
  destruct ser; reflexivity.
Qed.

(** [add] by cases on the size the buffer reaches. *)
Lemma add_dispatches s x :
  (_size s <= Z.of_nat (List.length (_list s ++ [x])))%Z ->
  batches (snd (add s x)) = [_list s ++ [x]] /\
  _list (fst (add s x)) = [].
Proof.
  intros H. unfold add, add_locked.
  apply Z.leb_le in H. rewrite H. cbn [fst snd _list].
  rewrite batches_app, batches_dispatch.
  destruct (_list s ++ [x]) eqn:E; [|auto].
  destruct (_list s); discriminate.
Qed.

Lemma add_keeps s x :
  (Z.of_nat (List.length (_list s ++ [x])) < _size s)%Z ->
  snd (add s x) = [AcquireListLock; ReleaseListLock] /\
  _list (fst (add s x)) = _list s ++ [x].
Proof.
  intros H. unfold add, add_locked.
  apply Z.leb_gt in H. rewrite H. simpl. auto.
Qed.

Lemma add_conserves s x :
  concat (batches (snd (add s x))) ++ _list (fst (add s x))
  = _list s ++ [x].
Proof.
  destruct (Z_le_gt_dec (_size s) (Z.of_nat (List.length (_list s ++ [x]))))
    as [H|H].
  - destruct (add_dispatches s x H) as [-> ->]. simpl.
    now rewrite !app_nil_r.
  - destruct (add_keeps s x) as [-> ->]; [lia|]. reflexivity.
Qed.

Lemma adds_conserves (things : list A) s :
  concat (batches (snd (adds s things))) ++ _list (fst (adds s things))
  = _list s ++ things.
Proof.
  revert s. induction things as [|x things IH]; intros s; simpl.
  - now rewrite app_nil_r.
  - pose proof (add_conserves s x) as Ha.
    destruct (add s x) as [s1 e1]. specialize (IH s1).
    destruct (adds s1 things) as [s2 e2]. simpl in *.
    rewrite batches_app, concat_app, <- app_assoc, IH, app_assoc, Ha.
    now rewrite <- app_assoc.
Qed.

Lemma flush_conserves s :
  concat (batches (snd (flush s))) = _list s /\ _list (fst (flush s)) = [].
Proof.
  unfold flush, flush_locked.
  destruct (_list s) as [|y l] eqn:E; simpl.
  - rewrite E. auto.
  - destruct (_serial s); simpl; now rewrite app_nil_r.
Qed.

Lemma add_batches_nonempty s x :
  Forall (fun b => b <> []) (batches (snd (add s x))).
Proof.
  unfold add. destruct (add_locked s x) as [s' pl]. cbn [snd].
  rewrite batches_app, batches_dispatch.
  destruct pl as [[|y l]|]; repeat constructor. discriminate.
Qed.

Lemma flush_batches_nonempty s :
  Forall (fun b => b <> []) (batches (snd (flush s))).
Proof.
  unfold flush. destruct (flush_locked s) as [s' pl]. cbn [snd].
  rewrite batches_app, batches_dispatch.
  destruct pl as [[|y l]|]; repeat constructor. discriminate.
Qed.

Lemma adds_batches_nonempty (things : list A) s :
  Forall (fun b => b <> []) (batches (snd (adds s things))).
Proof.
  revert s. induction things as [|x things IH]; intros s; simpl.
  - constructor.
  - pose proof (add_batches_nonempty s x) as Ha.
    destruct (add s x) as [s1 e1]. specialize (IH s1).
    destruct (adds s1 things) as [s2 e2]. simpl in *.
    rewrite batches_app. apply Forall_app. auto.
Qed.

(** *** Threads *)

Lemma take_held_perm (th : nat) (h h' : list (nat * list A)) (l : list A) :
  take_held th h = Some (l, h') ->
  Permutation (concat (map snd h)) (l ++ concat (map snd h')).
Proof.
  revert h'. induction h as [|[th' l'] h IH]; intros h'; simpl;
    [discriminate|].
  destruct (Nat.eqb th th').
  - intros E. injection E as <- <-. reflexivity.
  - destruct (take_held th h) as [[l1 h1]|]; [|discriminate].
    intros E. injection E as <- <-. simpl.
    rewrite (IH h1 eq_refl), !app_assoc.
    apply Permutation_app_tail, Permutation_app_comm.
Qed.

Lemma hold_content (th : nat) (pl : option (list A))
  (h : list (nat * list A)) :
  concat (map snd (hold th pl h))
  = concat (map snd h) ++ match pl with Some l => l | None => [] end.
Proof.
  destruct pl as [[|y l]|]; simpl; rewrite ?app_nil_r; try reflexivity.
  rewrite map_app, concat_app. simpl. now rewrite app_nil_r.
Qed.

Lemma tstep_content w (t : tstep A) :
  Permutation (content (tstep_run w t))
              (content w ++ added [t]).
Proof.
  unfold content, tstep_run. destruct t as [th x|th|th].
  - unfold add_locked.
    destruct (_size (acc w) <=? _)%Z;
      cbn [acc held delivered _list added].
    + rewrite hold_content, ?app_nil_r, <- ?app_assoc. reflexivity.
    + rewrite <- !app_assoc. reflexivity.
  - unfold flush_locked.
    destruct (0 <? _)%Z eqn:E;
      cbn [acc held delivered _list added].
    + rewrite hold_content, ?app_nil_r, <- ?app_assoc. reflexivity.
    + rewrite !app_nil_r. reflexivity.
  - cbn [added]. rewrite app_nil_r.
    destruct (take_held th (held w)) as [[l h']|] eqn:E;
      cbn [acc held delivered _list]; [|reflexivity].
    rewrite concat_app. cbn [concat]. rewrite app_nil_r, <- !app_assoc.
    apply Permutation_app_head.
    rewrite (take_held_perm _ _ E), <- !app_assoc. reflexivity.
Qed.

Lemma added_cons (t : tstep A) (ts : list (tstep A)) :
  added (t :: ts) = added [t] ++ added ts.
Proof. destruct t; reflexivity. Qed.

Lemma truns_content (ts : list (tstep A)) w :
  Permutation (content (truns w ts)) (content w ++ added ts).
Proof.
  revert w. induction ts as [|t ts IH]; intros w.
  - simpl. now rewrite app_nil_r.
  - unfold truns in *. simpl fold_left. rewrite IH, added_cons, app_assoc.
    apply Permutation_app_tail, tstep_content.
Qed.

(** C8.  A fresh accumulator with threshold [S] receives a sequence of
    [add] calls and then one [flush].  The batches passed to
    [_on_process], one after the other, are the added items in the order
    they were added: every item is in exactly one batch, so the delivered
    items and the added items are the same multiset, and the buffer is
    empty at the end.  An [add] hands a batch to [_on_process] exactly when
    the buffer, with the new item, has reached [S] items; the batch is
    the whole buffer, and an empty buffer takes its place.  With several
    threads, whose locked blocks and dispatches interleave in any way, the
    items delivered, the items in batches a thread is about to dispatch
    and the items in the buffer are together a permutation of the items
    added. *)
Theorem C8_accumulator_delivers_what_was_added
  (sz : Z) (ser : bool) (things : list A) :
  let r := adds_then_flush (__init__ A sz ser) things in
  concat (batches (snd r)) = things /\
  Permutation (concat (batches (snd r))) things /\
  _list (fst r) = [] /\
  (forall s x,
      ((_size s <= Z.of_nat (List.length (_list s ++ [x])))%Z ->
       batches (snd (add s x)) = [_list s ++ [x]] /\
       _list (fst (add s x)) = []) /\
      ((Z.of_nat (List.length (_list s ++ [x])) < _size s)%Z ->
       batches (snd (add s x)) = [] /\
       _list (fst (add s x)) = _list s ++ [x])) /\
  (forall ts : list (tstep A),
      Permutation (content (truns (mkWorld (__init__ A sz ser) [] []) ts))
                  (added ts)).
Proof.
  cbv zeta. unfold adds_then_flush.
  pose proof (adds_conserves things (__init__ A sz ser)) as Ha.
  destruct (adds (__init__ A sz ser) things) as [s1 e1].
  pose proof (flush_conserves s1) as [Hf1 Hf2].
  destruct (flush s1) as [s2 e2]. simpl in *.
  assert (E : concat (batches (e1 ++ e2)) = things).
  { rewrite batches_app, concat_app, Hf1. exact Ha. }
  split; [exact E|]. split; [rewrite E; reflexivity|].
  split; [exact Hf2|]. split.
  - intros s x. split.
    + apply add_dispatches.
    + intros H. destruct (add_keeps s x H) as [-> ->]. auto.
  - intros ts. apply (truns_content ts (mkWorld (__init__ A sz ser) [] [])).
Qed.

(** C10.  Every batch that [add] or [flush] passes to [_on_process] is
    non-empty, in any state and along any sequence of calls.  A [flush]
    on an empty buffer takes and releases the list lock and does nothing
    else: no call of [_on_process], no acquisition of the process lock, no
    change of state. *)
Theorem C10_on_process_never_gets_an_empty_batch :
  (forall s x, Forall (fun b => b <> []) (batches (snd (add s x)))) /\
  (forall s, Forall (fun b => b <> []) (batches (snd (flush s)))) /\
  (forall s (things : list A),
      Forall (fun b => b <> [])
             (batches (snd (adds_then_flush s things)))) /\
  (forall (sz : Z) (ser : bool),
      flush (mkState sz ser (@nil A))
      = (mkState sz ser [], [AcquireListLock; ReleaseListLock])).
Proof.
  split; [apply add_batches_nonempty|].
  split; [apply flush_batches_nonempty|]. split.
  - intros s things. unfold adds_then_flush.
    pose proof (adds_batches_nonempty things s) as Ha.
    destruct (adds s things) as [s1 e1].
    pose proof (flush_batches_nonempty s1) as Hf.
    destruct (flush s1) as [s2 e2]. simpl in *.
    rewrite batches_app. apply Forall_app. auto.
  - reflexivity.
Qed.

End Facts.

(** C8 witness: threshold 5, thirteen items, serial mode: two full batches
    from [add] and the rest from [flush]. *)
Lemma C8_accumulator_witness :
  let things := [1; 2; 3; 4; 5; 6; 7; 8; 9; 10; 11; 12; 13]%nat in
  let r := adds_then_flush (__init__ nat 5 true) things in
  batches (snd r)
  = [[1; 2; 3; 4; 5]; [6; 7; 8; 9; 10]; [11; 12; 13]]%nat /\
  concat (batches (snd r)) = things /\
  batches (snd (add (mkState 5 true [1; 2; 3; 4]%nat) 5%nat))
  = [[1; 2; 3; 4; 5]%nat].
Proof.
  cbv zeta. split; [reflexivity|].
  destruct (@C8_accumulator_delivers_what_was_added nat 5 true
              [1; 2; 3; 4; 5; 6; 7; 8; 9; 10; 11; 12; 13]%nat)
    as (H1 & _ & _ & H4 & _).
  split; [exact H1|].
  destruct (H4 (mkState 5 true [1; 2; 3; 4]%nat) 5%nat) as [H _].
  apply H. simpl. lia.
Defined.

End AccumulatorFacts.

(** ** The work queue *)

Module WorkQueueFacts.
Import WorkQueue.

Section Facts.
Variable Item : Type.
Implicit Types (p : pipeline Item) (k : tick) (item : Item).

Local Open Scope Q_scope.

(** *** _distribute_work *)

Lemma protocol_retry (set : bool) (tr : list dev) :
  protocol (Polled set false :: TimedOut :: tr) = protocol tr.
Proof. reflexivity. Qed.

Lemma enqueues_retry (set : bool) (tr : list dev) :
  enqueues (Polled set false :: TimedOut :: tr) = enqueues tr.
Proof. reflexivity. Qed.

(** A complete call, by the way it ends. *)
Lemma distribute_work_complete (ticks : list tick) p item
  (r : outcome unit) (p' : pipeline Item) (tr : list dev) :
  _distribute_work p item ticks = Some (r, p', tr) ->
  protocol tr = true /\
  queue_max p' = queue_max p /\ _done p' = _done p /\
  ((r = Return tt /\ enqueues tr = 1%nat /\
    exists n, _queue p' = skipn n (_queue p) ++ [item]) \/
   (r = Raise BreakerTrippingException /\ enqueues tr = 0%nat /\
    exists n, _queue p' = skipn n (_queue p))).
Proof.
  revert p r p' tr. induction ticks as [|k ticks IH]; intros p r p' tr;
    simpl; [discriminate|].
  destruct (Breaker.is_tripped _ None (t1 k) (t2 k)) as [tripped b1].
  destruct tripped.
  - intros E. injection E as <- <- <-. simpl.
    repeat split. right. repeat split. exists 0%nat. reflexivity.
  - unfold put_timeout.
    destruct (has_room (queue_max p) (skipn (taken k) (_queue p))).
    + intros E. injection E as <- <- <-. simpl.
      repeat split. left. repeat split. exists (taken k). reflexivity.
    + match goal with
      | |- context [_distribute_work ?q item ticks] =>
          specialize (IH q); destruct (_distribute_work q item ticks)
            as [[[r1 p1] tr1]|]; [|discriminate]
      end.
      intros E. injection E as <- <- <-.
      destruct (IH _ _ _ eq_refl) as (Hp & Hm & Hd & Hr).
      cbn [_queue queue_max _done] in Hm, Hd, Hr.
      rewrite protocol_retry, enqueues_retry.
      repeat split; auto.
      destruct Hr as [(? & ? & n & Hq)|(? & ? & n & Hq)]; [left|right];
        repeat split; auto; exists (n + taken k)%nat;
        rewrite Hq, skipn_skipn; reflexivity.
Qed.

(** The loop ends at the latest when the consumers have taken everything
    that was in the queue. *)
Lemma distribute_work_ends (ticks : list tick) p item :
  Exists (fun k => (List.length (_queue p) <= taken k)%nat) ticks ->
  _distribute_work p item ticks <> None.
Proof.
  revert p. induction ticks as [|k ticks IH]; intros p H.
  - inversion H.
  - simpl.
    destruct (Breaker.is_tripped _ None (t1 k) (t2 k)) as [tripped b1].
    destruct tripped; [discriminate|].
    unfold put_timeout.
    destruct (has_room (queue_max p) (skipn (taken k) (_queue p))) eqn:Hr;
      [discriminate|].
    inversion H as [? ? Hk|? ? Hk]; subst.
    + rewrite skipn_all2 in Hr by exact Hk.
      unfold has_room in Hr. simpl in Hr.
      apply orb_false_iff in Hr. destruct Hr as [H1 H2].
      apply Z.leb_gt in H1. apply Z.ltb_ge in H2. lia.
    + match goal with
      | |- context [_distribute_work ?q item ticks] =>
          specialize (IH q); destruct (_distribute_work q item ticks)
            as [[[r1 p1] tr1]|]; [discriminate|]
      end.
      exfalso. apply IH; [|reflexivity]. simpl.
      eapply Exists_impl; [|exact Hk].
      intros a Ha. simpl in Ha. rewrite length_skipn. lia.
Qed.

(** C2 (as the code has it).  A call of [_distribute_work] that completes
    has made this sequence of steps: a poll of the breaker that answered
    "not tripped" and a [put] that timed out, any number of times, and
    then either a poll that answered "tripped", upon which it raises
    [BreakerTrippingException] without having enqueued the item, or a poll
    that answered "not tripped" followed by the [put] that enqueued the
    item, exactly once, at the tail of the queue.  So every [put] directly
    follows a poll in which the breaker was not observed tripped, and the
    call cannot end in any other way.  The call completes at the latest
    when the consumers have emptied the queue. *)
Theorem C2_distribute_work_polls_before_each_put :
  (forall (ticks : list tick) p item
          (r : outcome unit) (p' : pipeline Item) (tr : list dev),
      _distribute_work p item ticks = Some (r, p', tr) ->
      protocol tr = true /\
      ((r = Return tt /\ enqueues tr = 1%nat /\
        exists n, _queue p' = skipn n (_queue p) ++ [item]) \/
       (r = Raise BreakerTrippingException /\ enqueues tr = 0%nat /\
        exists n, _queue p' = skipn n (_queue p)))) /\
  (forall (ticks : list tick) p item,
      Exists (fun k => (List.length (_queue p) <= taken k)%nat) ticks ->
      _distribute_work p item ticks <> None).
Proof.
  split.
  - intros ticks p item r p' tr E.
    destruct (distribute_work_complete _ _ _ E) as (H1 & _ & _ & H2). auto.
  - apply distribute_work_ends.
Qed.

End Facts.

(** C2 witness: a queue of capacity 2 that is full; the first attempt times
    out, during the second a consumer takes one item. *)
Lemma C2_distribute_work_witness :
  let p := mkPipeline [1; 2]%nat 2 false
             (Breaker.__init__ string default_granularity 0) in
  let ticks := [mkTick [] (1 # 1) (1 # 1) 0; mkTick [] (2 # 1) (2 # 1) 1] in
  let p' := mkPipeline [2; 3]%nat 2 false
              (Breaker.mkShared false [], Breaker.mkLocal false 2 (1 # 10)) in
  let tr := [Polled false false; TimedOut; Polled false false; Enqueued] in
  _distribute_work p 3%nat ticks = Some (Return tt, p', tr) /\
  protocol tr = true.
Proof.
  cbv zeta. split; [reflexivity|].
  destruct (C2_distribute_work_polls_before_each_put nat) as [H _].
  refine (proj1 (H [mkTick [] (1 # 1) (1 # 1) 0; mkTick [] (2 # 1) (2 # 1) 1]
                   (mkPipeline [1; 2]%nat 2 false
                      (Breaker.__init__ string default_granularity 0))
                   3%nat _ _ _ eq_refl)).
Defined.

(** C2, the claim as worded: no item is enqueued after the breaker trips.
    The breaker was built at time 0 with the default granularity of 0.1 s;
    a work process trips it, and at time 0.05 the acquisition process calls
    [_distribute_work].  The poll returns the cached [False], the [put]
    succeeds, and the item is in the queue although the shared event was set
    before the call began. *)
Lemma C2_enqueues_after_the_event_is_set :
  let p := mkPipeline (@nil nat) 8 false
             (Breaker.__init__ string default_granularity 0) in
  let k := mkTick [reason_work] (1 # 20) (1 # 20) 0 in
  let p' := mkPipeline [42%nat] 8 false
              (Breaker.mkShared true [reason_work],
               Breaker.mkLocal false 0 (1 # 10)) in
  _distribute_work p 42%nat [k]
  = Some (Return tt, p', [Polled true false; Enqueued]) /\
  enqueued_untripped [Polled true false; Enqueued] = false.
Proof. cbv zeta. split; reflexivity. Qed.

Section EntryFacts.
Variable Item : Type.
Implicit Types (b : breaker) (tr : list (pev Item)).

Local Open Scope Q_scope.

(** *** The process entry points *)

Lemma occurrences_app (f : pev Item -> bool) tr1 tr2 :
  occurrences f (tr1 ++ tr2) = (occurrences f tr1 + occurrences f tr2)%nat.
Proof. unfold occurrences. now rewrite filter_app, length_app. Qed.

Lemma occurrences_guarded (f : pev Item -> bool) (call : pev Item)
  (result : outcome unit) :
  f LogException = false ->
  occurrences f (guarded call result) = if f call then 1%nat else 0%nat.
Proof.
  intros H. unfold occurrences, guarded.
  destruct result; simpl; rewrite ?H; destruct (f call); reflexivity.
Qed.

Lemma quiet_occurrences tr :
  quiet tr ->
  occurrences (@pev_is_shutdown Item) tr = 0%nat /\
  occurrences (@pev_is_work_complete Item) tr = 0%nat.
Proof.
  unfold occurrences. induction 1 as [|e tr [H1 H2] _ IH]; simpl; auto.
  rewrite H1, H2. exact IH.
Qed.

Lemma quiet_all_before tr1 tr2 :
  quiet tr1 ->
  all_before (@pev_is_shutdown Item) (@pev_is_work_complete Item)
    (tr1 ++ tr2)
  = all_before (@pev_is_shutdown Item) (@pev_is_work_complete Item) tr2.
Proof.
  induction 1 as [|e tr [H1 H2] _ IH]; simpl; auto.
  rewrite H2. exact IH.
Qed.

Lemma work_loop_quiet (ticks : list (wtick Item)) b
  (r : outcome unit) (b' : breaker) tr :
  work_loop b ticks = Some (r, b', tr) -> quiet tr.
Proof.
  revert b r b' tr. induction ticks as [|k ticks IH]; intros b r b' tr;
    simpl; [discriminate|].
  destruct (Breaker.is_tripped _ None (w_t1 k) (w_t2 k)) as [tripped b1].
  destruct tripped.
  { intros E. injection E as <- <- <-. repeat constructor. }
  specialize (IH b1).
  destruct (w_get k) as [item|e].
  - destruct (w_submit k) as [u|e].
    + destruct (work_loop b1 ticks) as [[[r1 b2] tr1]|]; [|discriminate].
      intros E. injection E as <- <- <-.
      repeat constructor. apply (IH _ _ _ eq_refl).
    + destruct e;
        try (intros E; injection E as <- <- <-; repeat constructor).
      destruct (w_done k).
      * intros E. injection E as <- <- <-. repeat constructor.
      * destruct (work_loop b1 ticks) as [[[r1 b2] tr1]|]; [|discriminate].
        intros E. injection E as <- <- <-.
        repeat constructor. apply (IH _ _ _ eq_refl).
  - destruct e;
      try (intros E; injection E as <- <- <-; repeat constructor).
    destruct (w_done k).
    + intros E. injection E as <- <- <-. repeat constructor.
    + destruct (work_loop b1 ticks) as [[[r1 b2] tr1]|]; [|discriminate].
      intros E. injection E as <- <- <-.
      repeat constructor. apply (IH _ _ _ eq_refl).
Qed.

(** The loop ends at the latest on a tick that leaves it. *)
Lemma work_loop_ends (ticks : list (wtick Item)) b :
  Exists (fun k => wtick_leaves k = true) ticks ->
  work_loop b ticks <> None.
Proof.
  revert b. induction ticks as [|k ticks IH]; intros b H.
  - inversion H.
  - simpl.
    destruct (Breaker.is_tripped _ None (w_t1 k) (w_t2 k)) as [tripped b1].
    destruct tripped; [discriminate|].
    specialize (IH b1).
    assert (C : wtick_leaves k = false -> work_loop b1 ticks <> None).
    { intros Hk. apply IH. inversion H; subst; [congruence | assumption]. }
    unfold wtick_leaves in C.
    destruct (w_get k) as [item|e].
    + destruct (w_submit k) as [u|e].
      * destruct (work_loop b1 ticks) as [[[r1 b2] tr1]|];
          [discriminate | now apply C].
      * destruct e; try discriminate.
        destruct (w_done k); [discriminate|].
        destruct (work_loop b1 ticks) as [[[r1 b2] tr1]|];
          [discriminate | now apply C].
    + destruct e; try discriminate.
      destruct (w_done k); [discriminate|].
      destruct (work_loop b1 ticks) as [[[r1 b2] tr1]|];
        [discriminate | now apply C].
Qed.

Lemma work_body_quiet (h : work_hooks) (process_rate : Q) (max_threads : Z)
  b (ticks : list (wtick Item)) (r : outcome unit) (ex : bool)
  (b' : breaker) tr :
  work_body h process_rate max_threads b ticks = Some (r, ex, b', tr) ->
  quiet tr /\ ex = executor_bound Item h process_rate max_threads.
Proof.
  unfold work_body, executor_bound.
  destruct (_on_work_process_setup h).
  2:{ intros E. injection E as <- <- <- <-. split; repeat constructor. }
  destruct (RateLimiter.__init__ process_rate 5).
  2:{ intros E. injection E as <- <- <- <-. split; repeat constructor. }
  destruct (BoundedExecutor.__init__ Item max_threads max_threads).
  2:{ intros E. injection E as <- <- <- <-. split; repeat constructor. }
  destruct (work_loop b ticks) as [[[r1 b1] tr1]|] eqn:L; [|discriminate].
  intros E. injection E as <- <- <- <-. split; [|reflexivity].
  repeat constructor. apply (work_loop_quiet _ _ L).
Qed.

Lemma work_cleanup_counts (h : work_hooks) (ex : bool) :
  occurrences (@pev_is_shutdown Item) (work_cleanup Item h ex)
  = (if ex then 1%nat else 0%nat) /\
  occurrences (@pev_is_work_complete Item) (work_cleanup Item h ex)
  = 1%nat /\
  all_before (@pev_is_shutdown Item) (@pev_is_work_complete Item)
    (work_cleanup Item h ex) = true.
Proof.
  unfold work_cleanup, guarded.
  destruct ex, (executor_shutdown h), (_on_work_process_complete h);
    repeat split.
Qed.

Lemma acquisition_entry_cleanup (s a c : outcome unit) b :
  exists pre,
    snd (_acquisition_process_entry Item (mkAcquisitionHooks s a c) b)
    = pre ++ guarded OnAcquisitionProcessComplete c /\
    occurrences (@pev_is_acquisition_complete Item) pre = 0%nat.
Proof.
  assert (B : occurrences (@pev_is_acquisition_complete Item)
                (snd (acquisition_body Item (mkAcquisitionHooks s a c)))
              = 0%nat).
  { unfold acquisition_body. simpl.
    destruct s; [destruct a|]; reflexivity. }
  unfold _acquisition_process_entry.
  destruct (acquisition_body Item (mkAcquisitionHooks s a c))
    as [[r d] tr0]. simpl in B |- *.
  destruct r as [u|e].
  - exists tr0. auto.
  - destruct e; simpl;
      try (exists (tr0 ++ [LogException; BreakerTrip reason_acquisition]);
           rewrite <- app_assoc, occurrences_app, B; split; reflexivity).
    exists (tr0 ++ [LogError]).
    rewrite <- app_assoc, occurrences_app, B. split; reflexivity.
Qed.

Lemma acquisition_entry_outcome (s a c1 c2 : outcome unit) b :
  fst (_acquisition_process_entry Item (mkAcquisitionHooks s a c1) b)
  = fst (_acquisition_process_entry Item (mkAcquisitionHooks s a c2) b).
Proof.
  unfold _acquisition_process_entry, acquisition_body. simpl.
  destruct s as [u|e]; [destruct a as [u'|e]|]; try destruct e; reflexivity.
Qed.

Lemma work_entry_outcome (s sd1 c1 sd2 c2 : outcome unit)
  (process_rate : Q) (max_threads : Z) b (ticks : list (wtick Item)) :
  option_map fst
    (_work_process_entry (mkWorkHooks s sd1 c1) process_rate max_threads b
       ticks)
  = option_map fst
      (_work_process_entry (mkWorkHooks s sd2 c2) process_rate max_threads b
         ticks).
Proof.
  unfold _work_process_entry, work_body. simpl.
  destruct s as [u|e]; [|reflexivity].
  destruct (RateLimiter.__init__ process_rate 5); [|reflexivity].
  destruct (BoundedExecutor.__init__ Item max_threads max_threads);
    [|reflexivity].
  destruct (work_loop b ticks) as [[[r1 b1] tr1]|]; [|reflexivity].
  destruct r1; reflexivity.
Qed.

Lemma work_entry_cleanup (h : work_hooks) (process_rate : Q)
  (max_threads : Z) b (ticks : list (wtick Item))
  (r : outcome unit) (b' : breaker) tr :
  _work_process_entry h process_rate max_threads b ticks = Some (r, b', tr) ->
  exists pre,
    tr = pre ++ work_cleanup Item h
                  (executor_bound Item h process_rate max_threads) /\
    quiet pre.
Proof.
  unfold _work_process_entry.
  destruct (work_body h process_rate max_threads b ticks)
    as [[[[r1 ex] b1] tr1]|] eqn:B; [|discriminate].
  destruct (work_body_quiet _ _ _ _ _ B) as [Hq ->].
  destruct r1 as [u|e]; intros E; injection E as <- <- <-.
  - exists tr1. auto.
  - exists (tr1 ++ [LogException; BreakerTrip reason_work]).
    rewrite <- app_assoc. split; [reflexivity|].
    apply Forall_app. split; [exact Hq|]. repeat constructor.
Qed.

Lemma work_entry_ends (h : work_hooks) (process_rate : Q)
  (max_threads : Z) b (ticks : list (wtick Item)) :
  executor_bound Item h process_rate max_threads = false \/
  Exists (fun k => wtick_leaves k = true) ticks ->
  _work_process_entry h process_rate max_threads b ticks <> None.
Proof.
  unfold _work_process_entry, work_body, executor_bound.
  destruct (_on_work_process_setup h); [|discriminate].
  destruct (RateLimiter.__init__ process_rate 5); [|discriminate].
  destruct (BoundedExecutor.__init__ Item max_threads max_threads);
    [|discriminate].
  intros [H|H]; [discriminate|].
  pose proof (work_loop_ends b H) as L.
  destruct (work_loop b ticks) as [[[r1 b1] tr1]|]; [|congruence].
  destruct r1; discriminate.
Qed.

(** C9 (as the code has it).  The acquisition process, however its setup
    hook and [_acquire_work] end (a return, [BreakerTrippingException],
    any other exception, a [KeyboardInterrupt]): its trace ends with the
    guarded call of [_on_acquisition_process_complete], which is the only
    call of that hook; and how the process ends, the breaker and the done
    flag are the same whether the hook returns or raises.  A work process
    that exits, however it exits: its trace ends with the cleanup region,
    in which [executor.shutdown()] is called exactly once if the outer
    [try] block got as far as creating the executor, and not at all if it
    did not, and then [_on_work_process_complete] is called, exactly once
    in the whole trace and after the shutdown; how the process ends and
    the breaker are the same whatever the shutdown and the hook return or
    raise.  A work process exits when its setup fails, and otherwise at the
    latest on a tick that leaves the loop. *)
Theorem C9_cleanup_runs_once_and_keeps_its_exceptions :
  (forall (s a c : outcome unit) b,
      let tr :=
        snd (_acquisition_process_entry Item (mkAcquisitionHooks s a c) b) in
      occurrences (@pev_is_acquisition_complete Item) tr = 1%nat /\
      (exists pre, tr = pre ++ guarded OnAcquisitionProcessComplete c) /\
      fst (_acquisition_process_entry Item (mkAcquisitionHooks s a c) b)
      = fst (_acquisition_process_entry Item
               (mkAcquisitionHooks s a (Return tt)) b)) /\
  (forall (h : work_hooks) (process_rate : Q) (max_threads : Z) b
          (ticks : list (wtick Item)) (r : outcome unit) (b' : breaker) tr,
      _work_process_entry h process_rate max_threads b ticks
      = Some (r, b', tr) ->
      occurrences (@pev_is_work_complete Item) tr = 1%nat /\
      occurrences (@pev_is_shutdown Item) tr
      = (if executor_bound Item h process_rate max_threads
         then 1%nat else 0%nat) /\
      all_before (@pev_is_shutdown Item) (@pev_is_work_complete Item) tr
      = true /\
      (exists pre,
          tr = pre ++ work_cleanup Item h
                        (executor_bound Item h process_rate max_threads) /\
          quiet pre) /\
      option_map fst
        (_work_process_entry
           (mkWorkHooks (_on_work_process_setup h) (Return tt) (Return tt))
           process_rate max_threads b ticks)
      = Some (r, b')) /\
  (forall (h : work_hooks) (process_rate : Q) (max_threads : Z) b
          (ticks : list (wtick Item)),
      executor_bound Item h process_rate max_threads = false \/
      Exists (fun k => wtick_leaves k = true) ticks ->
      _work_process_entry h process_rate max_threads b ticks <> None).
Proof.
  split; [|split].
  - intros s a c b. cbv zeta.
    destruct (acquisition_entry_cleanup s a c b) as (pre & E & Hpre).
    rewrite E, occurrences_app, Hpre, occurrences_guarded by reflexivity.
    repeat split; [now exists pre | apply acquisition_entry_outcome].
  - intros h process_rate max_threads b ticks r b' tr E.
    destruct (work_entry_cleanup _ _ _ _ _ E) as (pre & -> & Hq).
    destruct (quiet_occurrences Hq) as [Q1 Q2].
    destruct (work_cleanup_counts h
                (executor_bound Item h process_rate max_threads))
      as (C1 & C2 & C3).
    rewrite !occurrences_app, Q1, Q2, C1, C2, (quiet_all_before _ Hq), C3.
    repeat split; [now exists pre|].
    destruct h as [s sd c]. simpl.
    rewrite (work_entry_outcome s (Return tt) (Return tt) sd c), E.
    reflexivity.
  - apply work_entry_ends.
Qed.

End EntryFacts.

(** C9 witness: a work process that handles one item and then finds the
    queue empty and the done flag set; the shutdown and the completion hook
    both raise. *)
Lemma C9_cleanup_witness :
  let h :=
    mkWorkHooks (Return tt) (Raise (UserError 1)) (Raise KeyboardInterrupt) in
  let b := Breaker.__init__ string default_granularity 0 in
  let ticks := [mkWtick [] 1 1 (Return 7%nat) (Return tt) false;
                mkWtick [] 2 2 (Raise QueueEmpty) (Return tt) true] in
  let tr := [OnWorkProcessSetup; NewRateLimiter; NewExecutor;
             BreakerPolled false; QueueGet; ExecutorSubmit 7%nat;
             BreakerPolled false; QueueGet; DoneIsSet true;
             ExecutorShutdown; LogException;
             OnWorkProcessComplete; LogException] in
  _work_process_entry h 10 4 b ticks
  = Some (Return tt,
          (Breaker.mkShared false [], Breaker.mkLocal false 2 (1 # 10)), tr) /\
  occurrences (@pev_is_work_complete nat) tr = 1%nat /\
  occurrences (@pev_is_shutdown nat) tr = 1%nat /\
  all_before (@pev_is_shutdown nat) (@pev_is_work_complete nat) tr = true.
Proof.
  cbv zeta. split; [reflexivity|].
  destruct (C9_cleanup_runs_once_and_keeps_its_exceptions nat) as (_ & H & _).
  destruct (H (mkWorkHooks (Return tt) (Raise (UserError 1))
                 (Raise KeyboardInterrupt))
              10 4%Z (Breaker.__init__ string default_granularity 0)
              [mkWtick [] 1 1 (Return 7%nat) (Return tt) false;
               mkWtick [] 2 2 (Raise QueueEmpty) (Return tt) true]
              _ _ _ eq_refl) as (H1 & H2 & H3 & _).
  split; [exact H1|]. split; [exact H2 | exact H3].
Defined.

(** C9, the claim as worded: in a work process the completion hook is
    preceded by the executor shutdown on every exit path.  Here
    [_on_work_process_setup] raises: [executor] is still [None] in the
    [finally] block, [if executor:] skips the shutdown, and the hook runs
    without any shutdown before it. *)
Lemma C9_no_shutdown_when_setup_raises :
  let h := mkWorkHooks (Raise (UserError 1)) (Return tt) (Return tt) in
  let b := Breaker.__init__ string default_granularity 0 in
  let tr : list (pev nat) :=
    [OnWorkProcessSetup; LogException; BreakerTrip reason_work;
     OnWorkProcessComplete] in
  _work_process_entry h 10 4 b []
  = Some (Raise (UserError 1), Breaker.trip b reason_work, tr) /\
  occurrences (@pev_is_shutdown nat) tr = 0%nat /\
  occurrences (@pev_is_work_complete nat) tr = 1%nat.
Proof. cbv zeta. repeat split. Qed.

(** The same exit without an executor when the rate is zero: the rate
    limiter is built first and divides by the rate. *)
Lemma work_entry_without_executor_at_rate_zero :
  executor_bound nat (mkWorkHooks (Return tt) (Return tt) (Return tt)) 0 4
  = false.
Proof. reflexivity. Qed.

Section RunFacts.
Variable Item : Type.

Local Open Scope Q_scope.

(** *** run *)

(** A [trip] leaves the shared objects the same whichever process makes
    it. *)
Lemma other_trip_shared (b : breaker) (r : string) :
  fst (other_trip b r) = fst (Breaker.trip b r).
Proof.
  unfold other_trip, Breaker.trip.
  destruct (Breaker.trip_put (fst b) r); reflexivity.
Qed.

Lemma other_trip_filled (b : breaker) (r : string) :
  Breaker._reason (fst b) <> [] -> other_trip b r = b.
Proof.
  intros H. unfold other_trip, Breaker.trip_put, BoundedQueue.put_nowait.
  destruct (Breaker._reason (fst b)); [congruence|reflexivity].
Qed.

Lemma others_trip_filled (rs : list string) (b : breaker) :
  Breaker._reason (fst b) <> [] -> others_trip b rs = b.
Proof.
  revert b. induction rs as [|r rs IH]; intros b H; [reflexivity|].
  unfold others_trip in *. simpl. rewrite (other_trip_filled b r H).
  now apply IH.
Qed.

(** The shared breaker when all children have exited: tripped with the
    reason of the first [trip], or untouched. *)
Lemma breaker_after_join_is (w : world) :
  breaker_after_join w
  = (match child_trips w with
     | [] => Breaker.mkShared false []
     | r :: _ => Breaker.mkShared true [r]
     end,
     Breaker.mkLocal false (built w) default_granularity).
Proof.
  unfold breaker_after_join. destruct (child_trips w) as [|r rs];
    [reflexivity|].
  unfold others_trip. simpl.
  fold (others_trip
          (other_trip (Breaker.__init__ string default_granularity (built w)) r)
          rs).
  rewrite others_trip_filled; [reflexivity|]. simpl. discriminate.
Qed.

Lemma float_returns (n : Z) :
  (Z.abs n < 2 ^ 1024 - 2 ^ 970)%Z -> float n = Return (inject_Z n).
Proof.
  intros H. unfold float. apply Z.ltb_lt in H. rewrite H. reflexivity.
Qed.

Lemma float_raises (n : Z) (e : exn) :
  float n = Raise e ->
  e = OverflowError /\ (2 ^ 1024 - 2 ^ 970 <= Z.abs n)%Z.
Proof.
  unfold float.
  destruct (Z.abs n <? 2 ^ 1024 - 2 ^ 970)%Z eqn:E; [discriminate|].
  intros H. injection H as <-. apply Z.ltb_ge in E. auto.
Qed.

(** How [float(self._rate) / float(self._work_processes)] ends. *)
Lemma process_rate_cases (c : config) :
  let big := (2 ^ 1024 - 2 ^ 970)%Z in
  ((big <= Z.abs (_rate c))%Z /\ _process_rate c = Raise OverflowError) \/
  ((Z.abs (_rate c) < big)%Z /\ (big <= Z.abs (_work_processes c))%Z /\
   _process_rate c = Raise OverflowError) \/
  ((Z.abs (_rate c) < big)%Z /\ _work_processes c = 0%Z /\
   _process_rate c = Raise ZeroDivisionError) \/
  ((Z.abs (_rate c) < big)%Z /\ (Z.abs (_work_processes c) < big)%Z /\
   _work_processes c <> 0%Z /\
   _process_rate c
   = Return (inject_Z (_rate c) / inject_Z (_work_processes c))).
Proof.
  cbv zeta. unfold _process_rate, float.
  destruct (Z.abs (_rate c) <? 2 ^ 1024 - 2 ^ 970)%Z eqn:E1.
  2:{ left. apply Z.ltb_ge in E1. auto. }
  apply Z.ltb_lt in E1.
  destruct (Z.abs (_work_processes c) <? 2 ^ 1024 - 2 ^ 970)%Z eqn:E2.
  2:{ right. left. apply Z.ltb_ge in E2. auto. }
  apply Z.ltb_lt in E2.
  destruct (Qeq_bool (inject_Z (_work_processes c)) 0) eqn:E3.
  - right. right. left. apply Qeq_bool_iff in E3.
    unfold Qeq, inject_Z in E3. cbn in E3. split; [exact E1|].
    split; [lia | reflexivity].
  - right. right. right. repeat split; auto.
    intros H. rewrite H in E3. discriminate.
Qed.

(** [run()] once the conversions and the constructors have gone through
    and every [join] has returned: the poll reads the shared event exactly
    when the default granularity has passed since the breaker was built. *)
Lemma run_after_join (c : config) (w : world) (q : Q) :
  _configured c = true ->
  _process_rate c = Return q ->
  Queue (_queue_maxsize c) = Return tt ->
  joined w = true ->
  let n := process_count c in
  let seen := Qle_bool default_granularity (poll1 w - built w) in
  run c w
  = Some (match child_trips w with
          | r :: _ =>
              if seen then Raise (BreakerTrippedException r) else Return tt
          | [] => Return tt
          end,
          (map ProcessStart (seq 0 n) ++ map ProcessJoin (seq 0 n))
          ++ [ParentPolled
                (seen && match child_trips w with
                         | [] => false
                         | _ :: _ => true
                         end)]).
Proof.
  intros Hc Hr Hq Hj. cbv zeta. unfold run.
  rewrite Hc, Hr, Hq, Hj. cbn [negb].
  fold (breaker_after_join w). rewrite breaker_after_join_is.
  unfold Breaker.is_tripped, Breaker.refresh_due, Breaker.use_granularity.
  cbn [Breaker._granularity Breaker._checked Breaker._cached
       Breaker._event].
  change (Qle_bool default_granularity 0) with false. cbn [orb].
  destruct (Qle_bool default_granularity (poll1 w - built w));
    destruct (child_trips w); reflexivity.
Qed.

(** With every [join] returned and a poll that reads the shared event,
    [run()] returns normally if no child tripped the breaker and raises
    [BreakerTrippedException] with the reason of the first [trip]
    otherwise. *)
Lemma run_reports_the_breaker_on_a_fresh_poll
  (c : config) (w : world) (q : Q) :
  _configured c = true ->
  _process_rate c = Return q ->
  Queue (_queue_maxsize c) = Return tt ->
  joined w = true ->
  default_granularity <= poll1 w - built w ->
  (forall r rs, child_trips w = r :: rs ->
                exists tr,
                  run c w = Some (Raise (BreakerTrippedException r), tr)) /\
  (child_trips w = [] -> exists tr, run c w = Some (Return tt, tr)).
Proof.
  intros Hc Hr Hq Hj Hg.
  rewrite (run_after_join c w Hc Hr Hq Hj).
  apply Qle_bool_iff in Hg. rewrite Hg. split.
  - intros r rs E. rewrite E. eexists. reflexivity.
  - intros E. rewrite E. eexists. reflexivity.
Qed.

End RunFacts.

(** C1.  The claim fails on a pipeline that fails fast.  One work
    process, whose setup hook raises: the process trips the breaker with
    the reason of [_work_process_entry] and ends.  The acquisition process
    sees the trip and ends too, and the last [join] returns 0.05 s after
    [run()] built the breaker.  The poll of [run()] then answers from the
    parent's cached [False], which dates from the construction of the
    breaker: the shared event is set, the reason is queued, and [run()]
    returns normally.  With the same children and a poll 0.2 s after the
    construction, [run()] raises [BreakerTrippedException] with that
    reason. *)
Theorem C1_run_returns_normally_although_tripped :
  let h := mkWorkHooks (Raise (UserError 1)) (Return tt) (Return tt) in
  let b := Breaker.__init__ string default_granularity 0 in
  let c := __init__ 1 1024 1024 10 in
  let w := mkWorld 0 [reason_work] (1 # 20) (1 # 20) true in
  let started := [ProcessStart 0; ProcessStart 1;
                  ProcessJoin 0; ProcessJoin 1] in
  _process_rate c = Return 10 /\
  @_work_process_entry nat h 10 1024 b []
  = Some (Raise (UserError 1), Breaker.trip b reason_work,
          [OnWorkProcessSetup; LogException; BreakerTrip reason_work;
           OnWorkProcessComplete]) /\
  fst (Breaker.trip b reason_work) = fst (breaker_after_join w) /\
  Breaker._event (fst (breaker_after_join w)) = true /\
  Breaker._reason (fst (breaker_after_join w)) = [reason_work] /\
  run c w = Some (Return tt, started ++ [ParentPolled false]) /\
  run c (mkWorld 0 [reason_work] (1 # 5) (1 # 5) true)
  = Some (Raise (BreakerTrippedException reason_work),
          started ++ [ParentPolled true]).
Proof. cbv zeta. repeat split. Qed.

(** [run()] on an object whose [_configured] attribute is missing (a
    subclass whose [__init__] does not call the base one, and no call of
    [argparse]) raises [UnconfiguredException], before any process
    exists. *)
Lemma run_raises_unconfigured :
  run (mkConfig false 1 1024 1024 10) (mkWorld 0 [] 3 3 true)
  = Some (Raise UnconfiguredException, []).
Proof. reflexivity. Qed.

(** With [work_processes = 0] the division
    [float(self._rate) / float(self._work_processes)] raises; with a rate
    beyond the range of a double, [float(self._rate)] raises before it. *)
Lemma run_raises_zero_division_without_work_processes :
  run (__init__ 0 1024 1024 10) (mkWorld 0 [] 3 3 true)
  = Some (Raise ZeroDivisionError, []) /\
  run (__init__ 0 1024 1024 (10 ^ 400)) (mkWorld 0 [] 3 3 true)
  = Some (Raise OverflowError, []).
Proof. split; reflexivity. Qed.

(** A [join] that never returns: [run()] does not return either. *)
Lemma run_blocks_with_a_join :
  run (__init__ 2 4 8 1000) (mkWorld 0 ["first"%string] 3 3 false) = None.
Proof. reflexivity. Qed.

End WorkQueueFacts.

(** * Further properties *)

(** ** The breaker *)

Module BreakerExtra.
Import Breaker BreakerTrace.

Section Facts.
Variable R : Type.
Implicit Types (st : state R) (r : R) (o : op R).

Local Open Scope Q_scope.

Lemma trip_fills st r : _reason (fst (trip st r)) <> [].
Proof.
  destruct (_reason (fst st)) as [|x q] eqn:E.
  - rewrite (BreakerFacts.trip_empty st r E). simpl. discriminate.
  - rewrite BreakerFacts.trip_filled; rewrite E; discriminate.
Qed.

Lemma exec_app (ops1 ops2 : list (op R)) st :
  exec st (ops1 ++ ops2) = exec (exec st ops1) ops2.
Proof. unfold exec. apply fold_left_app. Qed.

Lemma polls_app (ops1 ops2 : list (op R)) st :
  polls st (ops1 ++ ops2) = polls st ops1 ++ polls (exec st ops1) ops2.
Proof.
  revert st. induction ops1 as [|o ops1 IH]; intros st; [reflexivity|].
  simpl. unfold exec in *. simpl.
  destruct (step st o) as [st' [b|]]; simpl; rewrite IH; reflexivity.
Qed.

Lemma polls_is_tripped st (g : option Q) (t1 t2 : Q) (post : list (op R)) :
  polls st (IsTripped g t1 t2 :: post)
  = fst (is_tripped st g t1 t2) :: polls (snd (is_tripped st g t1 t2)) post.
Proof. simpl. destruct (is_tripped st g t1 t2). reflexivity. Qed.

Lemma put_nowait_capacity (q q' : list R) (r : R) :
  (List.length q <= 1)%nat ->
  BoundedQueue.put_nowait 1 q r = Some q' -> (List.length q' <= 1)%nat.
Proof.
  unfold BoundedQueue.put_nowait.
  destruct q as [|x q]; simpl.
  - intros _ E. injection E as <-. simpl. lia.
  - discriminate.
Qed.

Lemma step_within_capacity st o :
  within_capacity st -> within_capacity (fst (step st o)).
Proof.
  unfold within_capacity. destruct st as [[ev rq] lo].
  destruct o as [r|g t1 t2|d|r| |]; simpl; intros H.
  - unfold trip, trip_put. simpl.
    destruct (BoundedQueue.put_nowait 1 rq r) as [q|] eqn:E; simpl;
      [|exact H].
    apply (put_nowait_capacity _ _ H E).
  - destruct (refresh_due lo g t1); exact H.
  - unfold consume_reason. simpl.
    destruct rq as [|x q]; [|destruct d]; simpl in *; lia.
  - unfold env_put, trip_put. simpl.
    destruct (BoundedQueue.put_nowait 1 rq r) as [q|] eqn:E; simpl;
      [|exact H].
    apply (put_nowait_capacity _ _ H E).
  - exact H.
  - unfold env_get. simpl.
    destruct rq as [|x q]; simpl in *; lia.
Qed.

Lemma exec_within_capacity (ops : list (op R)) st :
  within_capacity st -> within_capacity (exec st ops).
Proof.
  revert st. induction ops as [|o ops IH]; intros st H; [exact H|].
  unfold exec in *. simpl. apply IH, step_within_capacity, H.
Qed.

Lemma consume_then_trip st r (d : bool) (r0 : R) :
  within_capacity st ->
  fst (consume_reason st d) = Return r0 ->
  _reason (fst st) = [r0] /\
  _reason (fst (trip (snd (consume_reason st d)) r)) = [r] /\
  fst (consume_reason (trip (snd (consume_reason st d)) r) true) = Return r.
Proof.
  unfold within_capacity. destruct st as [sh lo]. simpl.
  destruct sh as [ev q]. simpl. intros H.
  destruct q as [|x [|y q]], d; simpl in *; try lia; try discriminate.
  intros E. injection E as <-. repeat split.
Qed.

Lemma step_pending_refresh st0 st o :
  pending_refresh st0 st -> pending_refresh st0 (fst (step st o)).
Proof.
  unfold pending_refresh, latched. destruct st as [sh lo]. simpl.
  intros (He & Hg & Hc).
  destruct o as [r|g t1 t2|d|r| |]; simpl.
  - unfold trip, trip_put. simpl.
    destruct (BoundedQueue.put_nowait 1 (_reason sh) r); simpl; auto.
  - destruct (refresh_due lo g t1); simpl; auto.
  - unfold consume_reason. simpl.
    destruct (BoundedQueue.get_nowait (_reason sh) d) as [[? ?]|];
      simpl; auto.
  - unfold env_put, trip_put. simpl.
    destruct (BoundedQueue.put_nowait 1 (_reason sh) r); simpl; auto.
  - repeat split; auto. destruct Hc as [[Hc _]|Hc]; auto.
  - unfold env_get. simpl.
    destruct (BoundedQueue.get_nowait (_reason sh) true) as [[? ?]|];
      simpl; auto.
Qed.

Lemma exec_pending_refresh (ops : list (op R)) st0 st :
  pending_refresh st0 st -> pending_refresh st0 (exec st ops).
Proof.
  revert st. induction ops as [|o ops IH]; intros st H; [exact H|].
  unfold exec in *. simpl. apply IH, step_pending_refresh, H.
Qed.

(** X1.  Once a [trip] call has returned, the reason slot is filled, and
    every further [trip] call of the same process, with whatever reasons,
    leaves the breaker exactly as it is. *)
Theorem X1_trip_absorbs_later_trips st r (rs : list R) :
  _reason (fst (trip st r)) <> [] /\
  trips (trip st r) rs = trip st r.
Proof.
  split; [apply trip_fills|].
  apply BreakerFacts.trips_filled, trip_fills.
Qed.

(** X2.  Whatever the processes do with a fresh breaker (their own calls,
    and the other processes' puts, sets and gets in any order), the reason
    queue never holds more than one reason. *)
Theorem X2_reason_queue_holds_at_most_one (g now : Q) (ops : list (op R)) :
  (List.length (_reason (fst (exec (__init__ R g now) ops))) <= 1)%nat.
Proof.
  apply (exec_within_capacity ops (st:=__init__ R g now)).
  unfold within_capacity. simpl. lia.
Qed.

(** X3.  The reason slot can be used again once the reason has been
    consumed, and not before.  In any state a fresh breaker can reach: a
    [consume_reason] that returns a reason returns the one in the slot and
    frees it, the next [trip] publishes its reason, and a
    [consume_reason] that finds this one delivered returns it, not the
    first one of the breaker's life.  A [consume_reason] that raises
    raises [queue.Empty] and changes nothing; when it raised because the
    reason was still under way, the slot is still taken and the next
    [trip] is dropped. *)
Theorem X3_trip_after_consume_publishes_again
  (g now : Q) (ops : list (op R)) r (d : bool) :
  let st := exec (__init__ R g now) ops in
  (forall r0, fst (consume_reason st d) = Return r0 ->
     _reason (fst st) = [r0] /\
     _reason (fst (trip (snd (consume_reason st d)) r)) = [r] /\
     fst (consume_reason (trip (snd (consume_reason st d)) r) true)
     = Return r) /\
  (forall e, fst (consume_reason st d) = Raise e ->
     e = QueueEmpty /\
     snd (consume_reason st d) = st /\
     (_reason (fst st) <> [] ->
      trip (snd (consume_reason st d)) r = st)).
Proof.
  cbv zeta. split.
  - intros r0. apply consume_then_trip.
    apply (exec_within_capacity ops (st:=__init__ R g now)).
    unfold within_capacity. simpl. lia.
  - intros e E.
    rewrite (BreakerFacts.consume_raises_keeps _ _ E).
    split; [|split; [reflexivity | apply BreakerFacts.trip_filled]].
    revert E. unfold consume_reason, BoundedQueue.get_nowait.
    destruct (_reason (fst (exec (__init__ R g now) ops))), d; simpl;
      congruence.
Qed.

(** The sequential form of X4: a process whose calls come one after the
    other, and whose view of the breaker is [st] while the shared event is
    set.  After any further calls of this process and of the others, a
    poll whose clock reading is at least the granularity it uses later
    than [_checked] of [st], or whose granularity is not positive, answers
    true, and so does every later poll. *)
Lemma poll_sees_the_event_within_granularity
  st (pre post : list (op R)) (g : option Q) (t1 t2 : Q) :
  _event (fst st) = true ->
  use_granularity (snd st) g <= 0 \/
  use_granularity (snd st) g <= t1 - _checked (snd st) ->
  exists l,
    polls st (pre ++ IsTripped g t1 t2 :: post) = polls st pre ++ true :: l /\
    Forall (eq true) l.
Proof.
  intros He Hd.
  assert (P : pending_refresh st (exec st pre)).
  { apply exec_pending_refresh. unfold pending_refresh. auto. }
  rewrite polls_app.
  destruct (exec st pre) as [sh lo] eqn:E.
  destruct P as (Pe & Pg & Pc). simpl in Pe, Pg, Pc.
  assert (U : use_granularity lo g = use_granularity (snd st) g).
  { unfold use_granularity. destruct g; [reflexivity | exact Pg]. }
  assert (A : is_tripped (sh, lo) g t1 t2 = (true, snd (is_tripped (sh, lo) g t1 t2))
              /\ latched (snd (is_tripped (sh, lo) g t1 t2))).
  { unfold is_tripped, latched.
    destruct (refresh_due lo g t1) eqn:Rd; simpl.
    - rewrite Pe. auto.
    - destruct Pc as [[Hc _]|Hc]; [simpl in Hc; rewrite Hc; auto|].
      exfalso. apply BreakerFacts.refresh_due_false in Rd.
      rewrite U, Hc in Rd. destruct Rd as [R1 R2].
      destruct Hd as [Hd|Hd].
      + apply (Qlt_not_le _ _ R1 Hd).
      + apply (Qlt_not_le _ _ R2 Hd). }
  destruct A as [A1 A2].
  rewrite polls_is_tripped, A1.
  exists (polls (snd (is_tripped (sh, lo) g t1 t2)) post).
  split; [reflexivity|].
  apply BreakerFacts.polls_latched, A2.
Qed.

(** *** Among the threads of one process *)

Lemma step_settled (p : BreakerThreads.process R)
  (a : BreakerThreads.action R) :
  BreakerThreads.settled p ->
  BreakerThreads.settled (fst (BreakerThreads.step p a)) /\
  (_cached (BreakerThreads.attrs p) = true ->
   _cached (BreakerThreads.attrs (fst (BreakerThreads.step p a))) = true) /\
  (forall i b, snd (BreakerThreads.step p a) = Some (i, b) ->
               b = _cached (BreakerThreads.attrs p)).
Proof.
  intros [He Hs]. unfold BreakerThreads.settled.
  pose proof (@BreakerFacts.step_keeps_event R p a He) as K.
  split; [split; [exact K|]|split].
  - destruct a as [i g|i t|r| |i r|]; cbn; try exact Hs.
    + destruct (BreakerThreads.threads p i) eqn:E; cbn; try exact Hs.
      intros j. unfold BreakerThreads.move.
      destruct (Nat.eqb j i); [discriminate | apply Hs].
    + destruct (BreakerThreads.threads p i) as [|g| |v| | |r| |] eqn:E;
        cbn; try exact Hs;
        try destruct (trip_put (BreakerThreads.objects p) r);
        cbn; intros j; unfold BreakerThreads.move;
        (destruct (Nat.eqb j i); [|apply Hs]); try discriminate.
      * destruct (refresh_due (BreakerThreads.attrs p) g t); discriminate.
      * rewrite He. discriminate.
    + destruct (BreakerThreads.threads p i) eqn:E; cbn; try exact Hs.
      intros j. unfold BreakerThreads.move.
      destruct (Nat.eqb j i); [discriminate | apply Hs].
  - destruct a as [i g|i t|r| |i r|]; cbn; auto.
    + destruct (BreakerThreads.threads p i); auto.
    + destruct (BreakerThreads.threads p i) as [|g| |v| | |r| |] eqn:E;
        cbn; auto.
      * intros _. destruct v; [reflexivity|]. exfalso. apply (Hs i E).
      * destruct (trip_put (BreakerThreads.objects p) r); auto.
    + destruct (BreakerThreads.threads p i); auto.
  - intros i b. destruct a as [j g|j t|r| |j r|]; cbn; try discriminate.
    + destruct (BreakerThreads.threads p j); discriminate.
    + destruct (BreakerThreads.threads p j) as [|g| |v| | |r| |];
        cbn; try discriminate.
      * intros V. congruence.
      * destruct (trip_put (BreakerThreads.objects p) r); discriminate.
    + destruct (BreakerThreads.threads p j); discriminate.
Qed.

Lemma run_cons (p : BreakerThreads.process R) (a : BreakerThreads.action R)
  (acts : list (BreakerThreads.action R)) :
  BreakerThreads.run p (a :: acts)
  = (fst (BreakerThreads.run (fst (BreakerThreads.step p a)) acts),
     match snd (BreakerThreads.step p a) with
     | Some x =>
         x :: snd (BreakerThreads.run (fst (BreakerThreads.step p a)) acts)
     | None => snd (BreakerThreads.run (fst (BreakerThreads.step p a)) acts)
     end).
Proof.
  cbn [BreakerThreads.run]. destruct (BreakerThreads.step p a) as [p1 r].
  cbn [fst snd]. destruct (BreakerThreads.run p1 acts). reflexivity.
Qed.

Lemma run_settled (acts : list (BreakerThreads.action R))
  (p : BreakerThreads.process R) :
  BreakerThreads.settled p ->
  BreakerThreads.settled (fst (BreakerThreads.run p acts)) /\
  (_cached (BreakerThreads.attrs p) = true ->
   Forall (fun x => snd x = true) (snd (BreakerThreads.run p acts))).
Proof.
  revert p. induction acts as [|a acts IH]; intros p S.
  - split; [exact S | constructor].
  - rewrite run_cons. cbn [fst snd].
    destruct (step_settled a S) as (S1 & C1 & V1).
    destruct (IH _ S1) as (S2 & L2).
    split; [exact S2|]. intros C.
    destruct (snd (BreakerThreads.step p a)) as [[i b]|] eqn:E;
      [|exact (L2 (C1 C))].
    constructor; [|exact (L2 (C1 C))].
    cbn. rewrite (V1 i b eq_refl). exact C.
Qed.

Lemma run_latches (acts : list (BreakerThreads.action R))
  (p : BreakerThreads.process R) (l1 l2 : list (nat * bool)) (i : nat) :
  BreakerThreads.settled p ->
  snd (BreakerThreads.run p acts) = l1 ++ (i, true) :: l2 ->
  Forall (fun x => snd x = true) l2.
Proof.
  revert p l1. induction acts as [|a acts IH]; intros p l1 S.
  - cbn. destruct l1; discriminate.
  - rewrite run_cons. cbn [fst snd].
    destruct (step_settled a S) as (S1 & C1 & V1).
    destruct (snd (BreakerThreads.step p a)) as [[j b]|] eqn:E;
      [|apply (IH _ l1 S1)].
    destruct l1 as [|x l1]; cbn; intros V.
    + injection V as -> -> V2.
      rewrite <- V2. apply run_settled; [exact S1|].
      apply C1. symmetry. apply (V1 i true eq_refl).
    + injection V as _ V2. apply (IH _ l1 S1 V2).
Qed.

(** X4.  Bounded staleness among the threads of one process.  Take the
    process at a moment when the shared event is set and no thread holds a
    value of the event that it read before and has not yet stored.  Under
    every schedule from there on (calls of [is_tripped] and of [trip] by
    its threads, their statements in any order, and what the other
    processes do to the shared objects) this stays so; from the first
    call that returns true, every call of every thread returns true; and
    after the schedule a call that nothing interrupts, and whose clock
    reading is at least the granularity it uses later than [_checked], or
    whose granularity is not positive, returns true. *)
Theorem X4_settled_breaker_latches_among_threads
  (p : BreakerThreads.process R) (acts : list (BreakerThreads.action R)) :
  BreakerThreads.settled p ->
  let r := BreakerThreads.run p acts in
  BreakerThreads.settled (fst r) /\
  (forall l1 l2 i, snd r = l1 ++ (i, true) :: l2 ->
                   Forall (fun x => snd x = true) l2) /\
  (forall i g t1 t2,
      BreakerThreads.threads (fst r) i = BreakerThreads.Idle ->
      match g with
      | Some g' => g'
      | None => _granularity (BreakerThreads.attrs p)
      end <= 0 \/
      match g with
      | Some g' => g'
      | None => _granularity (BreakerThreads.attrs p)
      end <= t1 - _checked (BreakerThreads.attrs (fst r)) ->
      snd (BreakerThreads.run (fst r) (BreakerThreads.call i g t1 t2))
      = [(i, true)]).
Proof.
  intros S. cbv zeta.
  destruct (run_settled acts S) as (S' & _).
  split; [exact S'|]. split.
  - intros l1 l2 i. apply run_latches. exact S.
  - intros i g t1 t2 Hi Hd.
    destruct (BreakerFacts.call_is_is_tripped _ i g t1 t2 Hi) as (E & _).
    rewrite E. f_equal. f_equal.
    assert (G : _granularity
                  (BreakerThreads.attrs (fst (BreakerThreads.run p acts)))
                = _granularity (BreakerThreads.attrs p)).
    { clear. revert p. induction acts as [|a acts IH]; intros p;
        [reflexivity|].
      rewrite run_cons. cbn [fst]. rewrite IH.
      destruct a as [i g|i t|r| |i r|]; cbn; try reflexivity;
        destruct (BreakerThreads.threads p i) as [|g'| |v| | |r'| |];
        try reflexivity.
      destruct (trip_put (BreakerThreads.objects p) r'); reflexivity. }
    unfold is_tripped.
    assert (D : refresh_due
                  (BreakerThreads.attrs (fst (BreakerThreads.run p acts)))
                  g t1 = true).
    { apply BreakerFacts.refresh_due_true. unfold use_granularity.
      rewrite G. exact Hd. }
    rewrite D. cbn [fst]. apply S'.
Qed.

End Facts.

(** X4 witness: the breaker of C5's schedule once thread 0 has stored its
    stale [False]: the event is set, the cached value is false, no thread
    is in a call.  Thread 1 polls at 1.05 (cached: false) while thread 0
    polls at 1.2 (fresh: true); every call after that returns true. *)
Lemma X4_settled_witness :
  let p :=
    fst (BreakerThreads.run (BreakerThreads.fresh string (1 # 10) 0)
           [BreakerThreads.Call 0 None; BreakerThreads.Step 0 1;
            BreakerThreads.Step 0 1;
            BreakerThreads.OtherPut "r"%string; BreakerThreads.OtherSet;
            BreakerThreads.Step 0 1; BreakerThreads.Step 0 1;
            BreakerThreads.Step 0 1]) in
  let acts :=
    [BreakerThreads.Call 1 None; BreakerThreads.Call 0 None;
     BreakerThreads.Step 1 (21 # 20); BreakerThreads.Step 0 (6 # 5);
     BreakerThreads.Step 1 (21 # 20); BreakerThreads.Step 0 (6 # 5);
     BreakerThreads.Step 0 (6 # 5); BreakerThreads.Step 0 (6 # 5);
     BreakerThreads.Step 0 (6 # 5);
     BreakerThreads.Call 1 None; BreakerThreads.Step 1 (61 # 50);
     BreakerThreads.Step 1 (61 # 50)] in
  _event (BreakerThreads.objects p) = true /\
  _cached (BreakerThreads.attrs p) = false /\
  snd (BreakerThreads.run p acts)
  = [(1%nat, false)] ++ (0%nat, true) :: [(1%nat, true)] /\
  Forall (fun x : nat * bool => snd x = true) [(1%nat, true)].
Proof.
  cbv zeta. split; [reflexivity|]. split; [reflexivity|].
  split; [reflexivity|].
  refine (proj1 (proj2
    (@X4_settled_breaker_latches_among_threads string
       (fst (BreakerThreads.run (BreakerThreads.fresh string (1 # 10) 0)
               [BreakerThreads.Call 0 None; BreakerThreads.Step 0 1;
                BreakerThreads.Step 0 1;
                BreakerThreads.OtherPut "r"%string; BreakerThreads.OtherSet;
                BreakerThreads.Step 0 1; BreakerThreads.Step 0 1;
                BreakerThreads.Step 0 1]))
       [BreakerThreads.Call 1 None; BreakerThreads.Call 0 None;
        BreakerThreads.Step 1 (21 # 20); BreakerThreads.Step 0 (6 # 5);
        BreakerThreads.Step 1 (21 # 20); BreakerThreads.Step 0 (6 # 5);
        BreakerThreads.Step 0 (6 # 5); BreakerThreads.Step 0 (6 # 5);
        BreakerThreads.Step 0 (6 # 5);
        BreakerThreads.Call 1 None; BreakerThreads.Step 1 (61 # 50);
        BreakerThreads.Step 1 (61 # 50)] _))
    [(1%nat, false)] [(1%nat, true)] 0%nat eq_refl).
  split; [reflexivity|].
  intros i. destruct i; vm_compute; discriminate.
Defined.

End BreakerExtra.

(** ** The rate limiter *)

Module RateLimiterExtra.
Import RateLimiter.
Local Open Scope Q_scope.

Lemma chain_tail (A : Type) (P : A -> A -> Prop) (x : A) (l : list A) :
  chain P (x :: l) -> chain P l.
Proof. destruct l as [|y l]; simpl; [auto | tauto]. Qed.

Lemma chain_skipn (A : Type) (P : A -> A -> Prop) (i : nat) (l : list A) :
  chain P l -> chain P (skipn i l).
Proof.
  revert l. induction i as [|i IH]; intros l H; [exact H|].
  destruct l as [|x l]; [exact H|].
  simpl skipn. apply IH, (chain_tail _ _ _ H).
Qed.

Lemma nth_error_skipn (A : Type) (i k : nat) (l : list A) :
  nth_error (skipn i l) k = nth_error l (i + k).
Proof.
  revert l. induction i as [|i IH]; intros l; [reflexivity|].
  destruct l as [|x l]; simpl; [now destruct k | apply IH].
Qed.

Lemma inject_Z_succ (k : nat) :
  inject_Z (Z.of_nat (S k)) == inject_Z (Z.of_nat k) + 1.
Proof.
  rewrite Nat2Z.inj_succ. unfold Z.succ. rewrite inject_Z_plus. reflexivity.
Qed.

(** From the head of a chain of spaced releases to its [k]-th element. *)
Lemma spaced_from_head (d : Q) (k : nat) (a b : release) (l : list release) :
  chain (spaced d) (a :: l) ->
  nth_error (a :: l) k = Some b ->
  released a + inject_Z (Z.of_nat k) * d <= released b.
Proof.
  revert a l. induction k as [|k IH]; intros a l Hc Hn.
  - simpl in Hn. injection Hn as <-.
    change (inject_Z (Z.of_nat 0)) with 0. lra.
  - destruct l as [|y l]; [destruct k; discriminate|].
    simpl in Hn. destruct Hc as [(Hs & _ & _) Hc].
    pose proof (IH y l Hc Hn) as H.
    rewrite inject_Z_succ. lra.
Qed.

Lemma spaced_span (d : Q) (rs : list release) (i k : nat) (a b : release) :
  chain (spaced d) rs ->
  nth_error rs i = Some a ->
  nth_error rs (i + k) = Some b ->
  released a + inject_Z (Z.of_nat k) * d <= released b.
Proof.
  intros Hc Ha Hb.
  pose proof (chain_skipn _ i _ Hc) as Hc'.
  rewrite <- nth_error_skipn in Hb.
  assert (E : nth_error (skipn i rs) 0 = Some a).
  { rewrite nth_error_skipn, Nat.add_0_r. exact Ha. }
  destruct (skipn i rs) as [|x l]; [discriminate|].
  simpl in E. injection E as ->.
  eapply spaced_from_head; eassumption.
Qed.

(** X5.  Rate bound.  In a sequence of [wait] calls where each call enters
    no earlier than the previous one returned (report interval not
    negative), the release time of a call and the release time of the
    [k]-th call after it are at least [k] delays apart, and that later call
    returns no earlier than its release time: [k + 1] calls never get
    through in less than [k] delays, however long the limiter was idle
    before. *)
Theorem X5_k_calls_take_k_delays (s : state) (t : Q) (cs : list call) :
  _last_time s <= t ->
  0 <= _report_interval_seconds s ->
  well_timed s t cs ->
  exists rs,
    waits s cs = Return rs /\
    forall (i k : nat) (a b : release),
      nth_error rs i = Some a ->
      nth_error rs (i + k) = Some b ->
      released a + inject_Z (Z.of_nat k) * _delay s <= released b /\
      released b <= returned b.
Proof.
  intros Ht Hi Hw.
  destruct (RateLimiterFacts.waits_paced cs s Ht Hi Hw)
    as (rs & E & _ & Hp & Hc & _).
  exists rs. split; [exact E|].
  intros i k a b Ha Hb. split.
  - eapply spaced_span; eassumption.
  - apply nth_error_In in Hb.
    rewrite Forall_forall in Hp. destruct (Hp b Hb) as (_ & _ & _ & H).
    exact H.
Qed.

(** X5 witness: rate 4 per second, five calls in a burst at time 10. *)
Lemma X5_rate_witness :
  let s0 := mkState 0 0 (1 # 4) 5 0 in
  let cs := [mkCall 10 0; mkCall 10 0; mkCall (41 # 4) 0;
             mkCall (21 # 2) 0; mkCall (43 # 4) 0] in
  exists rs a b,
    waits s0 cs = Return rs /\
    nth_error rs 0 = Some a /\ nth_error rs 4 = Some b /\
    released a + 4 * (1 # 4) <= released b.
Proof.
  cbv zeta.
  destruct (@X5_k_calls_take_k_delays (mkState 0 0 (1 # 4) 5 0) 0
              [mkCall 10 0; mkCall 10 0; mkCall (41 # 4) 0;
               mkCall (21 # 2) 0; mkCall (43 # 4) 0])
    as (rs & E & H).
  - simpl. lra.
  - simpl. lra.
  - vm_compute. repeat split; discriminate.
  - exists rs.
    destruct rs as [|a [|r1 [|r2 [|r3 [|b rs]]]]];
      try (vm_compute in E; discriminate).
    exists a, b. split; [exact E|]. split; [reflexivity|].
    split; [reflexivity|].
    exact (proj1 (H 0%nat 4%nat a b eq_refl eq_refl)).
Defined.



End RateLimiterExtra.

(** ** The bounded executor *)

Module BoundedExecutorExtra.
Import BoundedExecutor ExecutorShutdown.

Section Facts.
Variable T : Type.
Implicit Types (s : state T) (t : T).

Local Open Scope Z_scope.

(** What a completing task leaves alone. *)
Lemma finish_frame s s' (i : nat) :
  balanced s -> pool_finish s i = Some s' ->
  holders s' = holders s /\ is_shutdown s' = is_shutdown s /\
  queued s' = queued s /\
  List.length (running s) = S (List.length (running s')).
Proof.
  unfold balanced, pool_finish, done_callback, pending, in_flight.
  destruct (remove_nth i (running s)) as [[x r]|] eqn:E; [|discriminate].
  apply BoundedExecutorFacts.remove_nth_length in E.
  intros H E'. injection E' as <-.
  rewrite BoundedExecutorFacts.sem_release_returns by (simpl; lia).
  simpl. auto.
Qed.

Lemma finish_none s : pool_finish s 0 = None -> running s = [].
Proof.
  unfold pool_finish. destruct (running s); [reflexivity|discriminate].
Qed.

(** What a starting task leaves alone, on an idle pool. *)
Lemma start_frame s :
  balanced s -> running s = [] -> 0 < max_workers s ->
  match queued s with
  | [] => pool_start s = None
  | t :: q =>
      exists s1,
        pool_start s = Some s1 /\ balanced s1 /\
        queued s1 = q /\ running s1 = [t] /\
        holders s1 = holders s /\ is_shutdown s1 = is_shutdown s /\
        sem_initial s1 = sem_initial s /\ max_workers s1 = max_workers s /\
        releases s1 = releases s
  end.
Proof.
  intros B Rn W. unfold pool_start.
  destruct (queued s) as [|t q] eqn:Q; [reflexivity|].
  rewrite Rn. simpl.
  assert (E : (0 <? max_workers s) = true) by (apply Z.ltb_lt; exact W).
  rewrite E. eexists. split; [reflexivity|].
  split; [|simpl; repeat split; reflexivity].
  apply (@BoundedExecutorFacts.start_balanced T s); [exact B|].
  unfold pool_start. rewrite Q, Rn. simpl. rewrite E. reflexivity.
Qed.

Lemma drain_empties (fuel : nat) s :
  balanced s ->
  0 < max_workers s ->
  (2 * List.length (queued s) + List.length (running s) <= fuel)%nat ->
  balanced (drain fuel s) /\ queued (drain fuel s) = [] /\
  running (drain fuel s) = [] /\
  holders (drain fuel s) = holders s /\
  is_shutdown (drain fuel s) = is_shutdown s /\
  sem_initial (drain fuel s) = sem_initial s /\
  releases (drain fuel s)
  = (releases s + List.length (queued s) + List.length (running s))%nat.
Proof.
  revert s. induction fuel as [|fuel IH]; intros s B W F.
  - cbn [drain].
    destruct (queued s) eqn:Q, (running s) eqn:R; cbn [List.length] in F;
      try lia.
    split; [exact B|]. cbn [List.length]. repeat split; auto; lia.
  - cbn [drain]. destruct (pool_finish s 0) as [s1|] eqn:E1.
    + destruct (BoundedExecutorFacts.finish_balanced 0 B E1) as (B1 & V1 & R1).
      destruct (finish_frame 0 B E1) as (H1 & S1 & Q1 & L1).
      destruct (@BoundedExecutorFacts.step_constants T s s1 (Finish 0) E1)
        as [I1 M1].
      destruct (IH s1) as (B' & Q' & R' & H' & S' & I' & C');
        [exact B1 | rewrite M1; exact W | rewrite Q1; lia |].
      rewrite H', S', I', C', R1, Q1, H1, S1, I1.
      split; [exact B'|]. repeat split; auto. lia.
    + pose proof (finish_none _ E1) as Rn.
      pose proof (start_frame B Rn W) as St.
      destruct (queued s) as [|t q] eqn:Q.
      * rewrite St, Rn. split; [exact B|]. cbn [List.length].
        repeat split; auto. lia.
      * destruct St as (s1 & E2 & B1 & Q1 & R1 & H1 & S1 & I1 & M1 & C1).
        rewrite E2.
        destruct (IH s1) as (B' & Q' & R' & H' & S' & I' & C');
          [exact B1 | rewrite M1; exact W
           | rewrite Q1, R1; rewrite Rn in F; cbn [List.length] in *; lia |].
        rewrite H', S', I', C', Q1, R1, H1, S1, I1, C1, Rn.
        split; [exact B'|]. cbn [List.length]. repeat split; auto. lia.
Qed.

Lemma shutdown_balanced s : balanced s -> balanced (shutdown s).
Proof. unfold balanced, shutdown, pending, in_flight. simpl. auto. Qed.

(** [submit] calls on an executor that is shut down and idle. *)
Lemma submits_after_shutdown (ts : list T) s
  (rs : list (outcome unit)) (s' : state T) :
  balanced s -> is_shutdown s = true ->
  queued s = [] -> running s = [] ->
  submits s ts = Some (rs, s') ->
  Forall (eq (Raise RuntimeError)) rs /\
  List.length rs = List.length ts /\
  sem_value s' = sem_value s /\ queued s' = [] /\ running s' = [] /\
  is_shutdown s' = true /\ balanced s'.
Proof.
  revert s rs s'. induction ts as [|t ts IH]; intros s rs s' B Sd Q Rn; simpl.
  - intros E. injection E as <- <-.
    split; [constructor|]. pose proof B as (P1 & P2 & P3 & P4 & P5).
    repeat split; auto.
  - destruct (submit s t) as [[r s1]|] eqn:E1; [|discriminate].
    destruct (proj2 (BoundedExecutorFacts.submit_balanced t B) _ _ E1)
      as (B1 & _ & C).
    rewrite Sd in C. destruct C as (Er & V1 & Q1 & _). subst r.
    assert (F : is_shutdown s1 = true /\ running s1 = []).
    { unfold submit, sem_acquire in E1.
      destruct (0 <? sem_value s); [|discriminate].
      unfold submit_handoff, pool_submit, sem_release in E1. simpl in E1.
      rewrite Sd in E1.
      destruct (sem_initial s <=? sem_value s - 1); try discriminate;
        injection E1 as <-; simpl; auto. }
    destruct F as [Sd1 Rn1].
    destruct (submits s1 ts) as [[rs1 s2]|] eqn:E2; [|discriminate].
    intros E. injection E as <- <-.
    destruct (IH s1 rs1 s2 B1 Sd1 (eq_trans Q1 Q) Rn1 E2)
      as (F1 & L1 & V2 & Q2 & R2 & S2 & B2).
    split; [constructor; [reflexivity | exact F1]|].
    pose proof B2 as (P1 & P2 & P3 & P4 & P5).
    repeat split; auto; simpl; try lia.
Qed.

(** After the shutdown a [submit] that finds a permit returns (with its
    exception); so does every [submit] after it. *)
Lemma submits_after_shutdown_return (ts : list T) s :
  balanced s -> is_shutdown s = true ->
  queued s = [] -> running s = [] ->
  0 < sem_value s ->
  submits s ts <> None.
Proof.
  revert s. induction ts as [|t ts IH]; intros s B Sd Q Rn V; simpl.
  - discriminate.
  - destruct (submit s t) as [[r s1]|] eqn:E1.
    2:{ unfold submit, sem_acquire in E1.
        apply Z.ltb_lt in V. rewrite V in E1. discriminate. }
    destruct (proj2 (BoundedExecutorFacts.submit_balanced t B) _ _ E1)
      as (B1 & _ & C).
    rewrite Sd in C. destruct C as (Er & V1 & Q1 & _). subst r.
    assert (F : is_shutdown s1 = true /\ running s1 = []).
    { unfold submit, sem_acquire in E1.
      destruct (0 <? sem_value s); [|discriminate].
      unfold submit_handoff, pool_submit, sem_release in E1. simpl in E1.
      rewrite Sd in E1.
      destruct (sem_initial s <=? sem_value s - 1); try discriminate;
        injection E1 as <-; simpl; auto. }
    destruct F as [Sd1 Rn1].
    assert (N : submits s1 ts <> None).
    { apply IH; auto; [congruence | lia]. }
    destruct (submits s1 ts) as [[rs1 s2]|]; [discriminate | contradiction].
Qed.

(** Without a permit, [submit] blocks. *)
Lemma submits_without_permit (t : T) (ts : list T) s :
  sem_value s <= 0 -> submits s (t :: ts) = None.
Proof.
  intros V. simpl. unfold submit, sem_acquire.
  assert (E : (0 <? sem_value s) = false) by (apply Z.ltb_ge; exact V).
  rewrite E. reflexivity.
Qed.

(** X7.  In every state an executor with [W] workers and backlog [B] can
    reach: [submit] blocks exactly when the tasks in flight, the tasks
    pending and the threads in the middle of a [submit] together number
    [W + B]; and when no task is in the pool and no thread is inside
    [submit], all [W + B] permits are back in the semaphore and every
    acquire has had its release. *)
Theorem X7_submit_blocks_exactly_at_capacity
  (bound max_w : Z) (s0 s : state T) (acts : list (action T)) :
  __init__ T bound max_w = Return s0 ->
  run s0 acts = Some s ->
  (forall t, submit s t = None
             <-> in_flight s + pending s + Z.of_nat (holders s)
                 = bound + max_w) /\
  (queued s = [] -> running s = [] -> holders s = O ->
   sem_value s = bound + max_w /\ acquires s = releases s).
Proof.
  intros I Rn.
  destruct (BoundedExecutorFacts.init_balanced _ _ I) as (B0 & I0 & _ & _).
  destruct (BoundedExecutorFacts.run_balanced acts B0 Rn) as (B & I1 & _).
  rewrite I0 in I1.
  pose proof B as (P1 & P2 & P3 & P4 & P5).
  unfold pending, in_flight in *. split.
  - intros t. rewrite (proj1 (BoundedExecutorFacts.submit_balanced t B)). lia.
  - intros Q R H. rewrite Q, R, H in *. simpl in *. lia.
Qed.

(** X8.  [shutdown(wait=True)] on any state the executor can reach: when it
    returns, the pool holds no task, every task it held has released its
    permit exactly once, so the semaphore has all [W + B] permits except
    those of threads still inside [submit].  When no thread is inside
    [submit] and the semaphore has a permit at all ([W + B] is positive),
    every [submit] made from then on returns, by raising [RuntimeError]:
    it accepts nothing and gives its permit back.  With [W + B = 0] a
    [submit] blocks, after the shutdown as before it. *)
Theorem X8_shutdown_wait_returns_every_permit
  (bound max_w : Z) (s0 s : state T) (acts : list (action T)) :
  __init__ T bound max_w = Return s0 ->
  run s0 acts = Some s ->
  let s' := shutdown_wait s in
  queued s' = [] /\ running s' = [] /\ is_shutdown s' = true /\
  sem_value s' = bound + max_w - Z.of_nat (holders s) /\
  releases s'
  = (releases s + List.length (queued s) + List.length (running s))%nat /\
  (holders s = O -> 0 < bound + max_w ->
   forall ts : list T,
   exists s'' : state T,
     submits s' ts = Some (map (fun _ => Raise RuntimeError) ts, s'') /\
     sem_value s'' = bound + max_w /\ queued s'' = [] /\ running s'' = []) /\
  (holders s = O -> bound + max_w = 0 ->
   forall (t : T) (ts : list T), submits s' (t :: ts) = None).
Proof.
  intros I Rn. cbv zeta.
  destruct (BoundedExecutorFacts.init_balanced _ _ I) as (B0 & I0 & _ & W0).
  assert (Wp : 0 < max_w).
  { unfold __init__ in I. destruct (max_w <=? 0) eqn:E; [discriminate|].
    lia. }
  destruct (BoundedExecutorFacts.run_balanced acts B0 Rn) as (B & I1 & W1).
  rewrite I0 in I1. rewrite W0 in W1.
  unfold shutdown_wait.
  destruct (@drain_empties
              (2 * List.length (queued s) + List.length (running s))%nat
              (shutdown s))
    as (B' & Q' & R' & H' & S' & I' & C');
    [apply shutdown_balanced, B | simpl; lia | simpl; lia |].
  change (queued (shutdown s)) with (queued s) in *.
  change (running (shutdown s)) with (running s) in *.
  remember (drain (2 * List.length (queued s) + List.length (running s))
              (shutdown s)) as d eqn:Ed.
  cbn [shutdown holders is_shutdown sem_initial releases] in H', S', I', C'.
  pose proof B' as (P1 & P2 & _).
  unfold pending, in_flight in P2. rewrite Q', R', H', I', I1 in P2.
  cbn [List.length] in P2.
  split; [exact Q'|]. split; [exact R'|]. split; [exact S'|].
  split; [lia|]. split; [exact C'|]. split.
  - intros Hh Hp ts. rewrite Hh in P2.
    assert (N : submits d ts <> None).
    { apply submits_after_shutdown_return; auto. lia. }
    destruct (submits d ts) as [[rs s'']|] eqn:E; [|contradiction].
    destruct (submits_after_shutdown _ B' S' Q' R' E)
      as (F & L & V & Q2 & R2 & _).
    exists s''. split; [|repeat split; auto; lia].
    f_equal. f_equal. clear - F L. revert ts L.
    induction F as [|r rs <- F IH]; intros [|t ts] L;
      try discriminate; [reflexivity|].
    cbn [map]. f_equal. apply IH. injection L as L. exact L.
  - intros Hh Hz t ts. apply submits_without_permit.
    rewrite Hh in P2. lia.
Qed.

End Facts.

(** X7 witness: one worker, backlog one, two tasks submitted and none
    finished: the third [submit] blocks. *)
Lemma X7_submit_blocks_witness :
  let acts : list (action nat) :=
    [Acquire; Handoff 7%nat; Start; Acquire; Handoff 8%nat] in
  let s := mkState 0 2 1 [8%nat] [7%nat] false 0 2 0 0 in
  run (mkState 2 2 1 (@nil nat) [] false 0 0 0 0) acts = Some s /\
  submit s 9%nat = None.
Proof.
  cbv zeta. split; [reflexivity|].
  destruct (@X7_submit_blocks_exactly_at_capacity nat 1 1
              (mkState 2 2 1 (@nil nat) [] false 0 0 0 0)
              (mkState 0 2 1 [8%nat] [7%nat] false 0 2 0 0)
              [Acquire; Handoff 7%nat; Start; Acquire; Handoff 8%nat]
              eq_refl eq_refl) as [H _].
  apply H. reflexivity.
Defined.

(** X8 witness: one worker, backlog one, one task running and one queued
    when the executor is shut down; two more tasks are submitted after. *)
Lemma X8_shutdown_wait_witness :
  let s := mkState 0 2 1 [8%nat] [7%nat] false 0 2 0 0 in
  let s' := shutdown_wait s in
  queued s' = [] /\ running s' = [] /\ sem_value s' = 2%Z /\
  submits s' [9%nat; 10%nat]
  = Some ([Raise RuntimeError; Raise RuntimeError],
          mkState 2 2 1 [] [] true 0 4 4 4) /\
  exists s'',
    submits s' [9%nat; 10%nat]
    = Some ([Raise RuntimeError; Raise RuntimeError], s'') /\
    sem_value s'' = 2%Z.
Proof.
  cbv zeta.
  destruct (@X8_shutdown_wait_returns_every_permit nat 1 1
              (mkState 2 2 1 (@nil nat) [] false 0 0 0 0)
              (mkState 0 2 1 [8%nat] [7%nat] false 0 2 0 0)
              [Acquire; Handoff 7%nat; Start; Acquire; Handoff 8%nat]
              eq_refl eq_refl) as (Q & R & _ & V & _ & S & _).
  split; [exact Q|]. split; [exact R|]. split; [exact V|].
  split; [reflexivity|].
  destruct (S eq_refl eq_refl [9%nat; 10%nat]) as (s'' & E & V2 & _).
  exists s''. split; [exact E | exact V2].
Defined.

End BoundedExecutorExtra.

(** ** The accumulator *)

Module AccumulatorExtra.
Import Accumulator AccumulatorCalls.

Section Facts.
Variable A : Type.
Implicit Types (s : state A) (x : A).

Local Open Scope Z_scope.

Lemma add_frame s x :
  _size (fst (add s x)) = _size s /\ _serial (fst (add s x)) = _serial s.
Proof.
  unfold add, add_locked.
  destruct (_size s <=? Z.of_nat (List.length (_list s ++ [x]))); auto.
Qed.

Lemma flush_frame s :
  _size (fst (flush s)) = _size s /\ _serial (fst (flush s)) = _serial s.
Proof.
  unfold flush, flush_locked.
  destruct (0 <? Z.of_nat (List.length (_list s))); auto.
Qed.

Lemma flush_batches s :
  batches (snd (flush s))
  = match _list s with [] => [] | _ :: _ => [_list s] end /\
  _list (fst (flush s)) = [].
Proof.
  unfold flush, flush_locked.
  destruct (_list s) as [|y l] eqn:E; simpl; [rewrite E; auto|].
  destruct (_serial s); auto.
Qed.

(** One call on an accumulator whose buffer is below a threshold of at
    least one: the batches it delivers have between one and [_size] items,
    a batch delivered by [add] has exactly [_size] items, and the buffer is
    below the threshold again. *)
Lemma call_sizes s (c : call A) :
  1 <= _size s ->
  Z.of_nat (List.length (_list s)) < _size s ->
  let r := calls s [c] in
  _size (fst r) = _size s /\
  Z.of_nat (List.length (_list (fst r))) < _size s /\
  Forall (fun b => 1 <= Z.of_nat (List.length b) <= _size s)
         (batches (snd r)) /\
  (forall x, c = Add x ->
     Forall (fun b => Z.of_nat (List.length b) = _size s) (batches (snd r)) /\
     Z.of_nat (List.length (_list s)) + 1
     = _size s * Z.of_nat (List.length (batches (snd r)))
       + Z.of_nat (List.length (_list (fst r)))).
Proof.
  intros HS HL. cbv zeta. destruct c as [x|]; cbn [calls].
  - pose proof (add_frame s x) as [F _].
    destruct (Z_le_gt_dec (_size s)
                (Z.of_nat (List.length (_list s ++ [x])))) as [H|H].
    + destruct (AccumulatorFacts.add_dispatches s x H) as [Hb Hl].
      destruct (add s x) as [s1 e1]. cbn [fst snd] in *.
      rewrite app_nil_r, Hb, Hl.
      rewrite length_app in *. cbn [List.length] in *.
      repeat split; try lia;
        repeat constructor; rewrite ?length_app; cbn [List.length]; lia.
    + destruct (AccumulatorFacts.add_keeps s x) as [He Hl]; [lia|].
      destruct (add s x) as [s1 e1]. cbn [fst snd] in *.
      rewrite app_nil_r, He, Hl.
      rewrite length_app in *. cbn [List.length batches] in *.
      repeat split; try lia; constructor.
  - pose proof (flush_frame s) as [F _].
    pose proof (flush_batches s) as [Hb Hl].
    destruct (flush s) as [s1 e1]. cbn [fst snd] in *.
    rewrite app_nil_r, Hb, Hl. cbn [List.length].
    repeat split; try lia; try discriminate.
    destruct (_list s) as [|y l] eqn:E; repeat constructor;
      cbn [List.length] in *; lia.
Qed.

Lemma calls_cons s (c : call A) (cs : list (call A)) :
  calls s (c :: cs)
  = (fst (calls (fst (calls s [c])) cs),
     snd (calls s [c]) ++ snd (calls (fst (calls s [c])) cs)).
Proof.
  assert (E : calls s [c]
              = (fst (match c with Add x => add s x | Flush => flush s end),
                 snd (match c with Add x => add s x | Flush => flush s end)
                 ++ [])).
  { cbn [calls].
    destruct (match c with Add x => add s x | Flush => flush s end).
    reflexivity. }
  rewrite E. cbn [calls fst snd].
  destruct (match c with Add x => add s x | Flush => flush s end)
    as [s1 e1].
  cbn [fst snd]. destruct (calls s1 cs) as [s2 e2]. cbn [fst snd].
  now rewrite app_nil_r.
Qed.

Lemma calls_sizes (cs : list (call A)) s :
  1 <= _size s ->
  Z.of_nat (List.length (_list s)) < _size s ->
  Z.of_nat (List.length (_list (fst (calls s cs)))) < _size s /\
  Forall (fun b => 1 <= Z.of_nat (List.length b) <= _size s)
         (batches (snd (calls s cs))).
Proof.
  revert s. induction cs as [|c cs IH]; intros s HS HL.
  - cbn [calls fst snd batches]. split; [exact HL | constructor].
  - rewrite calls_cons. cbn [fst snd].
    destruct (call_sizes s c HS HL) as (F & L & B & _).
    destruct (IH (fst (calls s [c]))) as [L' B'];
      [rewrite F; exact HS | rewrite F; exact L |].
    rewrite F in L', B'.
    rewrite AccumulatorFacts.batches_app. split; [exact L'|].
    apply Forall_app. auto.
Qed.

Lemma adds_as_calls (xs : list A) s :
  adds s xs = calls s (map (@Add A) xs).
Proof.
  revert s. induction xs as [|x xs IH]; intros s; [reflexivity|].
  cbn [adds map calls]. destruct (add s x) as [s1 e1]. rewrite IH.
  reflexivity.
Qed.

Lemma adds_sizes (xs : list A) s :
  1 <= _size s ->
  Z.of_nat (List.length (_list s)) < _size s ->
  Forall (fun b => Z.of_nat (List.length b) = _size s)
         (batches (snd (adds s xs))) /\
  Z.of_nat (List.length (_list s)) + Z.of_nat (List.length xs)
  = _size s * Z.of_nat (List.length (batches (snd (adds s xs))))
    + Z.of_nat (List.length (_list (fst (adds s xs)))) /\
  Z.of_nat (List.length (_list (fst (adds s xs)))) < _size s.
Proof.
  revert s. induction xs as [|x xs IH]; intros s HS HL.
  - cbn [adds fst snd batches List.length]. repeat split; [constructor|lia|lia].
  - rewrite adds_as_calls. cbn [map]. rewrite calls_cons.
    rewrite <- adds_as_calls. cbn [fst snd].
    destruct (call_sizes s (Add x) HS HL) as (F & L & _ & H).
    destruct (H x eq_refl) as [B C].
    destruct (IH (fst (calls s [Add x]))) as (B' & C' & L');
      [rewrite F; exact HS | rewrite F; exact L |].
    rewrite F in B', C', L'.
    rewrite AccumulatorFacts.batches_app, length_app.
    split; [apply Forall_app; auto|]. split; [|exact L'].
    cbn [List.length]. nia.
Qed.

(** With a threshold of one or less the buffer never keeps anything. *)
Lemma adds_singletons (xs : list A) s :
  _size s <= 1 -> _list s = [] ->
  batches (snd (adds s xs)) = map (fun x => [x]) xs /\
  _list (fst (adds s xs)) = [].
Proof.
  revert s. induction xs as [|x xs IH]; intros s HS HL.
  - cbn [adds fst snd batches map]. auto.
  - cbn [adds].
    destruct (AccumulatorFacts.add_dispatches s x) as [Hb Hl].
    { rewrite HL. cbn [app List.length]. lia. }
    pose proof (add_frame s x) as [F _].
    destruct (add s x) as [s1 e1]. cbn [fst snd] in *.
    destruct (IH s1) as [Hb' Hl']; [rewrite F; exact HS | exact Hl |].
    destruct (adds s1 xs) as [s2 e2]. cbn [fst snd] in *.
    rewrite AccumulatorFacts.batches_app, Hb, Hb', HL. cbn [map app]. auto.
Qed.

Lemma lock_discipline_app (ser : bool) (e1 e2 : list (event A))
  (l p : bool) :
  lock_discipline ser l p e1 = true ->
  lock_discipline ser l p (e1 ++ e2) = lock_discipline ser false false e2.
Proof.
  revert l p. induction e1 as [|e e1 IH]; intros l p.
  - cbn [lock_discipline app]. destruct l, p; simpl; intros H;
      try discriminate. reflexivity.
  - destruct e, ser, l, p;
      cbn [lock_discipline app andb negb Bool.eqb]; intros H;
      try discriminate; apply IH; exact H.
Qed.

Lemma call_lock_discipline s (c : call A) :
  lock_discipline (_serial s) false false (snd (calls s [c])) = true.
Proof.
  destruct c as [x|]; cbn [calls].
  - unfold add. destruct (add_locked s x) as [s1 pl]. cbn [snd].
    rewrite app_nil_r.
    destruct pl as [[|y l]|]; simpl; try reflexivity.
    destruct (_serial s); reflexivity.
  - unfold flush. destruct (flush_locked s) as [s1 pl]. cbn [snd].
    rewrite app_nil_r.
    destruct pl as [[|y l]|]; simpl; try reflexivity.
    destruct (_serial s); reflexivity.
Qed.

Lemma call_serial s (c : call A) :
  _serial (fst (calls s [c])) = _serial s.
Proof.
  destruct c as [x|]; cbn [calls].
  - pose proof (add_frame s x) as [_ F]. destruct (add s x). exact F.
  - pose proof (flush_frame s) as [_ F]. destruct (flush s). exact F.
Qed.

(** X9.  Batch sizes.  On an accumulator with a threshold [S] of at least
    one whose buffer holds fewer than [S] items (a fresh one does), any
    sequence of [add] calls delivers batches of exactly [S] items each,
    keeps fewer than [S] items in the buffer, and loses nothing: the items
    buffered before plus the items added are [S] times the number of
    batches plus the items left in the buffer.  With [flush] calls mixed in,
    every batch has between one and [S] items. *)
Theorem X9_batches_have_exactly_size_items
  s (xs : list A) (cs : list (call A)) :
  1 <= _size s ->
  Z.of_nat (List.length (_list s)) < _size s ->
  Forall (fun b => Z.of_nat (List.length b) = _size s)
         (batches (snd (adds s xs))) /\
  Z.of_nat (List.length (_list s)) + Z.of_nat (List.length xs)
  = _size s * Z.of_nat (List.length (batches (snd (adds s xs))))
    + Z.of_nat (List.length (_list (fst (adds s xs)))) /\
  Z.of_nat (List.length (_list (fst (adds s xs)))) < _size s /\
  Forall (fun b => 1 <= Z.of_nat (List.length b) <= _size s)
         (batches (snd (calls s cs))) /\
  Z.of_nat (List.length (_list (fst (calls s cs)))) < _size s.
Proof.
  intros HS HL.
  destruct (adds_sizes xs s HS HL) as (B & C & L).
  destruct (calls_sizes cs s HS HL) as (L' & B').
  auto.
Qed.

(** X10.  With a threshold of one or less (zero and negative values
    included) every [add] on an empty buffer hands its item to
    [_on_process] at once, as a batch of one, and the buffer stays
    empty. *)
Theorem X10_threshold_at_most_one_delivers_each_item
  s (xs : list A) :
  _size s <= 1 ->
  _list s = [] ->
  batches (snd (adds s xs)) = map (fun x => [x]) xs /\
  _list (fst (adds s xs)) = [].
Proof. apply adds_singletons. Qed.

(** X11.  A second [flush] right after a [flush] delivers nothing and
    changes nothing, in any state: it only takes and releases the list
    lock. *)
Theorem X11_flush_twice_is_flush_once s :
  flush (fst (flush s))
  = (fst (flush s), [AcquireListLock; ReleaseListLock]).
Proof.
  pose proof (flush_batches s) as [_ Hl].
  destruct (flush s) as [s1 e1]. cbn [fst] in *.
  unfold flush, flush_locked. rewrite Hl. reflexivity.
Qed.

(** X12.  Lock discipline.  Along any sequence of [add] and [flush] calls
    of one thread, in either mode: no lock is taken while the thread holds
    a lock, every lock taken is released, [_on_process] never runs under
    the list lock, it runs under the process lock in serial mode and under
    no lock otherwise, and the process lock is never touched when
    [serial] is false. *)
Theorem X12_locks_are_never_nested s (cs : list (call A)) :
  lock_discipline (_serial s) false false (snd (calls s cs)) = true.
Proof.
  revert s. induction cs as [|c cs IH]; intros s; [reflexivity|].
  rewrite calls_cons. cbn [snd].
  rewrite (@lock_discipline_app _ _ _ _ _ (call_lock_discipline s c)).
  rewrite <- (call_serial s c). apply IH.
Qed.

End Facts.

(** X9 witness: threshold 5, thirteen items. *)
Lemma X9_batch_sizes_witness :
  let s := __init__ nat 5 true in
  let xs := [1; 2; 3; 4; 5; 6; 7; 8; 9; 10; 11; 12; 13]%nat in
  Forall (fun b => Z.of_nat (List.length b) = 5%Z)
         (batches (snd (adds s xs))) /\
  List.length (batches (snd (adds s xs))) = 2%nat /\
  List.length (_list (fst (adds s xs))) = 3%nat.
Proof.
  cbv zeta.
  destruct (@X9_batches_have_exactly_size_items nat (__init__ nat 5 true)
              [1; 2; 3; 4; 5; 6; 7; 8; 9; 10; 11; 12; 13]%nat [])
    as (H & _).
  - simpl. lia.
  - simpl. lia.
  - split; [exact H|]. split; reflexivity.
Defined.

(** X10 witness: threshold 0. *)
Lemma X10_threshold_zero_witness :
  batches (snd (adds (__init__ nat 0 false) [4; 5; 6]%nat))
  = [[4]; [5]; [6]]%nat.
Proof.
  destruct (@X10_threshold_at_most_one_delivers_each_item nat
              (__init__ nat 0 false) [4; 5; 6]%nat) as [H _].
  - simpl. lia.
  - reflexivity.
  - exact H.
Defined.

End AccumulatorExtra.

(** ** The work queue *)

Module WorkQueueExtra.
Import WorkQueue WorkThread.

(** *** _work_thread_entry *)

Section ThreadFacts.
Implicit Types (p : BreakerThreads.process string)
               (a : BreakerThreads.action string).

Lemma move_other (i j : nat) (x : BreakerThreads.pc string)
  (ts : nat -> BreakerThreads.pc string) :
  j <> i -> BreakerThreads.move i x ts j = ts j.
Proof.
  intros H. unfold BreakerThreads.move.
  destruct (Nat.eqb j i) eqn:E; [|reflexivity].
  apply Nat.eqb_eq in E. contradiction.
Qed.

(** After a [trip] that found the slot empty: the shared event is set and
    the slot holds the reason, which a [consume_reason] returns once it is
    delivered. *)
Lemma published_then_consume (b : breaker) (r : string) :
  Breaker._reason (fst b) = [r] ->
  fst (Breaker.consume_reason b true) = Return r /\
  Breaker.consume_reason b false = (Raise QueueEmpty, b).
Proof.
  intros H. unfold Breaker.consume_reason, BoundedQueue.get_nowait.
  rewrite H. split; reflexivity.
Qed.

Lemma unpublished_step p a :
  unpublished p -> touches_reason a = false ->
  unpublished (fst (BreakerThreads.step p a)).
Proof.
  intros [Hr Hs] Ht. unfold unpublished.
  destruct a as [i g|i t|r| |i r|]; try discriminate; cbn.
  - destruct (BreakerThreads.threads p i) eqn:E; cbn;
      (split; [exact Hr|]); try exact Hs.
    intros j r. unfold BreakerThreads.move.
    destruct (Nat.eqb j i); [discriminate | apply Hs].
  - destruct (BreakerThreads.threads p i) as [|g| |v| | |r| |] eqn:E;
      cbn; try (split; [exact Hr | exact Hs]);
      try (exfalso; exact (Hs i r E));
      (split; [exact Hr|]); intros j r'; unfold BreakerThreads.move;
      (destruct (Nat.eqb j i); [|apply Hs]); try discriminate.
    destruct (Breaker.refresh_due (BreakerThreads.attrs p) g t);
      discriminate.
  - split; [exact Hr | exact Hs].
Qed.

Lemma unpublished_run (acts : list (BreakerThreads.action string)) p :
  unpublished p ->
  forallb (fun a => negb (touches_reason a)) acts = true ->
  unpublished (fst (BreakerThreads.run p acts)).
Proof.
  revert p. induction acts as [|a acts IH]; intros p U F; [exact U|].
  cbn [forallb] in F. apply andb_true_iff in F. destruct F as [F1 F2].
  apply negb_true_iff in F1.
  rewrite BreakerExtra.run_cons. cbn [fst].
  apply IH; [apply unpublished_step; assumption | exact F2].
Qed.

(** A poll leaves the reason slot alone. *)
Lemma is_tripped_by_unpublished (me : nat) p
  (sched : list (BreakerThreads.action string)) (v : bool)
  (p' : BreakerThreads.process string) :
  unpublished p ->
  forallb (fun a => negb (touches_reason a)) sched = true ->
  is_tripped_by me p sched = Some (v, p') ->
  unpublished p'.
Proof.
  intros U F. unfold is_tripped_by.
  destruct (BreakerThreads.threads p me); try discriminate.
  destruct (existsb (calls me) sched); [discriminate|].
  pose proof (@unpublished_run (BreakerThreads.Call me None :: sched) p U)
    as K.
  destruct (BreakerThreads.run p (BreakerThreads.Call me None :: sched))
    as [p1 rs].
  destruct (filter (fun x => Nat.eqb (fst x) me) rs) as [|[i b] [|y l]];
    try discriminate.
  intros E. injection E as _ <-. apply K. cbn [forallb]. exact F.
Qed.

Lemma tripping_step (me : nat) (r : string) p a :
  tripping me r p -> touches_reason a = false -> calls me a = false ->
  tripping me r (fst (BreakerThreads.step p a)).
Proof.
  intros [Ho Hm] Ht Hc. unfold tripping.
  destruct a as [i g|i t|r0| |i r0|]; try discriminate.
  - (* a sibling calls [is_tripped] *)
    cbn in Hc. apply Nat.eqb_neq in Hc. cbn.
    destruct (BreakerThreads.threads p i) eqn:E; cbn;
      try (split; [exact Ho | exact Hm]).
    rewrite (move_other _ _ (not_eq_sym Hc)).
    split; [|exact Hm].
    intros j r' Hj. unfold BreakerThreads.move.
    destruct (Nat.eqb j i); [discriminate | apply (Ho j r' Hj)].
  - destruct (Nat.eq_dec i me) as [->|Hi].
    + (* a statement of the [trip] *)
      cbn. destruct (BreakerThreads.threads p me) as [|g| |v| | |r'| |] eqn:E;
        try contradiction.
      * cbn. rewrite E. split; [exact Ho | exact Hm].
      * destruct Hm as [-> Hr]. unfold Breaker.trip_put, BoundedQueue.put_nowait.
        rewrite Hr. cbn. rewrite BreakerFacts.move_same.
        split; [|reflexivity].
        intros j r' Hj. rewrite (move_other _ _ Hj). apply (Ho j r' Hj).
      * cbn. rewrite BreakerFacts.move_same. split; [|auto].
        intros j r' Hj. rewrite (move_other _ _ Hj). apply (Ho j r' Hj).
      * cbn. rewrite BreakerFacts.move_same. split; [|exact Hm].
        intros j r' Hj. rewrite (move_other _ _ Hj). apply (Ho j r' Hj).
    + (* a statement of a sibling *)
      pose proof (Ho i) as Hp. cbn.
      assert (K : forall x sh lo,
                 (forall r', x <> BreakerThreads.Putting r') ->
                 Breaker._reason sh
                 = Breaker._reason (BreakerThreads.objects p) ->
                 (Breaker._event (BreakerThreads.objects p) = true ->
                  Breaker._event sh = true) ->
                 tripping me r
                   (BreakerThreads.mkProcess sh lo
                      (BreakerThreads.move i x (BreakerThreads.threads p)))).
      { intros x sh lo Hx Hr He. unfold tripping. cbn.
        rewrite (move_other _ _ (not_eq_sym Hi)). split.
        - intros j r' Hj. unfold BreakerThreads.move.
          destruct (Nat.eqb j i); [apply Hx | apply (Ho j r' Hj)].
        - destruct (BreakerThreads.threads p me); try exact Hm;
            rewrite Hr; try exact Hm;
            (split; [apply Hm | apply He, Hm]). }
      destruct (BreakerThreads.threads p i) as [|g| |v| | |r'| |] eqn:E;
        cbn [fst].
      * split; [exact Ho | exact Hm].
      * apply K; auto.
        destruct (Breaker.refresh_due (BreakerThreads.attrs p) g t);
          discriminate.
      * apply K; auto; discriminate.
      * apply K; auto; discriminate.
      * apply K; auto; discriminate.
      * apply K; auto; discriminate.
      * exfalso. exact (Hp r' Hi eq_refl).
      * apply K; auto; discriminate.
      * apply K; auto; discriminate.
  - (* another process sets the event *)
    cbn. split; [exact Ho|].
    destruct (BreakerThreads.threads p me); try exact Hm;
      (split; [apply Hm | reflexivity]).
Qed.

Lemma tripping_run (me : nat) (r : string)
  (acts : list (BreakerThreads.action string)) p :
  tripping me r p ->
  forallb (fun a => negb (touches_reason a)) acts = true ->
  existsb (calls me) acts = false ->
  tripping me r (fst (BreakerThreads.run p acts)).
Proof.
  revert p. induction acts as [|a acts IH]; intros p T F C; [exact T|].
  cbn [forallb] in F. apply andb_true_iff in F. destruct F as [F1 F2].
  apply negb_true_iff in F1.
  cbn [existsb] in C. apply orb_false_iff in C. destruct C as [C1 C2].
  rewrite BreakerExtra.run_cons. cbn [fst].
  apply IH; [apply tripping_step; assumption | exact F2 | exact C2].
Qed.

(** A [trip] on a breaker with nothing published publishes its reason
    and sets the event, whatever the other threads poll meanwhile. *)
Lemma trip_by_publishes (me : nat) p (r : string)
  (sched : list (BreakerThreads.action string))
  (p' : BreakerThreads.process string) :
  unpublished p ->
  forallb (fun a => negb (touches_reason a)) sched = true ->
  trip_by me p r sched = Some p' ->
  Breaker._reason (BreakerThreads.objects p') = [r] /\
  Breaker._event (BreakerThreads.objects p') = true.
Proof.
  intros [Ur Us] F. unfold trip_by.
  destruct (BreakerThreads.threads p me) eqn:E; try discriminate.
  destruct (existsb (calls me) sched) eqn:C; [discriminate|].
  rewrite BreakerExtra.run_cons. cbn [fst].
  assert (T : tripping me r
                (fst (BreakerThreads.step p (BreakerThreads.CallTrip me r)))).
  { cbn. rewrite E. unfold tripping. cbn.
    rewrite BreakerFacts.move_same. split; [|auto].
    intros j r' Hj. rewrite (move_other _ _ Hj). apply Us. }
  pose proof (tripping_run sched T F C) as [_ T'].
  destruct (BreakerThreads.threads
              (fst (BreakerThreads.run
                      (fst (BreakerThreads.step p
                              (BreakerThreads.CallTrip me r))) sched)) me);
    try discriminate.
  intros V. injection V as <-. exact T'.
Qed.

End ThreadFacts.

Section Facts.
Variable Item : Type.
Implicit Types (b : breaker) (item : Item)
               (p : BreakerThreads.process string).

Local Open Scope Q_scope.

(** The five ways through [_work_thread_entry]. *)
Lemma work_thread_entry_cases (me : nat) p (rl : RateLimiter.state) item
  (w : thread_world) (p' : BreakerThreads.process string)
  (rl' : RateLimiter.state) (tr : list (tev Item)) :
  _work_thread_entry me p rl item w = Some (p', rl', tr) ->
  (tr = [ThreadPolled true; ThreadLogError] /\ rl' = rl) \/
  tr = [ThreadPolled false; RateLimiterWait;
        ThreadLogException; ThreadTrip reason_thread] \/
  tr = [ThreadPolled false; RateLimiterWait; ThreadPolled true;
        ThreadLogError] \/
  tr = [ThreadPolled false; RateLimiterWait; ThreadPolled false;
        OnWork item] \/
  tr = [ThreadPolled false; RateLimiterWait; ThreadPolled false;
        OnWork item; ThreadLogException; ThreadTrip reason_thread].
Proof.
  unfold _work_thread_entry, work_thread_body.
  destruct (is_tripped_by me p (th_poll1 w)) as [[[|] p1]|];
    [| |discriminate].
  { intros E. injection E as <- <- <-. auto. }
  destruct (RateLimiter.wait rl (th_entry w)) as [[rl1 eff]|e].
  2:{ destruct (trip_by me p1 reason_thread (th_trip w)); [|discriminate].
      intros E. injection E as <- <- <-. auto. }
  destruct (is_tripped_by me p1 (th_poll2 w)) as [[[|] p2]|];
    [| |discriminate].
  { intros E. injection E as <- <- <-. auto. }
  destruct (th_on_work w) as [u|e].
  - intros E. injection E as <- <- <-. auto 6.
  - destruct (trip_by me p2 reason_thread (th_trip w)); [|discriminate].
    intros E. injection E as <- <- <-. auto 6.
Qed.

(** X13.  Fail-fast in the work threads, and at most once.  A call of
    [_work_thread_entry] by a thread of the pool, whatever the other
    threads and processes do meanwhile, waits at the rate limiter at most
    once and calls [_on_work] at most once.  When one of its polls answers
    "tripped", the call ends there: [_on_work] is not called and the
    thread does not trip the breaker; if it was the first poll, the rate
    limiter is not touched, and if it was the second, the call has waited
    at the rate limiter once.  [_on_work] is called only with the item of
    the call, after a poll that answered "not tripped", the wait, and a
    second poll that answered "not tripped". *)
Theorem X13_thread_skips_the_item_once_it_sees_the_trip
  (me : nat) p (rl : RateLimiter.state) item (w : thread_world)
  (p' : BreakerThreads.process string) (rl' : RateLimiter.state)
  (tr : list (tev Item)) :
  _work_thread_entry me p rl item w = Some (p', rl', tr) ->
  ((List.length (filter (@tev_is_wait Item) tr) <= 1)%nat /\
   (List.length (filter (@tev_is_on_work Item) tr) <= 1)%nat) /\
  (In (ThreadPolled true) tr ->
   filter (@tev_is_on_work Item) tr = [] /\
   ~ In (ThreadTrip reason_thread) tr /\
   ((tr = [ThreadPolled true; ThreadLogError] /\
     filter (@tev_is_wait Item) tr = [] /\ rl' = rl) \/
    (tr = [ThreadPolled false; RateLimiterWait; ThreadPolled true;
           ThreadLogError] /\
     filter (@tev_is_wait Item) tr = [RateLimiterWait]))) /\
  (forall x, In (OnWork x) tr ->
             x = item /\
             firstn 4 tr = [ThreadPolled false; RateLimiterWait;
                            ThreadPolled false; OnWork item]).
Proof.
  intros E.
  destruct (work_thread_entry_cases _ _ _ _ _ E)
    as [[-> ->] | [-> | [-> | [-> | ->]]]]; cbn;
    (split; [split; lia|]); split;
    try (intros [H|[H|[H|[H|[H|[H|[]]]]]]]; discriminate);
    try (intros [H|[H|[H|[H|[]]]]]; discriminate);
    try (intros x [H|[H|[H|[H|[]]]]]; discriminate);
    try (intros x [H|[H|[]]]; discriminate).
  - intros _. split; [reflexivity|]. split; [|left; auto].
    intros [H|[H|[]]]; discriminate.
  - intros _. split; [reflexivity|]. split; [|right; auto].
    intros [H|[H|[H|[H|[]]]]]; discriminate.
  - intros x [H|[H|[H|[H|[]]]]]; try discriminate.
    injection H as <-. auto.
  - intros x [H|[H|[H|[H|[H|[H|[]]]]]]]; try discriminate.
    injection H as <-. auto.
Qed.

(** X14.  A failing item trips the breaker.  If nobody has published a
    reason yet (the slot is empty at entry, no thread of the process is
    about to fill it, and during the call no other thread or process
    calls [trip] or consumes a reason) and [_work_thread_entry] ends by
    tripping the breaker (the rate limiter or [_on_work] raised), then
    afterwards the shared event is set and the slot holds the reason of
    [_work_thread_entry], however the polls of the other threads
    interleave with the call; a [consume_reason] that finds the reason
    delivered returns it, and one that comes before the delivery raises
    [queue.Empty] and leaves it. *)
Theorem X14_failing_item_trips_the_breaker
  (me : nat) p (rl : RateLimiter.state) item (w : thread_world)
  (p' : BreakerThreads.process string) (rl' : RateLimiter.state)
  (tr : list (tev Item)) :
  unpublished p ->
  forallb (fun a => negb (touches_reason a))
          (th_poll1 w ++ th_poll2 w ++ th_trip w) = true ->
  _work_thread_entry me p rl item w = Some (p', rl', tr) ->
  In (ThreadTrip reason_thread) tr ->
  let b' := (BreakerThreads.objects p', BreakerThreads.attrs p') in
  Breaker._event (fst b') = true /\
  Breaker._reason (fst b') = [reason_thread] /\
  fst (Breaker.consume_reason b' true) = Return reason_thread /\
  Breaker.consume_reason b' false = (Raise QueueEmpty, b').
Proof.
  intros U F E Hin. cbv zeta. cbn [fst].
  rewrite !forallb_app in F.
  apply andb_true_iff in F. destruct F as [F1 F].
  apply andb_true_iff in F. destruct F as [F2 F3].
  assert (G : forall q, unpublished q ->
                trip_by me q reason_thread (th_trip w) = Some p' ->
                Breaker._event (BreakerThreads.objects p') = true /\
                Breaker._reason (BreakerThreads.objects p')
                = [reason_thread] /\
                fst (Breaker.consume_reason
                       (BreakerThreads.objects p', BreakerThreads.attrs p')
                       true) = Return reason_thread /\
                Breaker.consume_reason
                  (BreakerThreads.objects p', BreakerThreads.attrs p') false
                = (Raise QueueEmpty,
                   (BreakerThreads.objects p', BreakerThreads.attrs p'))).
  { intros q Uq T.
    destruct (trip_by_publishes me reason_thread (th_trip w) Uq F3 T)
      as [Hr He].
    split; [exact He|]. split; [exact Hr|].
    apply published_then_consume. exact Hr. }
  unfold _work_thread_entry, work_thread_body in E.
  destruct (is_tripped_by me p (th_poll1 w)) as [[[|] p1]|] eqn:P1;
    [| |discriminate].
  { injection E as <- <- <-. simpl in Hin.
    destruct Hin as [H|[H|[]]]; discriminate. }
  pose proof (is_tripped_by_unpublished me (th_poll1 w) U F1 P1) as U1.
  destruct (RateLimiter.wait rl (th_entry w)) as [[rl1 eff]|e].
  2:{ destruct (trip_by me p1 reason_thread (th_trip w)) as [q|] eqn:T;
        [|discriminate].
      injection E as <- <- <-. apply (G p1 U1 T). }
  destruct (is_tripped_by me p1 (th_poll2 w)) as [[[|] p2]|] eqn:P2;
    [| |discriminate].
  { injection E as <- <- <-. simpl in Hin.
    destruct Hin as [H|[H|[H|[H|[]]]]]; discriminate. }
  pose proof (is_tripped_by_unpublished me (th_poll2 w) U1 F2 P2) as U2.
  destruct (th_on_work w) as [u|e].
  { injection E as <- <- <-. simpl in Hin.
    destruct Hin as [H|[H|[H|[H|[]]]]]; discriminate. }
  destruct (trip_by me p2 reason_thread (th_trip w)) as [q|] eqn:T;
    [|discriminate].
  injection E as <- <- <-. apply (G p2 U2 T).
Qed.

End Facts.

(** X13 witness: thread 1 of a work process polls at 0.05 and gets the
    cached "not tripped"; while it waits at the rate limiter another
    process trips the breaker; a sibling thread polls at 0.2 in between
    the statements of the second poll, which reads the event. *)
Lemma X13_thread_witness :
  let p := BreakerThreads.fresh string (1 # 10) 0 in
  let w := mkThreadWorld
             [BreakerThreads.Step 1 (1 # 20); BreakerThreads.Step 1 (1 # 20);
              BreakerThreads.OtherPut "r"%string; BreakerThreads.OtherSet]
             1
             [BreakerThreads.Step 1 (1 # 5); BreakerThreads.Call 0 None;
              BreakerThreads.Step 1 (1 # 5); BreakerThreads.Step 0 (1 # 5);
              BreakerThreads.Step 1 (1 # 5); BreakerThreads.Step 1 (1 # 5);
              BreakerThreads.Step 1 (1 # 5)]
             (Return tt) [] in
  exists p' rl',
    _work_thread_entry 1 p (RateLimiter.mkState 0 0 1 5 0) 7%nat w
    = Some (p', rl',
            [ThreadPolled false; RateLimiterWait; ThreadPolled true;
             ThreadLogError]) /\
    filter (@tev_is_on_work nat)
           [ThreadPolled false; RateLimiterWait; ThreadPolled true;
            ThreadLogError] = [] /\
    filter (@tev_is_wait nat)
           [ThreadPolled false; RateLimiterWait; ThreadPolled true;
            ThreadLogError] = [RateLimiterWait].
Proof.
  cbv zeta.
  destruct (_work_thread_entry 1 (BreakerThreads.fresh string (1 # 10) 0)
              (RateLimiter.mkState 0 0 1 5 0) 7%nat
              (mkThreadWorld
                 [BreakerThreads.Step 1 (1 # 20);
                  BreakerThreads.Step 1 (1 # 20);
                  BreakerThreads.OtherPut "r"%string; BreakerThreads.OtherSet]
                 1
                 [BreakerThreads.Step 1 (1 # 5); BreakerThreads.Call 0 None;
                  BreakerThreads.Step 1 (1 # 5);
                  BreakerThreads.Step 0 (1 # 5);
                  BreakerThreads.Step 1 (1 # 5);
                  BreakerThreads.Step 1 (1 # 5);
                  BreakerThreads.Step 1 (1 # 5)]
                 (Return tt) []))
    as [[[p' rl'] tr]|] eqn:E; [|vm_compute in E; discriminate E].
  destruct (X13_thread_skips_the_item_once_it_sees_the_trip _ _ _ _ _ E)
    as (_ & H & _).
  assert (T : tr = [ThreadPolled false; RateLimiterWait; ThreadPolled true;
                    ThreadLogError]).
  { vm_compute in E. injection E as _ _ <-. reflexivity. }
  subst tr. exists p', rl'. split; [reflexivity|].
  destruct H as (H1 & _ & [(H2 & _)|(_ & H3)]).
  - right. right. left. reflexivity.
  - discriminate H2.
  - split; [exact H1 | exact H3].
Defined.

(** X14 witness: [_on_work] raises on a breaker nobody has tripped; a
    sibling thread polls between the statements of the [trip]. *)
Lemma X14_failing_item_witness :
  let p := BreakerThreads.fresh string (1 # 10) 0 in
  let w := mkThreadWorld
             [BreakerThreads.Step 1 1; BreakerThreads.Step 1 1;
              BreakerThreads.Step 1 1; BreakerThreads.Step 1 1;
              BreakerThreads.Step 1 1]
             1
             [BreakerThreads.Step 1 2; BreakerThreads.Step 1 2;
              BreakerThreads.Step 1 2; BreakerThreads.Step 1 2;
              BreakerThreads.Step 1 2]
             (Raise (UserError 3))
             [BreakerThreads.Step 1 3; BreakerThreads.Call 0 None;
              BreakerThreads.Step 0 3; BreakerThreads.Step 1 3;
              BreakerThreads.Step 0 3; BreakerThreads.Step 1 3] in
  exists p' rl' tr,
    _work_thread_entry 1 p (RateLimiter.mkState 0 0 1 5 0) 7%nat w
    = Some (p', rl', tr) /\
    Breaker._event (BreakerThreads.objects p') = true /\
    Breaker._reason (BreakerThreads.objects p') = [reason_thread] /\
    fst (Breaker.consume_reason
           (BreakerThreads.objects p', BreakerThreads.attrs p') true)
    = Return reason_thread.
Proof.
  cbv zeta.
  destruct (_work_thread_entry 1 (BreakerThreads.fresh string (1 # 10) 0)
              (RateLimiter.mkState 0 0 1 5 0) 7%nat
              (mkThreadWorld
                 [BreakerThreads.Step 1 1; BreakerThreads.Step 1 1;
                  BreakerThreads.Step 1 1; BreakerThreads.Step 1 1;
                  BreakerThreads.Step 1 1]
                 1
                 [BreakerThreads.Step 1 2; BreakerThreads.Step 1 2;
                  BreakerThreads.Step 1 2; BreakerThreads.Step 1 2;
                  BreakerThreads.Step 1 2]
                 (Raise (UserError 3))
                 [BreakerThreads.Step 1 3; BreakerThreads.Call 0 None;
                  BreakerThreads.Step 0 3; BreakerThreads.Step 1 3;
                  BreakerThreads.Step 0 3; BreakerThreads.Step 1 3]))
    as [[[p' rl'] tr]|] eqn:E; [|vm_compute in E; discriminate E].
  assert (U : unpublished (BreakerThreads.fresh string (1 # 10) 0)).
  { split; [reflexivity | intros j r; discriminate]. }
  assert (T : In (ThreadTrip reason_thread) tr).
  { vm_compute in E. injection E as _ _ <-.
    right. right. right. right. right. left. reflexivity. }
  pose proof (fun F => X14_failing_item_trips_the_breaker _ _ _ _ U F E T)
    as H.
  destruct (H eq_refl) as (H1 & H2 & H3 & _).
  exists p', rl', tr. split; [reflexivity|].
  split; [exact H1 | split; [exact H2 | exact H3]].
Defined.

Section EntryFacts.
Variable Item : Type.
Implicit Types (b : breaker).

Local Open Scope Q_scope.

(** *** The process entry points *)

(** The three ways the acquisition process can end. *)
Lemma acquisition_entry_cases (s a c : outcome unit) b :
  let r := _acquisition_process_entry Item (mkAcquisitionHooks s a c) b in
  (s = Return tt /\ a = Return tt /\ fst r = (Return tt, b, true)) \/
  ((s = Raise BreakerTrippingException \/
    s = Return tt /\ a = Raise BreakerTrippingException) /\
   fst r = (Return tt, b, false)) \/
  (exists e, e <> BreakerTrippingException /\
             (s = Raise e \/ s = Return tt /\ a = Raise e) /\
             fst r = (Raise e, Breaker.trip b reason_acquisition, false)).
Proof.
  cbv zeta. unfold _acquisition_process_entry, acquisition_body. simpl.
  destruct s as [[]|es]; [destruct a as [[]|ea]|].
  - left. auto.
  - destruct ea;
      try (right; right; eexists;
           (split; [|split; [right; split; reflexivity | reflexivity]]);
           discriminate).
    right. left. split; [right; split; reflexivity | reflexivity].
  - destruct es;
      try (right; right; eexists;
           (split; [|split; [left; reflexivity | reflexivity]]);
           discriminate).
    right. left. split; [left; reflexivity | reflexivity].
Qed.

(** X15.  How the acquisition process ends.  The done flag is set exactly
    when the setup hook and [_acquire_work] both return; then the process
    ends normally and has not touched the breaker.  When either hook raises
    [BreakerTrippingException], the process also ends normally, with the
    done flag unset and the breaker untouched.  The process ends with an
    exception exactly when a hook raises anything else; that exception is
    the one re-raised, the done flag is unset, and the breaker has been
    tripped with the reason of [_acquisition_process_entry]. *)
Theorem X15_acquisition_sets_done_or_trips (s a c : outcome unit) b :
  let r := _acquisition_process_entry Item (mkAcquisitionHooks s a c) b in
  let outcome_ := fst (fst (fst r)) in
  let b' := snd (fst (fst r)) in
  let done_ := snd (fst r) in
  (done_ = true <-> s = Return tt /\ a = Return tt) /\
  (done_ = true -> outcome_ = Return tt /\ b' = b) /\
  (s = Raise BreakerTrippingException \/
   s = Return tt /\ a = Raise BreakerTrippingException ->
   outcome_ = Return tt /\ done_ = false /\ b' = b) /\
  (forall e, outcome_ = Raise e <->
             e <> BreakerTrippingException /\
             (s = Raise e \/ s = Return tt /\ a = Raise e)) /\
  (forall e, outcome_ = Raise e ->
             done_ = false /\ b' = Breaker.trip b reason_acquisition /\
             Breaker._reason (fst b') <> []).
Proof.
  cbv zeta.
  destruct (acquisition_entry_cases s a c b)
    as [(Hs & Ha & E)|[(H & E)|(e & Hn & H & E)]]; rewrite E; cbn [fst snd].
  - subst s a. repeat split; intros; try discriminate; auto;
      intuition discriminate.
  - repeat split; intros; try discriminate; auto;
      intuition congruence.
  - repeat split; intros; try discriminate; auto;
      try (apply BreakerExtra.trip_fills);
      intuition congruence.
Qed.

Lemma submitted_app (tr1 tr2 : list (pev Item)) :
  submitted (tr1 ++ tr2) = submitted tr1 ++ submitted tr2.
Proof.
  induction tr1 as [|e tr1 IH]; [reflexivity|].
  destruct e; simpl; rewrite ?IH; reflexivity.
Qed.

Lemma gets_app (tr1 tr2 : list (pev Item)) :
  gets (tr1 ++ tr2) = (gets tr1 + gets tr2)%nat.
Proof. unfold gets. rewrite filter_app, length_app. reflexivity. Qed.

(** The items submitted by the loop are the items that its calls of
    [get] returned; each pass of the loop that calls [get] takes one
    tick. *)
Lemma work_loop_submits (ticks : list (wtick Item)) b
  (r : outcome unit) (b' : breaker) (tr : list (pev Item)) :
  work_loop b ticks = Some (r, b', tr) ->
  (gets tr <= List.length ticks)%nat /\
  submitted tr = got (firstn (gets tr) ticks).
Proof.
  revert b r b' tr. induction ticks as [|k ticks IH]; intros b r b' tr;
    simpl; [discriminate|].
  destruct (Breaker.is_tripped _ None (w_t1 k) (w_t2 k)) as [tripped b1].
  destruct tripped.
  { intros E. injection E as <- <- <-. split; [cbn; lia | reflexivity]. }
  specialize (IH b1).
  assert (C : forall (evs : list (pev Item)),
             gets evs = 1%nat ->
             submitted evs
             = (match w_get k with Return i => [i] | Raise _ => [] end) ->
             match work_loop b1 ticks with
             | Some (r0, b2, tr0) =>
                 Some (r0, b2, BreakerPolled false :: evs ++ tr0)
             | None => None
             end = Some (r, b', tr) ->
             (gets tr <= S (List.length ticks))%nat /\
             submitted tr = got (firstn (gets tr) (k :: ticks))).
  { intros evs Hg He.
    destruct (work_loop b1 ticks) as [[[r1 b2] tr1]|]; [|discriminate].
    intros E. injection E as <- <- <-.
    destruct (IH _ _ _ eq_refl) as (Hn & Hs).
    change (BreakerPolled false :: evs ++ tr1)
      with ([BreakerPolled false] ++ evs ++ tr1).
    rewrite !gets_app, !submitted_app, Hg, He, Hs.
    change (gets [BreakerPolled false]) with 0%nat.
    cbn [Nat.add firstn got submitted app].
    split; [lia|]. destruct (w_get k); reflexivity. }
  assert (D : forall (evs : list (pev Item)),
             gets evs = 1%nat ->
             submitted evs
             = (match w_get k with Return i => [i] | Raise _ => [] end) ->
             (gets (BreakerPolled false :: evs) <= S (List.length ticks))%nat
             /\ submitted (BreakerPolled false :: evs)
                = got (firstn (gets (BreakerPolled false :: evs))
                              (k :: ticks))).
  { intros evs Hg He.
    change (BreakerPolled false :: evs) with ([BreakerPolled false] ++ evs).
    rewrite !gets_app, !submitted_app, Hg, He.
    change (gets [BreakerPolled false]) with 0%nat.
    cbn [Nat.add firstn got submitted app].
    split; [lia|]. destruct (w_get k); reflexivity. }
  destruct (w_get k) as [item|e] eqn:G.
  - destruct (w_submit k) as [u|e].
    + apply (C [QueueGet; ExecutorSubmit item]); reflexivity.
    + destruct e;
        try (intros E; injection E as <- <- <-;
             apply (D [QueueGet; ExecutorSubmit item]); reflexivity).
      destruct (w_done k).
      * intros E. injection E as <- <- <-.
        apply (D [QueueGet; ExecutorSubmit item; DoneIsSet true]);
          reflexivity.
      * apply (C [QueueGet; ExecutorSubmit item; DoneIsSet false]);
          reflexivity.
  - destruct e;
      try (intros E; injection E as <- <- <-;
           apply (D [QueueGet]); reflexivity).
    destruct (w_done k).
    + intros E. injection E as <- <- <-.
      apply (D [QueueGet; DoneIsSet true]); reflexivity.
    + apply (C [QueueGet; DoneIsSet false]); reflexivity.
Qed.

(** The loop ends by [break] only on a tripped poll or a set done flag. *)
Lemma work_loop_break (ticks : list (wtick Item)) b
  (b' : breaker) (tr : list (pev Item)) :
  work_loop b ticks = Some (Return tt, b', tr) ->
  In (BreakerPolled true) tr \/ In (DoneIsSet true) tr.
Proof.
  revert b b' tr. induction ticks as [|k ticks IH]; intros b b' tr;
    simpl; [discriminate|].
  destruct (Breaker.is_tripped _ None (w_t1 k) (w_t2 k)) as [tripped b1].
  destruct tripped.
  { intros E. injection E as <- <-. left. left. reflexivity. }
  specialize (IH b1).
  assert (C : forall (evs : list (pev Item)),
             match work_loop b1 ticks with
             | Some (r0, b2, tr0) =>
                 Some (r0, b2, BreakerPolled false :: evs ++ tr0)
             | None => None
             end = Some (Return tt, b', tr) ->
             In (BreakerPolled true) tr \/ In (DoneIsSet true) tr).
  { intros evs.
    destruct (work_loop b1 ticks) as [[[r1 b2] tr1]|]; [|discriminate].
    intros E. injection E as -> <- <-.
    destruct (IH _ _ eq_refl) as [H|H]; [left|right];
      right; apply in_or_app; right; exact H. }
  destruct (w_get k) as [item|e].
  - destruct (w_submit k) as [u|e];
      [apply (C [QueueGet; ExecutorSubmit item])|].
    destruct e; try discriminate.
    destruct (w_done k);
      [|apply (C [QueueGet; ExecutorSubmit item; DoneIsSet false])].
    intros E. injection E as <- <-. right. simpl. auto.
  - destruct e; try discriminate.
    destruct (w_done k); [|apply (C [QueueGet; DoneIsSet false])].
    intros E. injection E as <- <-. right. simpl. auto.
Qed.

Lemma work_loop_events (ticks : list (wtick Item)) b
  (r : outcome unit) (b' : breaker) (tr : list (pev Item)) :
  work_loop b ticks = Some (r, b', tr) ->
  Forall (fun e => loop_event e = true) tr.
Proof.
  revert b r b' tr. induction ticks as [|k ticks IH]; intros b r b' tr;
    simpl; [discriminate|].
  destruct (Breaker.is_tripped _ None (w_t1 k) (w_t2 k)) as [tripped b1].
  destruct tripped.
  { intros E. injection E as <- <- <-. repeat constructor. }
  specialize (IH b1).
  destruct (w_get k) as [item|e].
  - destruct (w_submit k) as [u|e].
    + destruct (work_loop b1 ticks) as [[[r1 b2] tr1]|]; [|discriminate].
      intros E. injection E as <- <- <-.
      repeat constructor. apply (IH _ _ _ eq_refl).
    + destruct e;
        try (intros E; injection E as <- <- <-; repeat constructor).
      destruct (w_done k).
      * intros E. injection E as <- <- <-. repeat constructor.
      * destruct (work_loop b1 ticks) as [[[r1 b2] tr1]|]; [|discriminate].
        intros E. injection E as <- <- <-.
        repeat constructor. apply (IH _ _ _ eq_refl).
  - destruct e;
      try (intros E; injection E as <- <- <-; repeat constructor).
    destruct (w_done k).
    + intros E. injection E as <- <- <-. repeat constructor.
    + destruct (work_loop b1 ticks) as [[[r1 b2] tr1]|]; [|discriminate].
      intros E. injection E as <- <- <-.
      repeat constructor. apply (IH _ _ _ eq_refl).
Qed.

Lemma work_loop_never_trips (ticks : list (wtick Item)) b
  (r : outcome unit) (b' : breaker) (tr : list (pev Item)) (x : string) :
  work_loop b ticks = Some (r, b', tr) -> ~ In (BreakerTrip x) tr.
Proof.
  intros L H. pose proof (work_loop_events _ _ L) as F.
  rewrite Forall_forall in F. specialize (F _ H). discriminate.
Qed.

Lemma cleanup_submits_nothing (h : work_hooks) (ex : bool) :
  submitted (work_cleanup Item h ex) = [] /\
  gets (work_cleanup Item h ex) = 0%nat /\
  forall x, ~ In (BreakerTrip x) (work_cleanup Item h ex).
Proof.
  unfold work_cleanup, guarded.
  destruct ex, (executor_shutdown h), (_on_work_process_complete h);
    (split; [reflexivity|]); (split; [reflexivity|]);
    intros x; simpl; intuition discriminate.
Qed.

(** X16.  Between the queue and the thread pool nothing is lost: in a work
    process that exits, the items handed to [executor.submit] are the items
    that its calls of [self._queue.get] returned, each one once and in that
    order.  With [n] the number of [get] calls the process made,
    they are the items that [get] returned in the first [n] passes of the
    loop. *)
Theorem X16_every_item_got_is_submitted
  (h : work_hooks) (process_rate : Q) (max_threads : Z) b
  (ticks : list (wtick Item)) (r : outcome unit) (b' : breaker)
  (tr : list (pev Item)) :
  _work_process_entry h process_rate max_threads b ticks = Some (r, b', tr) ->
  (gets tr <= List.length ticks)%nat /\
  submitted tr = got (firstn (gets tr) ticks).
Proof.
  unfold _work_process_entry, work_body.
  assert (Z0 : forall ex, submitted (work_cleanup Item h ex) = [])
    by (intros ex; apply cleanup_submits_nothing).
  assert (G0 : forall ex, gets (work_cleanup Item h ex) = 0%nat)
    by (intros ex; apply cleanup_submits_nothing).
  assert (T : forall (pre : list (pev Item)) ex,
             gets pre = 0%nat -> submitted pre = [] ->
             (gets (pre ++ [LogException; BreakerTrip reason_work]
                        ++ work_cleanup Item h ex)
              <= List.length ticks)%nat /\
             submitted (pre ++ [LogException; BreakerTrip reason_work]
                            ++ work_cleanup Item h ex)
             = got (firstn (gets (pre ++ [LogException;
                                          BreakerTrip reason_work]
                                      ++ work_cleanup Item h ex)) ticks)).
  { intros pre ex Hg Hs.
    rewrite !gets_app, !submitted_app, Hg, Hs, G0, Z0.
    split; [cbn; lia | reflexivity]. }
  destruct (_on_work_process_setup h).
  2:{ intros E. injection E as <- <- <-.
      apply (T [OnWorkProcessSetup]); reflexivity. }
  destruct (RateLimiter.__init__ process_rate 5).
  2:{ intros E. injection E as <- <- <-.
      apply (T [OnWorkProcessSetup; NewRateLimiter]); reflexivity. }
  destruct (BoundedExecutor.__init__ Item max_threads max_threads).
  2:{ intros E. injection E as <- <- <-.
      apply (T [OnWorkProcessSetup; NewRateLimiter; NewExecutor]);
        reflexivity. }
  destruct (work_loop b ticks) as [[[r1 b1] tr1]|] eqn:L; [|discriminate].
  destruct (work_loop_submits _ _ L) as (Hn & Hs).
  assert (P : forall (pre suf : list (pev Item)),
             gets pre = 0%nat -> submitted pre = [] ->
             gets suf = 0%nat -> submitted suf = [] ->
             (gets ((pre ++ tr1) ++ suf) <= List.length ticks)%nat /\
             submitted ((pre ++ tr1) ++ suf)
             = got (firstn (gets ((pre ++ tr1) ++ suf)) ticks)).
  { intros pre suf G1 S1 G2 S2.
    rewrite !gets_app, !submitted_app, G1, S1, G2, S2.
    cbn [Nat.add app]. rewrite Nat.add_0_r, app_nil_r.
    split; [exact Hn | exact Hs]. }
  destruct r1; intros E; injection E as <- <- <-.
  - exact (P [OnWorkProcessSetup; NewRateLimiter; NewExecutor]
             (work_cleanup Item h true) eq_refl eq_refl (G0 true) (Z0 true)).
  - refine (P [OnWorkProcessSetup; NewRateLimiter; NewExecutor]
              ([LogException; BreakerTrip reason_work]
                 ++ work_cleanup Item h true) eq_refl eq_refl _ _).
    + rewrite gets_app, G0. reflexivity.
    + rewrite submitted_app, Z0. reflexivity.
Qed.

(** X17.  How a work process ends.  It ends normally only after a poll of
    the breaker answered "tripped" or after [get] timed out with the done
    flag set, and then it has not tripped the breaker itself.  It ends with
    an exception only after tripping the breaker with the reason of
    [_work_process_entry], so that the reason slot is filled. *)
Theorem X17_work_process_exits_clean_or_tripping
  (h : work_hooks) (process_rate : Q) (max_threads : Z) b
  (ticks : list (wtick Item)) (r : outcome unit) (b' : breaker)
  (tr : list (pev Item)) :
  _work_process_entry h process_rate max_threads b ticks = Some (r, b', tr) ->
  (r = Return tt ->
   (In (BreakerPolled true) tr \/ In (DoneIsSet true) tr) /\
   ~ In (BreakerTrip reason_work) tr) /\
  (forall e, r = Raise e ->
             In (BreakerTrip reason_work) tr /\
             Breaker._reason (fst b') <> []).
Proof.
  unfold _work_process_entry, work_body.
  assert (Cl : forall ex, ~ In (BreakerTrip reason_work)
                            (work_cleanup Item h ex))
    by (intros ex; apply cleanup_submits_nothing).
  assert (Tr : forall (pre : list (pev Item)) ex (bx : breaker),
             In (BreakerTrip reason_work)
                (pre ++ [LogException; BreakerTrip reason_work]
                     ++ work_cleanup Item h ex) /\
             Breaker._reason (fst (Breaker.trip bx reason_work)) <> []).
  { intros pre ex bx. split; [|apply BreakerExtra.trip_fills].
    apply in_or_app. right. simpl. auto. }
  destruct (_on_work_process_setup h).
  2:{ intros E. injection E as <- <- <-. split; [discriminate|].
      intros e0 _. exact (Tr [OnWorkProcessSetup] false b). }
  destruct (RateLimiter.__init__ process_rate 5).
  2:{ intros E. injection E as <- <- <-. split; [discriminate|].
      intros e0 _. exact (Tr [OnWorkProcessSetup; NewRateLimiter] false b). }
  destruct (BoundedExecutor.__init__ Item max_threads max_threads).
  2:{ intros E. injection E as <- <- <-. split; [discriminate|].
      intros e0 _.
      exact (Tr [OnWorkProcessSetup; NewRateLimiter; NewExecutor] false b). }
  destruct (work_loop b ticks) as [[[r1 b1] tr1]|] eqn:L; [|discriminate].
  destruct r1 as [[]|e1]; intros E; injection E as <- <- <-.
  - split; [|discriminate]. intros _. split.
    + destruct (work_loop_break _ _ L) as [H|H]; [left|right];
        right; right; right; apply in_or_app; left; exact H.
    + intros H. destruct H as [H|[H|[H|H]]]; try discriminate.
      apply in_app_or in H. destruct H as [H|H].
      * apply (work_loop_never_trips _ _ _ L H).
      * apply (Cl _ H).
  - split; [discriminate|].
    intros e0 _.
    exact (Tr ([OnWorkProcessSetup; NewRateLimiter; NewExecutor] ++ tr1)
              true b1).
Qed.

End EntryFacts.

Lemma X16_submitted_witness :
  let h := mkWorkHooks (Return tt) (Return tt) (Return tt) in
  let b := Breaker.__init__ string default_granularity 0 in
  let ticks := [mkWtick [] 1 1 (Return 7%nat) (Return tt) false;
                mkWtick [] 2 2 (Raise QueueEmpty) (Return tt) false;
                mkWtick [] 3 3 (Return 9%nat) (Return tt) false;
                mkWtick [] 4 4 (Raise QueueEmpty) (Return tt) true;
                mkWtick [] 5 5 (Return 11%nat) (Return tt) false] in
  exists r b' tr,
    _work_process_entry h 10 4 b ticks = Some (r, b', tr) /\
    gets tr = 4%nat /\
    submitted tr = [7%nat; 9%nat] /\
    (gets tr <= 5)%nat /\ submitted tr = got (firstn (gets tr) ticks).
Proof.
  cbv zeta. do 3 eexists. split; [reflexivity|]. split; [reflexivity|].
  split; [reflexivity|].
  exact (@X16_every_item_got_is_submitted nat
           (mkWorkHooks (Return tt) (Return tt) (Return tt)) 10 4%Z
           (Breaker.__init__ string default_granularity 0)
           [mkWtick [] 1 1 (Return 7%nat) (Return tt) false;
            mkWtick [] 2 2 (Raise QueueEmpty) (Return tt) false;
            mkWtick [] 3 3 (Return 9%nat) (Return tt) false;
            mkWtick [] 4 4 (Raise QueueEmpty) (Return tt) true;
            mkWtick [] 5 5 (Return 11%nat) (Return tt) false]
           _ _ _ eq_refl).
Defined.

Lemma X17_work_process_witness :
  let h := mkWorkHooks (Return tt) (Return tt) (Return tt) in
  let b := Breaker.__init__ string default_granularity 0 in
  let ticks := [mkWtick [] 1 1 (Return 7%nat) (Return tt) false;
                mkWtick [] 2 2 (Return 8%nat) (Raise RuntimeError) false] in
  exists b' tr,
    _work_process_entry h 10 4 b ticks = Some (Raise RuntimeError, b', tr) /\
    In (BreakerTrip reason_work) tr /\
    Breaker._reason (fst b') <> [].
Proof.
  cbv zeta. do 2 eexists. split; [reflexivity|].
  exact (proj2 (@X17_work_process_exits_clean_or_tripping nat
           (mkWorkHooks (Return tt) (Return tt) (Return tt)) 10 4%Z
           (Breaker.__init__ string default_granularity 0)
           [mkWtick [] 1 1 (Return 7%nat) (Return tt) false;
            mkWtick [] 2 2 (Return 8%nat) (Raise RuntimeError) false]
           _ _ _ eq_refl) RuntimeError eq_refl).
Defined.

Section PipelineFacts.
Variable Item : Type.
Implicit Types (p : pipeline Item).

Local Open Scope Q_scope.

(** *** The producer loop and the queue *)

Lemma enqueues_app (tr1 tr2 : list dev) :
  enqueues (tr1 ++ tr2) = (enqueues tr1 + enqueues tr2)%nat.
Proof. unfold enqueues. rewrite filter_app, length_app. reflexivity. Qed.

(** Items taken from the front and an item appended at the back commute. *)
Lemma skipn_then_app (A : Type) (n : nat) (q l : list A) :
  skipn n q ++ l = skipn (Nat.min n (List.length q)) (q ++ l).
Proof.
  rewrite skipn_app.
  replace (Nat.min n (List.length q) - List.length q)%nat with 0%nat by lia.
  cbn [skipn]. f_equal.
  destruct (Nat.le_ge_cases n (List.length q)) as [H|H].
  - rewrite Nat.min_l by exact H. reflexivity.
  - rewrite Nat.min_r by exact H.
    rewrite !skipn_all2 by lia. reflexivity.
Qed.

(** X18.  The producer loop keeps the order of its items.  When the loop
    [for item in ...: self._distribute_work(item)] ends, the queue holds
    what is left, after the consumers took items from the front, of the
    old content followed by the first [k] items of the loop in their
    order, where [k] is the number of successful [put] calls.  A loop that
    ends normally has enqueued every item; a loop that ends with an
    exception ends with [BreakerTrippingException] and has left at least
    the item of the failing call out. *)
Theorem X18_acquire_work_enqueues_in_order
  (jobs : list (Item * list tick)) p
  (r : outcome unit) (p' : pipeline Item) (tr : list dev) :
  _acquire_work p jobs = Some (r, p', tr) ->
  (exists n,
      _queue p'
      = skipn n (_queue p ++ firstn (enqueues tr) (map fst jobs))) /\
  (r = Return tt -> enqueues tr = List.length jobs) /\
  (forall e, r = Raise e ->
             e = BreakerTrippingException /\
             (enqueues tr < List.length jobs)%nat) /\
  queue_max p' = queue_max p /\ _done p' = _done p.
Proof.
  revert p r p' tr.
  induction jobs as [|[item ticks] jobs IH]; intros p r p' tr; simpl.
  - intros E. injection E as <- <- <-. split; [|split; [|split]].
    + exists 0%nat. cbn. rewrite app_nil_r. reflexivity.
    + reflexivity.
    + discriminate.
    + split; reflexivity.
  - destruct (_distribute_work p item ticks) as [[[r0 p0] tr0]|] eqn:D;
      [|discriminate].
    destruct (WorkQueueFacts.distribute_work_complete _ _ _ D)
      as (_ & Hm & Hd & [(-> & Hk & n & Hq)|(-> & Hk & n & Hq)]).
    + destruct (_acquire_work p0 jobs) as [[[r1 p1] tr1]|] eqn:A;
        [|discriminate].
      intros E. injection E as <- <- <-.
      destruct (IH _ _ _ _ A) as ((m & Hq1) & Hr & He & Hm1 & Hd1).
      rewrite enqueues_app, Hk. cbn [Nat.add firstn map fst].
      split; [|split; [|split; [|split]]].
      * rewrite Hq1, Hq, <- app_assoc. cbn [app].
        rewrite skipn_then_app, skipn_skipn. eexists. reflexivity.
      * intros R. rewrite (Hr R). reflexivity.
      * intros e R. destruct (He e R) as (-> & Hl).
        split; [reflexivity|]. cbn [List.length]. lia.
      * congruence.
      * congruence.
    + intros E. injection E as <- <- <-. rewrite Hk.
      split; [|split; [|split; [|split]]].
      * exists n. cbn [firstn]. rewrite app_nil_r. exact Hq.
      * discriminate.
      * intros e R. injection R as <-. split; [reflexivity|].
        cbn [List.length]. lia.
      * exact Hm.
      * exact Hd.
Qed.

Lemma distribute_work_bounded (ticks : list tick) p item
  (r : outcome unit) (p' : pipeline Item) (tr : list dev) :
  (0 < queue_max p)%Z ->
  (Z.of_nat (List.length (_queue p)) <= queue_max p)%Z ->
  _distribute_work p item ticks = Some (r, p', tr) ->
  (Z.of_nat (List.length (_queue p')) <= queue_max p')%Z.
Proof.
  revert p r p' tr.
  induction ticks as [|k ticks IH]; intros p r p' tr Hpos Hlen; simpl;
    [discriminate|].
  destruct (Breaker.is_tripped (others_trip (_breaker p) (others k)) None
                               (t1 k) (t2 k)) as [tripped b1].
  destruct tripped.
  { intros E. injection E as <- <- <-. exact Hlen. }
  unfold put_timeout, has_room.
  assert (Hs : (List.length (skipn (taken k) (_queue p))
                <= List.length (_queue p))%nat)
    by (rewrite length_skipn; lia).
  destruct ((queue_max p <=? 0)%Z) eqn:E0; [apply Z.leb_le in E0; lia|].
  cbn [orb].
  destruct ((Z.of_nat (List.length (skipn (taken k) (_queue p)))
             <? queue_max p)%Z) eqn:E1.
  - intros E. injection E as <- <- <-. cbn [_queue queue_max].
    apply Z.ltb_lt in E1. rewrite length_app. cbn [List.length]. lia.
  - destruct (_distribute_work
                (mkPipeline (skipn (taken k) (_queue p)) (queue_max p)
                            (_done p) b1) item ticks)
      as [[[r1 p1] tr1]|] eqn:D; [|discriminate].
    intros E. injection E as <- <- <-.
    apply IH in D; [exact D | exact Hpos |].
    cbn [_queue queue_max]. lia.
Qed.

(** X19.  A bounded queue stays within its bound: with a positive
    [queue_maxsize], a queue that holds at most that many items holds at
    most that many after any run of the producer loop, however the
    consumers and the breaker behave. *)
Theorem X19_queue_never_exceeds_maxsize
  (jobs : list (Item * list tick)) p
  (r : outcome unit) (p' : pipeline Item) (tr : list dev) :
  (0 < queue_max p)%Z ->
  (Z.of_nat (List.length (_queue p)) <= queue_max p)%Z ->
  _acquire_work p jobs = Some (r, p', tr) ->
  (Z.of_nat (List.length (_queue p')) <= queue_max p')%Z.
Proof.
  revert p r p' tr.
  induction jobs as [|[item ticks] jobs IH]; intros p r p' tr Hpos Hlen;
    simpl.
  - intros E. injection E as <- <- <-. exact Hlen.
  - destruct (_distribute_work p item ticks) as [[[r0 p0] tr0]|] eqn:D;
      [|discriminate].
    pose proof D as B0.
    apply distribute_work_bounded in B0; [|exact Hpos|exact Hlen].
    destruct (WorkQueueFacts.distribute_work_complete _ _ _ D)
      as (_ & Hm & _ & _).
    destruct r0 as [u|e].
    + destruct (_acquire_work p0 jobs) as [[[r1 p1] tr1]|] eqn:A;
        [|discriminate].
      intros E. injection E as <- <- <-.
      apply IH in A; [exact A | rewrite Hm; exact Hpos | exact B0].
    + intros E. injection E as <- <- <-. exact B0.
Qed.

(** *** run *)

Lemma others_trip_local (rs : list string) (b : breaker) :
  snd (others_trip b rs) = snd b.
Proof.
  revert b. induction rs as [|r rs IH]; intros b; [reflexivity|].
  cbn [others_trip fold_left]. change (snd (others_trip (other_trip b r) rs)
                                       = snd b).
  rewrite IH. unfold other_trip.
  destruct (Breaker.trip_put (fst b) r); reflexivity.
Qed.

(** The conversions and constructors at the start of [run()] go through:
    the rate and the number of work processes are within the range of a
    double, the number of work processes is not zero, and the queue size is
    below [2**31]. *)
Lemma run_starts (c : config) :
  (Z.abs (_rate c) < 2 ^ 1024 - 2 ^ 970)%Z ->
  (Z.abs (_work_processes c) < 2 ^ 1024 - 2 ^ 970)%Z ->
  _work_processes c <> 0%Z ->
  (_queue_maxsize c < 2 ^ 31)%Z ->
  _process_rate c
  = Return (inject_Z (_rate c) / inject_Z (_work_processes c)) /\
  Queue (_queue_maxsize c) = Return tt.
Proof.
  intros H1 H2 H3 H4. split.
  - destruct (WorkQueueFacts.process_rate_cases c)
      as [(K & _)|[(_ & K & _)|[(_ & K & _)|(_ & _ & _ & K)]]].
    + exfalso. revert H1 K. generalize (2 ^ 1024 - 2 ^ 970)%Z. lia.
    + exfalso. revert H2 K. generalize (2 ^ 1024 - 2 ^ 970)%Z. lia.
    + contradiction.
    + exact K.
  - unfold Queue. apply Z.ltb_lt in H4. rewrite H4. reflexivity.
Qed.

(** X20.  The poll at the end of [run()] can miss a trip.  The parent's
    copy of the breaker dates from its construction at the start of
    [run()].  On a configured pipeline whose processes were started (the
    rate and the number of work processes convert to a double, that number
    is not zero, the queue size is below [2**31]) and whose joins have all
    returned: when the last [join] returns less than the default
    granularity (0.1 s) after the construction of the breaker,
    [is_tripped()] answers from the cached [False], and [run()] returns
    normally whatever the children tripped the breaker with. *)
Theorem X20_run_misses_a_trip_within_granularity
  (c : config) (w : world) :
  _configured c = true ->
  _work_processes c <> 0%Z ->
  (Z.abs (_rate c) < 2 ^ 1024 - 2 ^ 970)%Z ->
  (Z.abs (_work_processes c) < 2 ^ 1024 - 2 ^ 970)%Z ->
  (_queue_maxsize c < 2 ^ 31)%Z ->
  joined w = true ->
  poll1 w - built w < default_granularity ->
  exists tr,
    run c w = Some (Return tt, tr) /\
    In (ParentPolled false) tr.
Proof.
  intros Hc Hp Hr Hw Hq Hj Hs.
  destruct (run_starts c Hr Hw Hp Hq) as (R1 & R2).
  rewrite (WorkQueueFacts.run_after_join c w Hc R1 R2 Hj).
  assert (F : Qle_bool default_granularity (poll1 w - built w) = false).
  { destruct (Qle_bool default_granularity (poll1 w - built w)) eqn:E;
      [|reflexivity].
    apply Qle_bool_iff in E. exfalso. exact (Qlt_not_le _ _ Hs E). }
  rewrite F. cbn [andb]. eexists. split.
  - destruct (child_trips w); reflexivity.
  - apply in_or_app. right. left. reflexivity.
Qed.


End PipelineFacts.

Lemma X18_acquire_work_witness :
  let p := mkPipeline [] 1 false
             (Breaker.__init__ string default_granularity 0) in
  let jobs := [(1%nat, [mkTick [] 1 1 0]);
               (2%nat, [mkTick [] 2 2 0; mkTick [] 3 3 1])] in
  exists p' tr,
    _acquire_work p jobs = Some (Return tt, p', tr) /\
    _queue p' = [2%nat] /\
    enqueues tr = List.length jobs.
Proof.
  cbv zeta. do 2 eexists. split; [reflexivity|]. split; [reflexivity|].
  exact (proj1 (proj2
           (@X18_acquire_work_enqueues_in_order nat
              [(1%nat, [mkTick [] 1 1 0]);
               (2%nat, [mkTick [] 2 2 0; mkTick [] 3 3 1])]
              (mkPipeline [] 1 false
                 (Breaker.__init__ string default_granularity 0))
              _ _ _ eq_refl)) eq_refl).
Defined.

Lemma X19_queue_bound_witness :
  let p := mkPipeline [5%nat] 1 false
             (Breaker.__init__ string default_granularity 0) in
  let jobs := [(1%nat, [mkTick [] 1 1 0; mkTick [] 2 2 1]);
               (2%nat, [mkTick [] 3 3 0; mkTick [] 4 4 1])] in
  exists r p' tr,
    _acquire_work p jobs = Some (r, p', tr) /\
    _queue p' = [2%nat] /\
    (Z.of_nat (List.length (_queue p')) <= queue_max p')%Z.
Proof.
  cbv zeta. do 3 eexists. split; [reflexivity|]. split; [reflexivity|].
  refine (@X19_queue_never_exceeds_maxsize nat
            [(1%nat, [mkTick [] 1 1 0; mkTick [] 2 2 1]);
             (2%nat, [mkTick [] 3 3 0; mkTick [] 4 4 1])]
            (mkPipeline [5%nat] 1 false
               (Breaker.__init__ string default_granularity 0))
            _ _ _ _ _ eq_refl); simpl; lia.
Defined.

Lemma X20_run_witness :
  let c := __init__ 4 1024 1024 10 in
  let w :=
    mkWorld 0 [reason_work; reason_acquisition] (1 # 20) (1 # 20) true in
  Breaker._event (fst (breaker_after_join w)) = true /\
  exists tr,
    run c w = Some (Return tt, tr) /\
    In (ParentPolled false) tr.
Proof.
  cbv zeta. split; [reflexivity|].
  apply X20_run_misses_a_trip_within_granularity.
  - reflexivity.
  - simpl. lia.
  - vm_compute. reflexivity.
  - vm_compute. reflexivity.
  - vm_compute. reflexivity.
  - reflexivity.
  - vm_compute. reflexivity.
Defined.

End WorkQueueExtra.

(** ** The success tracker *)

Module SuccessTrackerExtra.
Import SuccessTracker.

Local Open Scope Q_scope.

Lemma track_counted (s : state) (success : bool) (now : Q) :
  counted s ->
  counted (snd (track s success now)) /\
  (exists b, fst (track s success now) = Return b) /\
  success_rate (snd (track s success now)) = success_rate s /\
  check_seconds (snd (track s success now)) = check_seconds s.
Proof.
  unfold counted, track. intros C.
  destruct (Qeq_bool (track_begin s) 0);
    [|destruct (RateLimiter.Qlt_bool (now - track_begin s) (check_seconds s));
      [|destruct (track_total s + 1 =? 0)%Z eqn:E0;
        [apply Z.eqb_eq in E0; lia|]]];
    destruct success; cbn [fst snd track_success track_total success_rate
                           check_seconds];
    (split; [lia|]); (split; [eexists; reflexivity|]); split; reflexivity.
Qed.

Lemma tracks_cons (s : state) (success : bool) (now : Q)
  (evs : list (bool * Q)) :
  tracks s ((success, now) :: evs)
  = (fst (track s success now)
       :: fst (tracks (snd (track s success now)) evs),
     snd (tracks (snd (track s success now)) evs)).
Proof.
  cbn [tracks]. destruct (track s success now) as [r s1]. cbn [fst snd].
  destruct (tracks s1 evs) as [rs s2]. reflexivity.
Qed.

Lemma tracks_counted (evs : list (bool * Q)) (s : state) :
  counted s ->
  Forall (fun r => exists b, r = Return b) (fst (tracks s evs)) /\
  counted (snd (tracks s evs)).
Proof.
  revert s. induction evs as [|[success now] evs IH]; intros s C.
  - split; [constructor | exact C].
  - rewrite tracks_cons. cbn [fst snd].
    destruct (track_counted success now C) as (C1 & R & _).
    destruct (IH _ C1) as (F & C2).
    split; [constructor; [exact R | exact F] | exact C2].
Qed.

(** X23.  On a tracker used through [track] only, the division of the
    check never fails: whatever the events and the clock readings, every
    call returns a verdict, and the counters stay consistent (the
    successes counted are among the events counted). *)
Theorem X23_track_never_divides_by_zero
  (rate seconds : Q) (evs : list (bool * Q)) :
  Forall (fun r => exists b, r = Return b)
         (fst (tracks (__init__ rate seconds) evs)) /\
  counted (snd (tracks (__init__ rate seconds) evs)).
Proof.
  apply tracks_counted. unfold counted, __init__. cbn. lia.
Qed.

Lemma quotient_one (t : Z) : (0 < t)%Z -> inject_Z t / inject_Z t == 1.
Proof.
  intros H. apply Qmult_inv_r.
  intros E. unfold Qeq, inject_Z in E. cbn in E. lia.
Qed.

Lemma tracks_all_success (evs : list (bool * Q)) (s : state) :
  success_rate s <= 1 ->
  (0 <= track_total s)%Z ->
  track_success s = track_total s ->
  Forall (fun e => fst e = true) evs ->
  Forall (eq (Return true)) (fst (tracks s evs)).
Proof.
  revert s. induction evs as [|[success now] evs IH]; intros s Hr H0 He F.
  - constructor.
  - rewrite tracks_cons. cbn [fst].
    inversion F as [|e l Hs F']; subst. cbn [fst] in Hs. subst success.
    assert (K : fst (track s true now) = Return true /\
                success_rate (snd (track s true now)) = success_rate s /\
                (0 <= track_total (snd (track s true now)))%Z /\
                track_success (snd (track s true now))
                = track_total (snd (track s true now))).
    { unfold track.
      destruct (Qeq_bool (track_begin s) 0);
        [cbn; repeat split; lia|].
      destruct (RateLimiter.Qlt_bool (now - track_begin s)
                                     (check_seconds s));
        [cbn; repeat split; lia|].
      destruct (track_total s + 1 =? 0)%Z eqn:E0;
        [apply Z.eqb_eq in E0; lia|].
      cbn [fst snd success_rate track_total track_success].
      rewrite He.
      assert (Q1 : RateLimiter.Qlt_bool
                     (inject_Z (track_total s + 1)
                      / inject_Z (track_total s + 1))
                     (success_rate s) = false).
      { apply RateLimiterFacts.Qlt_bool_false.
        rewrite quotient_one by lia. exact Hr. }
      rewrite Q1. repeat split; lia. }
    destruct K as (K1 & K2 & K3 & K4).
    constructor; [symmetry; exact K1|].
    apply IH; [rewrite K2; exact Hr | exact K3 | exact K4 | exact F'].
Qed.

(** X24.  With a required success rate of at most one, a tracker that is
    told of successes only never returns [False], whatever the clock
    readings. *)
Theorem X24_successes_only_never_fail
  (rate seconds : Q) (evs : list (bool * Q)) :
  rate <= 1 ->
  Forall (fun e => fst e = true) evs ->
  Forall (eq (Return true)) (fst (tracks (__init__ rate seconds) evs)).
Proof.
  intros Hr F. apply tracks_all_success; [exact Hr | | | exact F];
    cbn; lia.
Qed.

Lemma tracks_in_window (evs : list (bool * Q)) (s : state) :
  ~ track_begin s == 0 ->
  Forall (fun e => snd e - track_begin s < check_seconds s) evs ->
  Forall (eq (Return true)) (fst (tracks s evs)) /\
  track_total (snd (tracks s evs))
  = (track_total s + Z.of_nat (List.length evs))%Z /\
  track_success (snd (tracks s evs))
  = (track_success s + Z.of_nat (successes evs))%Z /\
  track_begin (snd (tracks s evs)) = track_begin s.
Proof.
  revert s. induction evs as [|[success now] evs IH]; intros s Hb F.
  - cbn. split; [constructor|]. repeat split; lia.
  - rewrite tracks_cons. cbn [fst snd].
    inversion F as [|e l Hn F']; subst. cbn [snd] in Hn.
    assert (E1 : Qeq_bool (track_begin s) 0 = false).
    { destruct (Qeq_bool (track_begin s) 0) eqn:E; [|reflexivity].
      apply Qeq_bool_iff in E. contradiction. }
    assert (E2 : RateLimiter.Qlt_bool (now - track_begin s)
                                      (check_seconds s) = true)
      by (apply RateLimiterFacts.Qlt_bool_true; exact Hn).
    assert (T : track s success now
                = (Return true,
                   mkState (if success then track_success s + 1
                            else track_success s)%Z
                           (track_total s + 1)%Z (track_begin s)
                           (success_rate s) (check_seconds s))).
    { unfold track. rewrite E1, E2. reflexivity. }
    rewrite T. cbn [fst snd].
    destruct (IH (mkState (if success then track_success s + 1
                           else track_success s)%Z
                          (track_total s + 1)%Z (track_begin s)
                          (success_rate s) (check_seconds s)))
      as (R & Tt & Ts & Tb); [exact Hb | exact F' |].
    split; [constructor; [reflexivity | exact R]|].
    rewrite Tt, Ts, Tb.
    cbn [track_total track_success track_begin List.length].
    unfold successes. cbn [filter fst].
    destruct success; cbn [List.length]; repeat split; lia.
Qed.

(** X25.  No verdict inside the window.  On a fresh tracker whose first
    event comes at a clock reading [t0] other than zero, every event that
    comes less than [check_seconds] after [t0] is answered [True], also
    when every one of them is a failure; the events are only counted, the
    first one included. *)
Theorem X25_no_verdict_before_the_window_ends
  (rate seconds : Q) (success : bool) (t0 : Q) (evs : list (bool * Q)) :
  ~ t0 == 0 ->
  Forall (fun e => snd e - t0 < seconds) evs ->
  let r := tracks (__init__ rate seconds) ((success, t0) :: evs) in
  Forall (eq (Return true)) (fst r) /\
  track_total (snd r) = Z.of_nat (List.length ((success, t0) :: evs)) /\
  track_success (snd r) = Z.of_nat (successes ((success, t0) :: evs)) /\
  track_begin (snd r) = t0.
Proof.
  intros H0 F. cbv zeta. rewrite tracks_cons.
  assert (T : track (__init__ rate seconds) success t0
              = (Return true,
                 mkState (if success then 1 else 0)%Z 1 t0 rate seconds)).
  { unfold track, __init__. cbn. destruct success; reflexivity. }
  rewrite T. cbn [fst snd].
  destruct (@tracks_in_window evs
              (mkState (if success then 1 else 0)%Z 1 t0 rate seconds))
    as (R & Tt & Ts & Tb); [exact H0 | exact F |].
  split; [constructor; [reflexivity | exact R]|].
  rewrite Tt, Ts, Tb.
  cbn [track_total track_success track_begin List.length].
  unfold successes. cbn [filter fst].
  destruct success; cbn [List.length]; repeat split; lia.
Qed.

Lemma X24_successes_witness :
  let evs := [(true, 1); (true, 10); (true, 40); (true, 80)] in
  (95 # 100) <= 1 /\
  Forall (fun e : bool * Q => fst e = true) evs /\
  Forall (eq (Return true)) (fst (tracks (__init__ (95 # 100) 30) evs)).
Proof.
  cbv zeta.
  assert (H1 : (95 # 100) <= 1) by (unfold Qle; simpl; lia).
  assert (H2 : Forall (fun e : bool * Q => fst e = true)
                      [(true, 1); (true, 10); (true, 40); (true, 80)])
    by (repeat constructor).
  split; [exact H1|]. split; [exact H2|].
  exact (@X24_successes_only_never_fail (95 # 100) 30 _ H1 H2).
Defined.

Lemma X25_window_witness :
  let r := tracks (__init__ (95 # 100) 30)
                  [(false, 5); (false, 10); (false, 34)] in
  fst r = [Return true; Return true; Return true] /\
  Forall (eq (Return true)) (fst r) /\
  track_total (snd r) = 3%Z /\
  track_success (snd r) = 0%Z /\
  track_begin (snd r) = 5.
Proof.
  cbv zeta. split; [reflexivity|].
  assert (H1 : ~ 5 == 0) by (unfold Qeq; simpl; lia).
  assert (H2 : Forall (fun e : bool * Q => snd e - 5 < 30)
                      [(false, 10); (false, 34)])
    by (repeat constructor; unfold Qlt; simpl; lia).
  exact (@X25_no_verdict_before_the_window_ends (95 # 100) 30 false 5 _
           H1 H2).
Defined.

End SuccessTrackerExtra.

(** ** The file collector *)

Module FileCollectorExtra.
Import FileCollector.

Local Open Scope string_scope.
Local Open Scope list_scope.

Lemma arrived_cons (n : nat) (k : tick) (ticks : list tick) :
  arrived (S n) (k :: ticks) = arrivals k ++ arrived n ticks.
Proof. reflexivity. Qed.

Lemma writer_loop_normal_exit (ticks : list tick) (s : state) (f : file)
  (s' : state) (f' : file) :
  Forall (fun k => write_result k <> Raise QueueEmpty) ticks ->
  writer_loop s f ticks = Some (Return tt, s', f') ->
  exists n, (n <= List.length ticks)%nat /\
            written f' = written f ++ _queue s ++ arrived n ticks /\
            _queue s' = [] /\ _event s' = true /\
            closed f' = closed f.
Proof.
  revert s f. induction ticks as [|k ticks IH]; intros s f W;
    [discriminate|].
  inversion W as [|k0 l Wk W']; subst.
  cbn [writer_loop].
  destruct (_queue s ++ arrivals k) as [|item q'] eqn:Q.
  - destruct (_event s || stopped k) eqn:Ev.
    + intros E. injection E as <- <-.
      exists 1%nat. rewrite arrived_cons. cbn [arrived firstn map concat].
      rewrite app_nil_r, Q, app_nil_r. cbn. repeat split; lia.
    + intros L. destruct (IH _ _ W' L) as (n & Hn & Hw & Hq & He & Hc).
      exists (S n). rewrite arrived_cons, (app_assoc (_queue s) (arrivals k)), Q.
      cbn [List.length _queue app] in *.
      repeat split; try assumption; lia.
  - destruct (write_result k) as [u|e] eqn:R.
    + intros L. destruct (IH _ _ W' L) as (n & Hn & Hw & Hq & He & Hc).
      exists (S n). rewrite arrived_cons, (app_assoc (_queue s) (arrivals k)), Q.
      cbn [List.length _queue written closed] in *.
      rewrite Hw, <- !app_assoc. cbn [app].
      repeat split; try assumption; lia.
    + destruct e; try discriminate. exfalso. apply Wk. reflexivity.
Qed.

(** X26.  When the writer thread ends normally, the file has been closed,
    the queue is empty, [stop()] has been seen, and the file holds, in
    queue order, every item that was in the queue at the start or arrived
    while the thread ran (no [write] having raised [queue.Empty]). *)
Theorem X26_normal_exit_has_written_everything
  (s : state) (o : outcome unit) (ticks : list tick)
  (s' : state) (f : file) :
  Forall (fun k => write_result k <> Raise QueueEmpty) ticks ->
  _work_thread_entry s o ticks = Some (Return tt, s', f) ->
  exists n, (n <= List.length ticks)%nat /\
            written f = _queue s ++ arrived n ticks /\
            _queue s' = [] /\ _event s' = true /\ closed f = true.
Proof.
  intros W. unfold _work_thread_entry.
  destruct o as [u|e]; [|discriminate].
  destruct (writer_loop s (mkFile [] false) ticks) as [[[r s1] f1]|] eqn:L;
    [|discriminate].
  destruct r as [[]|e]; [|discriminate].
  intros E. injection E as <- <-.
  destruct (writer_loop_normal_exit _ _ W L) as (n & Hn & Hw & Hq & He & _).
  exists n. cbn [written closed] in *. auto.
Qed.

Lemma writer_loop_needs_stop (ticks : list tick) (s : state) (f : file) :
  _event s = false ->
  Forall (fun k => stopped k = false) ticks ->
  (forall s' f', writer_loop s f ticks <> Some (Return tt, s', f')) /\
  (Forall (fun k => write_result k = Return tt) ticks ->
   writer_loop s f ticks = None).
Proof.
  revert s f. induction ticks as [|k ticks IH]; intros s f Ev St.
  - split; [discriminate | reflexivity].
  - inversion St as [|k0 l Sk St']; subst.
    cbn [writer_loop]. rewrite Ev, Sk. cbn [orb].
    destruct (_queue s ++ arrivals k) as [|item q'].
    + destruct (IH (mkState [] (_queue_maxsize s) false) f eq_refl St')
        as (N & R).
      split; [exact N|]. intros W. inversion W; subst. auto.
    + split.
      * destruct (write_result k) as [u|e].
        -- apply IH; [reflexivity | exact St'].
        -- destruct e; try discriminate.
           apply IH; [reflexivity | exact St'].
      * intros W. inversion W as [|k0 l Wk W']; subst. rewrite Wk.
        apply IH; [reflexivity | exact St' | exact W'].
Qed.

(** X27.  The writer thread runs until [stop()]: as long as the event is
    not set, the thread never ends normally, whatever arrives and however
    [open] and [write] end; and when they do not raise, it does not end at
    all. *)
Theorem X27_writer_runs_until_stop (s : state) (ticks : list tick) :
  _event s = false ->
  Forall (fun k => stopped k = false) ticks ->
  (forall o s' f, _work_thread_entry s o ticks <> Some (Return tt, s', f)) /\
  (Forall (fun k => write_result k = Return tt) ticks ->
   _work_thread_entry s (Return tt) ticks = None).
Proof.
  intros Ev St.
  destruct (@writer_loop_needs_stop ticks s (mkFile [] false) Ev St)
    as (N & R).
  unfold _work_thread_entry. split.
  - intros o s' f. destruct o as [u|e]; [|discriminate].
    destruct (writer_loop s (mkFile [] false) ticks) as [[[r s1] f1]|] eqn:L;
      [|discriminate].
    destruct r as [[]|e]; [|discriminate].
    exfalso. exact (N _ _ eq_refl).
  - intros W. rewrite (R W). reflexivity.
Qed.

Lemma writer_loop_failed_write (ticks : list tick) (s : state) (f : file)
  (e : exn) (s' : state) (f' : file) :
  Forall (fun k => write_result k <> Raise QueueEmpty) ticks ->
  writer_loop s f ticks = Some (Raise e, s', f') ->
  closed f' = closed f /\ e <> QueueEmpty /\
  exists n k item,
    nth_error ticks n = Some k /\ write_result k = Raise e /\
    written f ++ _queue s ++ arrived (S n) ticks
    = written f' ++ item :: _queue s'.
Proof.
  revert s f. induction ticks as [|k ticks IH]; intros s f W;
    [discriminate|].
  inversion W as [|k0 l Wk W']; subst.
  cbn [writer_loop].
  destruct (_queue s ++ arrivals k) as [|item q'] eqn:Q.
  - destruct (_event s || stopped k); [discriminate|].
    intros L. destruct (IH _ _ W' L) as (Hc & Hn & n & k1 & it & Hk & Hr & Hw).
    split; [exact Hc|]. split; [exact Hn|].
    exists (S n), k1, it. split; [exact Hk|]. split; [exact Hr|].
    rewrite arrived_cons, (app_assoc (_queue s) (arrivals k)), Q. exact Hw.
  - destruct (write_result k) as [u|e0] eqn:R.
    + intros L.
      destruct (IH _ _ W' L) as (Hc & Hn & n & k1 & it & Hk & Hr & Hw).
      split; [exact Hc|]. split; [exact Hn|].
      exists (S n), k1, it. split; [exact Hk|]. split; [exact Hr|].
      rewrite arrived_cons, (app_assoc (_queue s) (arrivals k)), Q.
      cbn [written _queue] in Hw. rewrite <- Hw, <- !app_assoc.
      reflexivity.
    + assert (K : Some ((Raise e0 : outcome unit),
                        mkState q' (_queue_maxsize s)
                                (_event s || stopped k), f)
                  = Some (Raise e, s', f') ->
                  closed f' = closed f /\ e <> QueueEmpty /\
                  exists n k1 item0,
                    nth_error (k :: ticks) n = Some k1 /\
                    write_result k1 = Raise e /\
                    written f ++ _queue s ++ arrived (S n) (k :: ticks)
                    = written f' ++ item0 :: _queue s').
      { intros E. injection E as <- <- <-.
        split; [reflexivity|].
        split; [intros ->; apply Wk; reflexivity|].
        exists 0%nat, k, item. split; [reflexivity|]. split; [exact R|].
        rewrite arrived_cons. cbn [arrived firstn map concat _queue].
        rewrite app_nil_r, Q. reflexivity. }
      destruct e0; try exact K. exfalso. apply Wk. reflexivity.
Qed.

(** X28.  A failing [write] leaves the file open and loses the item.  When
    the writer thread ends with an exception of [f.write], [f.close()] has
    not been called, and the item whose write failed is neither in the
    file nor in the queue: what was queued and what arrived up to then is
    what was written, then that item, then what the queue still holds. *)
Theorem X28_failed_write_leaves_file_open
  (s : state) (ticks : list tick) (e : exn) (s' : state) (f : file) :
  Forall (fun k => write_result k <> Raise QueueEmpty) ticks ->
  _work_thread_entry s (Return tt) ticks = Some (Raise e, s', f) ->
  closed f = false /\ e <> QueueEmpty /\
  exists n k item,
    nth_error ticks n = Some k /\ write_result k = Raise e /\
    _queue s ++ arrived (S n) ticks = written f ++ item :: _queue s'.
Proof.
  intros W. unfold _work_thread_entry.
  destruct (writer_loop s (mkFile [] false) ticks) as [[[r s1] f1]|] eqn:L;
    [|discriminate].
  destruct r as [[]|e1]; [discriminate|].
  intros E. injection E as <- <- <-.
  exact (writer_loop_failed_write _ _ W L).
Qed.

Lemma writer_loop_after_stop (ticks : list tick) (s : state) (f : file) :
  _event s = true ->
  Forall (fun k => arrivals k = [] /\ write_result k = Return tt) ticks ->
  (List.length (_queue s) < List.length ticks)%nat ->
  writer_loop s f ticks
  = Some (Return tt, mkState [] (_queue_maxsize s) true,
          mkFile (written f ++ _queue s) (closed f)).
Proof.
  revert s f. induction ticks as [|k ticks IH]; intros s f Ev Q Hl;
    [cbn in Hl; lia|].
  inversion Q as [|k0 l [Ha Hw] Q']; subst.
  cbn [writer_loop]. rewrite Ev, Ha, app_nil_r. cbn [orb].
  destruct s as [q m ev]. cbn [_queue _queue_maxsize _event] in *.
  destruct q as [|item q'].
  - rewrite app_nil_r. destruct f. reflexivity.
  - rewrite Hw.
    rewrite (IH (mkState q' m true) (mkFile (written f ++ [item]) (closed f))
                eq_refl Q').
    + cbn [_queue _queue_maxsize written closed].
      rewrite <- app_assoc. reflexivity.
    + cbn [_queue List.length] in *. lia.
Qed.

(** X29.  [stop()] drains the queue.  When [stop()] has been called,
    nothing more arrives and the writes succeed, the writer thread ends
    within one pass per queued item plus one: it has written the whole
    queue in order, emptied it and closed the file. *)
Theorem X29_stop_drains_the_queue (s : state) (ticks : list tick) :
  Forall (fun k => arrivals k = [] /\ write_result k = Return tt) ticks ->
  (List.length (_queue s) < List.length ticks)%nat ->
  _work_thread_entry (stop s) (Return tt) ticks
  = Some (Return tt, mkState [] (_queue_maxsize s) true,
          mkFile (_queue s) true).
Proof.
  intros Q Hl. unfold _work_thread_entry.
  rewrite (@writer_loop_after_stop ticks (stop s) (mkFile [] false)
             eq_refl Q Hl).
  reflexivity.
Qed.

Lemma collects_fit (items : list string) (s : state) :
  (_queue_maxsize s <= 0
   \/ Z.of_nat (List.length (_queue s) + List.length items)
      <= _queue_maxsize s)%Z ->
  collects s items
  = Some (mkState (_queue s ++ items) (_queue_maxsize s) (_event s)).
Proof.
  revert s. induction items as [|item items IH]; intros s H.
  - cbn. rewrite app_nil_r. destruct s. reflexivity.
  - cbn [collects]. unfold collect, WorkQueue.has_room.
    assert (R : ((_queue_maxsize s <=? 0)%Z
                 || (Z.of_nat (List.length (_queue s))
                     <? _queue_maxsize s)%Z) = true).
    { apply orb_true_iff. rewrite Z.leb_le, Z.ltb_lt.
      cbn [List.length] in H. lia. }
    rewrite R, IH.
    + cbn [_queue _queue_maxsize _event]. rewrite <- app_assoc. reflexivity.
    + cbn [_queue _queue_maxsize]. rewrite length_app.
      cbn [List.length] in *. lia.
Qed.

(** X30.  Round trip.  On a fresh collector whose queue is unbounded or
    has room for the items, the [collect] calls return; after [stop()] a
    writer thread that gets its passes writes exactly the collected items,
    in the order of the calls, and closes the file. *)
Theorem X30_collected_items_reach_the_file_in_order
  (queue_maxsize : Z) (items : list string) (ticks : list tick) :
  (queue_maxsize <= 0 \/ Z.of_nat (List.length items) <= queue_maxsize)%Z ->
  Forall (fun k => arrivals k = [] /\ write_result k = Return tt) ticks ->
  (List.length items < List.length ticks)%nat ->
  exists s,
    collects (__init__ queue_maxsize) items = Some s /\
    _work_thread_entry (stop s) (Return tt) ticks
    = Some (Return tt, mkState [] queue_maxsize true, mkFile items true).
Proof.
  intros H Q Hl. exists (mkState items queue_maxsize false). split.
  - rewrite collects_fit; [reflexivity|].
    cbn [__init__ _queue _queue_maxsize List.length Nat.add]. exact H.
  - unfold _work_thread_entry.
    rewrite (@writer_loop_after_stop ticks
               (stop (mkState items queue_maxsize false))
               (mkFile [] false) eq_refl Q Hl).
    reflexivity.
Qed.

Lemma X26_normal_exit_witness :
  let s := mkState ["a"] 512 false in
  let ticks := [mkTick ["b"] false (Return tt);
                mkTick [] false (Return tt);
                mkTick [] true (Return tt)] in
  _work_thread_entry s (Return tt) ticks
  = Some (Return tt, mkState [] 512 true, mkFile ["a"; "b"] true) /\
  exists n, (n <= 3)%nat /\
            ["a"; "b"] = ["a"] ++ arrived n ticks /\
            @nil string = [] /\ true = true /\ true = true.
Proof.
  cbv zeta. split; [reflexivity|].
  refine (@X26_normal_exit_has_written_everything
            (mkState ["a"] 512 false) (Return tt)
            [mkTick ["b"] false (Return tt);
             mkTick [] false (Return tt);
             mkTick [] true (Return tt)]
            (mkState [] 512 true) (mkFile ["a"; "b"] true) _ eq_refl).
  repeat constructor; discriminate.
Defined.

Lemma X27_writer_witness :
  let ticks := [mkTick ["a"] false (Return tt);
                mkTick [] false (Return tt);
                mkTick [] false (Return tt)] in
  _work_thread_entry (__init__ 512) (Return tt) ticks = None.
Proof.
  cbv zeta.
  refine (proj2 (@X27_writer_runs_until_stop (__init__ 512)
                   [mkTick ["a"] false (Return tt);
                    mkTick [] false (Return tt);
                    mkTick [] false (Return tt)] eq_refl _) _);
    repeat constructor.
Defined.

Lemma X28_failed_write_witness :
  let ticks := [mkTick ["a"; "b"] false (Return tt);
                mkTick ["c"] false (Raise RuntimeError);
                mkTick [] true (Return tt)] in
  _work_thread_entry (__init__ 512) (Return tt) ticks
  = Some (Raise RuntimeError, mkState ["c"] 512 false, mkFile ["a"] false) /\
  false = false /\ RuntimeError <> QueueEmpty /\
  exists n k item,
    nth_error ticks n = Some k /\ write_result k = Raise RuntimeError /\
    [] ++ arrived (S n) ticks = ["a"] ++ item :: ["c"].
Proof.
  cbv zeta. split; [reflexivity|].
  refine (@X28_failed_write_leaves_file_open (__init__ 512)
            [mkTick ["a"; "b"] false (Return tt);
             mkTick ["c"] false (Raise RuntimeError);
             mkTick [] true (Return tt)]
            RuntimeError (mkState ["c"] 512 false) (mkFile ["a"] false)
            _ eq_refl).
  repeat constructor; discriminate.
Defined.

Lemma X29_stop_drains_witness :
  let s := mkState ["a"; "b"] 512 false in
  let ticks := [mkTick [] false (Return tt);
                mkTick [] false (Return tt);
                mkTick [] false (Return tt)] in
  _work_thread_entry (stop s) (Return tt) ticks
  = Some (Return tt, mkState [] 512 true, mkFile ["a"; "b"] true).
Proof.
  cbv zeta.
  refine (@X29_stop_drains_the_queue (mkState ["a"; "b"] 512 false)
            [mkTick [] false (Return tt);
             mkTick [] false (Return tt);
             mkTick [] false (Return tt)] _ _).
  - repeat constructor.
  - simpl. lia.
Defined.

Lemma X30_round_trip_witness :
  let ticks := [mkTick [] false (Return tt);
                mkTick [] false (Return tt);
                mkTick [] false (Return tt)] in
  collects (__init__ 2) ["a"; "b"; "c"] = None /\
  exists s,
    collects (__init__ 2) ["a"; "b"] = Some s /\
    _work_thread_entry (stop s) (Return tt) ticks
    = Some (Return tt, mkState [] 2 true, mkFile ["a"; "b"] true).
Proof.
  cbv zeta. split; [reflexivity|].
  refine (@X30_collected_items_reach_the_file_in_order 2 ["a"; "b"]
            [mkTick [] false (Return tt);
             mkTick [] false (Return tt);
             mkTick [] false (Return tt)] _ _ _).
  - right. simpl. lia.
  - repeat constructor.
  - simpl. lia.
Defined.

End FileCollectorExtra.
